(** * Communication-Breakdown: the per-tick propagation engine

    A shallow embedding of [mvp2-crypto/backend/main.py] (the tick driver,
    the CRDSA contention resolver, message publication) and of
    [mvp3-mesh-communication/backend/economy.py] (wallets, reputation
    tracking, the economy tracker), with the properties the specification
    states about them.

    Conventions of the embedding.
    - Python [int] values (node ids, credit amounts, counters) are [Z];
      every credit amount the program passes around is an integer constant.
    - Timestamps and the reputation score are Python floats; they are
      modelled as exact rationals [Q].  The TTL test subtracts two nearby
      timestamps and the score divides two small counters, so exact
      arithmetic is the intended reading of both.
    - Dictionaries are [gmap]s, Python sets are [gset]s, lists are lists.
    - A Python exception ([KeyError] on a missing dictionary key,
      [IndexError] on a list index out of range) is the result [None]. *)

From Stdlib Require Import ZArith QArith Qminmax Qabs Lia Lqa.
From stdpp Require Import gmap strings pretty list fin_maps sorting.

Local Open Scope Z_scope.

(** ** economy.py: constants *)

Definition INITIAL_CREDITS : Z := 100.
Definition UBI_AMOUNT : Z := 5.
Definition UBI_INTERVAL_TICKS : Z := 10.
Definition LOGISTICS_SEND_COST : Z := 2.
Definition LOGISTICS_RELAY_REWARD : Z := 1.
Definition SAFETY_SEND_COST : Z := 0.
Definition SAFETY_RELAY_REWARD : Z := 10.

(** ** economy.py: Wallet *)

Record Wallet := mkWallet {
  wallet_node_id : Z;
  balance : Z;
  total_earned : Z;
  total_spent : Z;
  transaction_count : Z
}.

Definition new_wallet (node_id initial_credits : Z) : Wallet :=
  mkWallet node_id initial_credits 0 0 0.

(** [Wallet.add_credits]: only a positive amount changes the wallet. *)
Definition add_credits (amount : Z) (w : Wallet) : Wallet :=
  if 0 <? amount
  then mkWallet (wallet_node_id w) (balance w + amount)
                (total_earned w + amount) (total_spent w)
                (transaction_count w + 1)
  else w.

(** [Wallet.spend_credits]: the returned boolean is the method's result. *)
Definition spend_credits (amount : Z) (w : Wallet) : bool * Wallet :=
  if amount <=? 0 then (true, w)
  else if amount <=? balance w
       then (true, mkWallet (wallet_node_id w) (balance w - amount)
                            (total_earned w) (total_spent w + amount)
                            (transaction_count w + 1))
       else (false, w).

(** ** economy.py: ReputationManager *)

Record PeerStats := mkPeerStats { sent : Z; relayed : Z }.

Record ReputationManager := mkReputation {
  reputation_node_id : Z;
  peer_stats : gmap Z PeerStats
}.

Definition new_reputation (node_id : Z) : ReputationManager :=
  mkReputation node_id ∅.

(** The two recorders first create the entry of an unseen peer
    ([{"sent": 0, "relayed": 0}]) and then bump one counter. *)
Definition stats_or_new (rm : ReputationManager) (peer_id : Z) : PeerStats :=
  default (mkPeerStats 0 0) (peer_stats rm !! peer_id).

Definition record_packet_sent_to_peer (peer_id : Z) (rm : ReputationManager)
  : ReputationManager :=
  let s := stats_or_new rm peer_id in
  mkReputation (reputation_node_id rm)
               (<[peer_id := mkPeerStats (sent s + 1) (relayed s)]> (peer_stats rm)).

Definition record_successful_relay_by_peer (peer_id : Z) (rm : ReputationManager)
  : ReputationManager :=
  let s := stats_or_new rm peer_id in
  mkReputation (reputation_node_id rm)
               (<[peer_id := mkPeerStats (sent s) (relayed s + 1)]> (peer_stats rm)).

(** [get_reputation_score]: Python's true division of two ints, capped
    at 1.0. *)
Definition get_reputation_score (rm : ReputationManager) (peer_id : Z) : Q :=
  match peer_stats rm !! peer_id with
  | None => 1%Q
  | Some stats =>
      if sent stats =? 0 then 1%Q
      else Qmin 1%Q (inject_Z (relayed stats) / inject_Z (sent stats))%Q
  end.

Definition is_peer_trusted (rm : ReputationManager) (peer_id : Z) (threshold : Q)
  : bool :=
  Qle_bool threshold (get_reputation_score rm peer_id).

(** The states of a tracker that the program can build: a fresh tracker,
    changed only through its two recorders. *)
Inductive reputation_reachable : ReputationManager → Prop :=
| reach_new node_id : reputation_reachable (new_reputation node_id)
| reach_sent peer_id rm :
    reputation_reachable rm →
    reputation_reachable (record_packet_sent_to_peer peer_id rm)
| reach_relayed peer_id rm :
    reputation_reachable rm →
    reputation_reachable (record_successful_relay_by_peer peer_id rm).

(** ** economy.py: EconomyTracker *)

Record EconomyTracker := mkEconomy {
  total_transactions : Z;
  total_fee_revenue : Z;
  total_safety_subsidies : Z;
  tick_count : Z
}.

Inductive TransactionType := logistics_send | logistics_relay | safety_relay | ubi.

Definition record_transaction (ty : TransactionType) (amount : Z)
    (e : EconomyTracker) : EconomyTracker :=
  match ty with
  | logistics_send =>
      mkEconomy (total_transactions e + 1) (total_fee_revenue e + amount)
                (total_safety_subsidies e) (tick_count e)
  | safety_relay =>
      mkEconomy (total_transactions e + 1) (total_fee_revenue e)
                (total_safety_subsidies e + amount) (tick_count e)
  | _ =>
      mkEconomy (total_transactions e + 1) (total_fee_revenue e)
                (total_safety_subsidies e) (tick_count e)
  end.

Definition increment_tick (e : EconomyTracker) : EconomyTracker :=
  mkEconomy (total_transactions e) (total_fee_revenue e)
            (total_safety_subsidies e) (tick_count e + 1).

(** ** main.py: configuration constants *)

Definition NUM_NODES : Z := 10.
Definition MAX_INVENTORY_SIZE : nat := 100.
Definition PACKET_TTL_SECONDS : Q := 300.
Definition CRDSA_SLOTS_PER_TICK : nat := 5.
Definition CRDSA_REPLICAS : nat := 2.
Definition CRDSA_MAX_SIC_ITERATIONS : nat := 10.

(** ** main.py: data model *)

Inductive MessageType := Logistics | Help | Safe.
Inductive NetworkType := WiFi | LoRa.

#[global] Instance MessageType_eq_dec : EqDecision MessageType.
Proof. solve_decision. Defined.

Record MessagePacket := mkPacket {
  packet_id : string;
  original_message_id : string;
  publisher_id : Z;
  target_ids : list Z;
  message_text : string;
  history : list Z;
  created_at : Q;
  message_type : MessageType;
  network_type : NetworkType;
  signature : option string;
  proof : option string;
  is_encrypted : bool;
  ciphertext : option string;
  nonce : option string
}.

(** [NodeRuntime], without its display fields ([name], [location_name],
    [hash_value]) and its key material, which the tick never reads. *)
Record NodeRuntime := mkNode {
  id : Z;
  latitude : Q;
  longitude : Q;
  range : Z;
  auto_relay : bool;
  wallet : Wallet;
  reputation : ReputationManager;
  known_messages : gset string
}.

Definition new_node (node_id : Z) (lat lng : Q) : NodeRuntime :=
  mkNode node_id lat lng 100 true (new_wallet node_id INITIAL_CREDITS)
         (new_reputation node_id) ∅.

Definition with_wallet (f : Wallet → Wallet) (n : NodeRuntime) : NodeRuntime :=
  mkNode (id n) (latitude n) (longitude n) (range n) (auto_relay n)
         (f (wallet n)) (reputation n) (known_messages n).

Definition with_reputation (f : ReputationManager → ReputationManager)
    (n : NodeRuntime) : NodeRuntime :=
  mkNode (id n) (latitude n) (longitude n) (range n) (auto_relay n)
         (wallet n) (f (reputation n)) (known_messages n).

Definition with_known_message (m : string) (n : NodeRuntime) : NodeRuntime :=
  mkNode (id n) (latitude n) (longitude n) (range n) (auto_relay n)
         (wallet n) (reputation n) ({[m]} ∪ known_messages n).

(** The module-level mutable state of main.py. *)
Record World := mkWorld {
  NODES : list NodeRuntime;
  node_inventories : gmap Z (list MessagePacket);
  CONNECTIONS : gset (Z * Z);
  global_economy : EconomyTracker;
  CRDSA_ENABLED : bool
}.

Definition set_nodes (ns : list NodeRuntime) (w : World) : World :=
  mkWorld ns (node_inventories w) (CONNECTIONS w) (global_economy w)
          (CRDSA_ENABLED w).

Definition set_inventories (inv : gmap Z (list MessagePacket)) (w : World) : World :=
  mkWorld (NODES w) inv (CONNECTIONS w) (global_economy w) (CRDSA_ENABLED w).

Definition set_economy (e : EconomyTracker) (w : World) : World :=
  mkWorld (NODES w) (node_inventories w) (CONNECTIONS w) e (CRDSA_ENABLED w).

(** What a tick draws from outside the world state: the wall clock read
    once by the TTL cleanup, the slots [random.sample] returns for the
    packet at a given position of a given node's inventory, and the
    successive results of [uuid.uuid4]. *)
Record TickEnv := mkEnv {
  current_time : Q;
  sample : Z → nat → list nat;
  uuid4 : nat → string
}.

(** [NODES[i]] for a Python int [i]: negative indices count from the end,
    anything else out of range raises [IndexError]. *)
Definition py_index (len : nat) (i : Z) : option nat :=
  if (0 <=? i) && (i <? Z.of_nat len) then Some (Z.to_nat i)
  else if (- Z.of_nat len <=? i) && (i <? 0) then Some (Z.to_nat (Z.of_nat len + i))
  else None.

(** ** main.py: apply_crdsa_collision_simulation *)

(** What [random.sample(range(SLOTS), min(REPLICAS, SLOTS))] can return. *)
Definition valid_sample (s : list nat) : Prop :=
  length s = Nat.min CRDSA_REPLICAS CRDSA_SLOTS_PER_TICK ∧
  NoDup s ∧ ∀ i, i ∈ s → (i < CRDSA_SLOTS_PER_TICK)%nat.

Definition add_to_slots (packet : MessagePacket) (packet_slots : list nat)
    (slots : list (list MessagePacket)) : list (list MessagePacket) :=
  foldl (λ sl slot_idx, alter (λ l, l ++ [packet]) slot_idx sl) slots packet_slots.

(** The assignment loop; [i] is the position of the next packet. *)
Fixpoint assign_replicas (draw : nat → list nat) (i : nat)
    (packets : list MessagePacket)
    (st : list (list MessagePacket) * gmap string (list nat))
  : list (list MessagePacket) * gmap string (list nat) :=
  match packets with
  | [] => st
  | packet :: rest =>
      let packet_slots := draw i in
      assign_replicas draw (S i) rest
        (add_to_slots packet packet_slots st.1,
         <[packet_id packet := packet_slots]> st.2)
  end.

(** The scan for singleton slots of one SIC iteration. *)
Definition find_singletons (slots : list (list MessagePacket))
    (unresolved_packets : gset string) : list string :=
  flat_map (λ slot_packets,
              match slot_packets with
              | [packet] =>
                  if bool_decide (packet_id packet ∈ unresolved_packets)
                  then [packet_id packet] else []
              | _ => []
              end) slots.

Record SicState := mkSic {
  sic_slots : list (list MessagePacket);
  resolved_packets : gset string;
  unresolved_packets : gset string
}.

(** Cancellation of one newly resolved packet. *)
Definition cancel_packet (packet_to_slots : gmap string (list nat))
    (st : SicState) (pid : string) : SicState :=
  mkSic (foldl (λ sl slot_idx,
                  alter (filter (λ p, packet_id p ≠ pid)) slot_idx sl)
               (sic_slots st) (default [] (packet_to_slots !! pid)))
        ({[pid]} ∪ resolved_packets st)
        (unresolved_packets st ∖ {[pid]}).

Fixpoint sic_iterations (iterations : nat)
    (packet_to_slots : gmap string (list nat)) (st : SicState) : SicState :=
  match iterations with
  | O => st
  | S n =>
      if decide (unresolved_packets st = ∅) then st
      else match find_singletons (sic_slots st) (unresolved_packets st) with
           | [] => st
           | newly_resolved =>
               sic_iterations n packet_to_slots
                 (foldl (cancel_packet packet_to_slots) st newly_resolved)
           end
  end.

(** The body of the per-node loop. *)
Definition crdsa_resolve (draw : nat → list nat) (packets : list MessagePacket)
  : list MessagePacket :=
  match packets with
  | [] => []
  | _ =>
      let '(slots, packet_to_slots) :=
        assign_replicas draw 0 packets (replicate CRDSA_SLOTS_PER_TICK [], ∅) in
      let final :=
        sic_iterations CRDSA_MAX_SIC_ITERATIONS packet_to_slots
          (mkSic slots ∅ (dom packet_to_slots)) in
      filter (λ p, packet_id p ∈ resolved_packets final) packets
  end.

Definition apply_crdsa_collision_simulation (enabled : bool)
    (draws : Z → nat → list nat) (inventories : gmap Z (list MessagePacket))
  : gmap Z (list MessagePacket) :=
  if enabled
  then map_imap (λ node_id packets, Some (crdsa_resolve (draws node_id) packets))
                inventories
  else inventories.

(** ** main.py: simulation_tick *)

(** A loop whose body may raise: the first exception ends it. *)
Fixpoint for_each {S A} (body : S → A → option S) (s : S) (l : list A) : option S :=
  match l with
  | [] => Some s
  | x :: rest => s' ← body s x; for_each body s' rest
  end.

Definition enumerate {A} (l : list A) : list (nat * A) :=
  zip (seq 0 (length l)) l.

(** The TTL test of the cleanup, [(current_time - p.created_at) < TTL]. *)
Definition within_ttl (now : Q) (p : MessagePacket) : bool :=
  negb (Qle_bool PACKET_TTL_SECONDS (now - created_at p)).

(** TTL filter, then [inventory[-MAX_INVENTORY_SIZE:]] when too long. *)
Definition cleanup_inventory (now : Q) (inventory : list MessagePacket)
  : list MessagePacket :=
  let kept := filter (λ p, within_ttl now p) inventory in
  if (MAX_INVENTORY_SIZE <? length kept)%nat
  then drop (length kept - MAX_INVENTORY_SIZE) kept
  else kept.

Definition ubi_distribution (w : World) : World :=
  if tick_count (global_economy w) mod UBI_INTERVAL_TICKS =? 0
  then set_nodes (with_wallet (add_credits UBI_AMOUNT) <$> NODES w) w
  else w.

(** The part of the tick under [simulation_lock]: tick counter, UBI,
    cleanup, contention resolution. *)
Definition locked_phase (env : TickEnv) (w : World) : World :=
  let w1 := set_economy (increment_tick (global_economy w)) w in
  let w2 := ubi_distribution w1 in
  let w3 := set_inventories
              (cleanup_inventory (current_time env) <$> node_inventories w2) w2 in
  set_inventories
    (apply_crdsa_collision_simulation (CRDSA_ENABLED w3) (sample env)
       (node_inventories w3)) w3.

(** The copy built for [node_b]: a new packet id, the receiver appended to
    the history, every other field of the source packet. *)
Definition copy_for (new_id : string) (node_b_id : Z) (packet : MessagePacket)
  : MessagePacket :=
  mkPacket new_id (original_message_id packet) (publisher_id packet)
           (target_ids packet) (message_text packet)
           (history packet ++ [node_b_id]) (created_at packet)
           (message_type packet) (network_type packet) (signature packet)
           (proof packet) (is_encrypted packet) (ciphertext packet)
           (nonce packet).

Definition relay_terms (packet : MessagePacket) : Z * TransactionType :=
  if decide (message_type packet = Safe)
  then (SAFETY_RELAY_REWARD, safety_relay)
  else (LOGISTICS_RELAY_REWARD, logistics_relay).

(** The reputation update of the relay step: [packet.history[-1]] is
    looked up in [NODES] by position [id - 1]. *)
Definition credit_previous_hop (node_a_id : Z) (packet : MessagePacket)
    (w : World) : option World :=
  if (1 <? length (history packet))%nat
  then match last (history packet) with
       | Some previous_hop_id =>
           if decide (previous_hop_id = publisher_id packet) then Some w
           else
             idx ← py_index (length (NODES w)) (previous_hop_id - 1);
             Some (set_nodes
                     (alter (with_reputation
                               (record_successful_relay_by_peer node_a_id))
                            idx (NODES w)) w)
       | None => Some w
       end
  else Some w.

(** The state of the flooding phase: the world and the [new_packets]
    buffer of (destination id, copy) pairs. *)
Definition FloodState : Type := World * list (Z * MessagePacket).

(** The body of [for packet in node_inventories[node_a.id]].  [ia] is the
    position of [node_a] in [NODES]: the loop variable is that very
    object, so paying [node_a] updates [NODES] at [ia]. *)
Definition relay_packet (env : TickEnv) (ia : nat) (node_a_id node_b_id : Z)
    (st : FloodState) (packet : MessagePacket) : option FloodState :=
  if bool_decide (node_b_id ∈ history packet) then Some st
  else
    let '(relay_reward, transaction_type) := relay_terms packet in
    let w1 := set_nodes (alter (with_wallet (add_credits relay_reward)) ia
                               (NODES st.1)) st.1 in
    let w2 := set_economy
                (record_transaction transaction_type relay_reward
                   (global_economy w1)) w1 in
    w3 ← credit_previous_hop node_a_id packet w2;
    let new_packet := copy_for (uuid4 env (length st.2)) node_b_id packet in
    Some (set_nodes (alter (with_reputation (record_packet_sent_to_peer node_b_id))
                           ia (NODES w3)) w3,
          st.2 ++ [(node_b_id, new_packet)]).

Section Engine.

(** The great-circle distance of main.py ([calculate_distance], haversine
    in floating point) is taken as given. *)
Variable calculate_distance : Q → Q → Q → Q → Q.

Definition in_contact (w : World) (node_a node_b : NodeRuntime) : bool :=
  Qle_bool (calculate_distance (latitude node_a) (longitude node_a)
                               (latitude node_b) (longitude node_b))
           (inject_Z (range node_a))
  || bool_decide ((Z.min (id node_a) (id node_b), Z.max (id node_a) (id node_b))
                  ∈ CONNECTIONS w).

(** The body of [for node_b in NODES]. *)
Definition visit_neighbour (env : TickEnv) (ia : nat) (node_a : NodeRuntime)
    (st : FloodState) (node_b : NodeRuntime) : option FloodState :=
  if decide (id node_a = id node_b) then Some st
  else if in_contact st.1 node_a node_b
       then if auto_relay node_a
            then packets ← node_inventories st.1 !! id node_a;
                 for_each (relay_packet env ia (id node_a) (id node_b)) st packets
            else Some st
       else Some st.

(** The body of [for node_id, packet in new_packets]. *)
Definition same_identity (packet p : MessagePacket) : bool :=
  bool_decide (original_message_id p = original_message_id packet)
  && bool_decide (history p = history packet).

Definition commit_packet (w : World) (entry : Z * MessagePacket) : option World :=
  inventory ← node_inventories w !! entry.1;
  if existsb (same_identity entry.2) inventory then Some w
  else
    idx ← py_index (length (NODES w)) (entry.1 - 1);
    Some (set_nodes
            (alter (with_known_message (original_message_id entry.2)) idx (NODES w))
            (set_inventories
               (<[entry.1 := inventory ++ [entry.2]]> (node_inventories w)) w)).

(** The body of [for node_a in NODES]: the inner loop over the neighbours,
    then the insertion loop over the whole buffer, which is not emptied. *)
Definition flood_from (env : TickEnv) (nodes : list NodeRuntime)
    (st : FloodState) (a : nat * NodeRuntime) : option FloodState :=
  st1 ← for_each (visit_neighbour env a.1 a.2) st nodes;
  w' ← for_each commit_packet st1.1 st1.2;
  Some (w', st1.2).

Definition flood (env : TickEnv) (w : World) : option FloodState :=
  for_each (flood_from env (NODES w)) (w, []) (enumerate (NODES w)).

Definition simulation_tick (env : TickEnv) (w : World) : option World :=
  fst <$> flood env (locked_phase env w).

(** Successive ticks, one environment for each. *)
Fixpoint run_ticks (envs : list TickEnv) (w : World) : option World :=
  match envs with
  | [] => Some w
  | env :: rest => w' ← simulation_tick env w; run_ticks rest w'
  end.

End Engine.

(** ** main.py: publish_message *)

Record PublishMessageRequest := mkRequest {
  publisher_node_id : Z;
  request_text : string;
  target_node_ids : list Z;
  request_type : MessageType
}.

(** What one call of [publish_message] obtains from outside the world:
    the clock, [uuid.uuid4], [generate_message_id] (a SHA-256 digest) and
    the publisher's ECDSA signature of the text. *)
Record PublishEnv := mkPublishEnv {
  publish_time : Q;
  publish_packet_id : string;
  publish_message_id : string;
  publish_signature : string
}.

(** The field validators of [PublishMessageRequest]. *)
Definition valid_node_id (i : Z) : bool := (1 <=? i) && (i <=? NUM_NODES).

Definition validate_request (request : PublishMessageRequest) : bool :=
  negb (String.length (request_text request) =? 0)%nat
  && (String.length (request_text request) <=? 1000)%nat
  && negb (length (target_node_ids request) =? 0)%nat
  && (Z.of_nat (length (target_node_ids request)) <=? NUM_NODES)
  && forallb valid_node_id (target_node_ids request)
  && valid_node_id (publisher_node_id request).

(** The outcome of the request: the new world, or the HTTP status of the
    rejection (422 validation, 404 unknown node, 402 insufficient credits). *)
Inductive PublishResult :=
| published (w : World)
| rejected (status : Z).

Definition initial_packet (penv : PublishEnv) (request : PublishMessageRequest)
  : MessagePacket :=
  mkPacket (publish_packet_id penv) (publish_message_id penv)
           (publisher_node_id request) (target_node_ids request)
           (request_text request) [publisher_node_id request]
           (publish_time penv) (request_type request)
           (if decide (request_type request = Safe) then LoRa else WiFi)
           (if decide (request_type request = Help)
            then Some (publish_signature penv) else None)
           (if decide (request_type request = Safe)
            then Some "SIMULATED_ZKP_V1_VALID"%string else None)
           (bool_decide (request_type request = Logistics)) None None.

Definition publish_message (penv : PublishEnv) (request : PublishMessageRequest)
    (w : World) : option PublishResult :=
  if negb (validate_request request) then Some (rejected 422)
  else if negb (valid_node_id (publisher_node_id request)) then Some (rejected 404)
  else if negb (forallb valid_node_id (target_node_ids request))
  then Some (rejected 404)
  else
    idx ← py_index (length (NODES w)) (publisher_node_id request - 1);
    publisher_node ← NODES w !! idx;
    let send_cost := if decide (request_type request = Safe)
                     then SAFETY_SEND_COST else LOGISTICS_SEND_COST in
    let paid := spend_credits send_cost (wallet publisher_node) in
    if negb paid.1 then Some (rejected 402)
    else
      let w1 := set_nodes (alter (with_wallet (λ _, paid.2)) idx (NODES w)) w in
      let w2 := if decide (request_type request = Safe) then w1
                else set_economy
                       (record_transaction logistics_send send_cost
                          (global_economy w1)) w1 in
      let packet := initial_packet penv request in
      let w3 := set_nodes
                  (alter (with_known_message (original_message_id packet)) idx
                         (NODES w2)) w2 in
      inventory ← node_inventories w3 !! publisher_node_id request;
      Some (published
              (set_inventories
                 (<[publisher_node_id request := inventory ++ [packet]]>
                    (node_inventories w3)) w3)).

(** ** main.py: start-up state and link management *)

(** [create_fixed_nodes], with the random positions as input. *)
Definition create_fixed_nodes (positions : list (Q * Q)) : list NodeRuntime :=
  imap (λ i pos, new_node (Z.of_nat i + 1) pos.1 pos.2) positions.

(** [{i: [] for i in range(1, 11)}] *)
Definition empty_inventories : gmap Z (list MessagePacket) :=
  list_to_map ((λ i, (i, [])) <$> seqZ 1 10).

Definition initial_world (positions : list (Q * Q)) : World :=
  mkWorld (create_fixed_nodes positions) empty_inventories ∅
          (mkEconomy 0 0 0 0) true.

(** [POST /connections]; a rejected request leaves the world as it is. *)
Definition add_connection (node_a node_b : Z) (w : World) : World :=
  if valid_node_id node_a && valid_node_id node_b
     && negb (bool_decide (node_a = node_b))
  then mkWorld (NODES w) (node_inventories w)
               ({[ (Z.min node_a node_b, Z.max node_a node_b) ]} ∪ CONNECTIONS w)
               (global_economy w) (CRDSA_ENABLED w)
  else w.

(** ** Scenarios used below *)

(** Great-circle distance between two points of one meridian: the earth
    radius of main.py times the latitude difference in radians. *)
Definition meridian_distance (lat1 lon1 lat2 lon2 : Q) : Q :=
  ((6371000 * (355 # 113) / 180) * Qabs (lat1 - lat2))%Q.

(** Ten nodes on one meridian, about 1.1 km apart: nobody is in range of
    anybody (every range is 100 m). *)
Definition spread_positions : list (Q * Q) :=
  (λ i, ((41 + inject_Z i / 100)%Q, (-71)%Q)) <$> seqZ 1 10.

(** Ten nodes on one meridian, about 1.1 m apart: everybody is in range
    of everybody. *)
Definition cluster_positions : list (Q * Q) :=
  (λ i, ((41 + inject_Z i / 100000)%Q, (-71)%Q)) <$> seqZ 1 10.

(** Ticks three seconds apart, every drawn pair of slots being (0, 1). *)
Definition env_at (t : Q) : TickEnv :=
  mkEnv t (λ _ _, [0; 1]%nat) (λ k, pretty (Z.of_nat k)).

Definition publish_env (t : Q) (mid : string) : PublishEnv :=
  mkPublishEnv t ("p-" +:+ mid) mid "sig".

Definition publish_or_same (penv : PublishEnv) (request : PublishMessageRequest)
    (w : World) : World :=
  match publish_message penv request w with
  | Some (published w') => w'
  | _ => w
  end.

(** A line 1 - 2 - 3 - 4 of explicit links between out-of-range nodes. *)
Definition line_world : World :=
  add_connection 3 4 (add_connection 2 3 (add_connection 1 2
    (initial_world spread_positions))).

Definition all_targets : list Z := seqZ 1 10.

Definition line_world_safe : World :=
  publish_or_same (publish_env 1000 "m1")
    (mkRequest 1 "all clear" all_targets Safe) line_world.

Definition line_world_logistics : World :=
  publish_or_same (publish_env 1000 "m1")
    (mkRequest 1 "water at gate 3" all_targets Logistics) line_world.

(** Two linked nodes, the rest of the network out of reach. *)
Definition pair_world_safe : World :=
  publish_or_same (publish_env 1000 "m1")
    (mkRequest 1 "all clear" all_targets Safe)
    (add_connection 1 2 (initial_world spread_positions)).

(** Everybody in range of everybody, one message at node 1. *)
Definition cluster_world_safe : World :=
  publish_or_same (publish_env 1000 "m1")
    (mkRequest 1 "all clear" all_targets Safe)
    (initial_world cluster_positions).

Definition balance_of (node_id : Z) (w : World) : Z :=
  default 0 (balance ∘ wallet <$> (NODES w !! Z.to_nat (node_id - 1))).

Definition inventory_of (node_id : Z) (w : World) : list MessagePacket :=
  default [] (node_inventories w !! node_id).

Definition relayed_seen (observer peer : Z) (w : World) : Z :=
  default 0 (relayed <$> (n ← NODES w !! Z.to_nat (observer - 1);
                          peer_stats (reputation n) !! peer)).

(** ** Predicates of the specification *)

Definition counters_nonneg (rm : ReputationManager) : Prop :=
  ∀ peer s, peer_stats rm !! peer = Some s → 0 <= sent s ∧ 0 <= relayed s.

(** The deduplication identity of a packet. *)
Definition identity (p : MessagePacket) : string * list Z :=
  (original_message_id p, history p).

(** Every packet of every inventory satisfies [Φ]. *)
Definition all_packets (Φ : MessagePacket → Prop) (w : World) : Prop :=
  map_Forall (λ _ inventory, Forall Φ inventory) (node_inventories w).

Definition all_safe (w : World) : Prop :=
  all_packets (λ p, message_type p = Safe) w.

Definition dedup_ok (w : World) : Prop :=
  map_Forall (λ _ inventory, NoDup (identity <$> inventory)) (node_inventories w).

Definition cap_ok (w : World) : Prop :=
  map_Forall (λ _ inventory, (length inventory ≤ MAX_INVENTORY_SIZE)%nat)
             (node_inventories w).

Definition sum_balances (nodes : list NodeRuntime) : Z :=
  foldr (λ n acc, balance (wallet n) + acc) 0 nodes.

Definition total_balance (w : World) : Z := sum_balances (NODES w).

(** The number of "packet sent to peer" observations of a tracker. *)
Definition total_sent (rm : ReputationManager) : Z :=
  map_fold (λ _ s acc, sent s + acc) 0 (peer_stats rm).

(** The number of UBI rounds among the [n] ticks that follow tick [t]:
    the multiples of the interval in (t, t + n]. *)
Definition ubi_rounds (t n : Z) : Z :=
  (t + n) / UBI_INTERVAL_TICKS - t / UBI_INTERVAL_TICKS.

(** What cleanup and contention resolution make of one inventory. *)
Definition locked_inventory (env : TickEnv) (enabled : bool) (node_id : Z)
    (inventory : list MessagePacket) : list MessagePacket :=
  let cleaned := cleanup_inventory (current_time env) inventory in
  if enabled then crdsa_resolve (sample env node_id) cleaned else cleaned.

(** Every stored and every buffered packet satisfies [Φ]. *)
Definition flood_all (Φ : MessagePacket → Prop) (st : FloodState) : Prop :=
  all_packets Φ st.1 ∧ Forall (λ e, Φ e.2) st.2.

(** Flooding has only appended to the inventories of [w0]. *)
Definition grown_from (w0 w : World) : Prop :=
  ∀ node_id inventory',
    node_inventories w !! node_id = Some inventory' →
    ∃ inventory, node_inventories w0 !! node_id = Some inventory ∧
                 inventory `prefix_of` inventory'.

(** The ledger of [w] against that of [w0], [n] ticks earlier, with
    [safe_relays] relays of Safe packets and [other_relays] relays of
    other packets in between. *)
Definition ledger_after (n : Z) (w0 w : World) (safe_relays other_relays : Z)
  : Prop :=
  total_balance w
  = total_balance w0
    + UBI_AMOUNT * Z.of_nat (length (NODES w0))
      * ubi_rounds (tick_count (global_economy w0)) n
    + SAFETY_RELAY_REWARD * safe_relays
    + LOGISTICS_RELAY_REWARD * other_relays ∧
  total_transactions (global_economy w)
  = total_transactions (global_economy w0) + safe_relays + other_relays ∧
  total_safety_subsidies (global_economy w)
  = total_safety_subsidies (global_economy w0)
    + SAFETY_RELAY_REWARD * safe_relays ∧
  tick_count (global_economy w) = tick_count (global_economy w0) + n ∧
  length (NODES w) = length (NODES w0).

(** A node's balance net of the safety rewards that its own forwarding
    record accounts for. *)
Definition relay_margin (n : NodeRuntime) : Z :=
  balance (wallet n) - SAFETY_RELAY_REWARD * total_sent (reputation n).

(** The two figures the accounting follows for a node: its balance and
    its count of forwards. *)
Definition node_books (n : NodeRuntime) : Z * Z :=
  (balance (wallet n), total_sent (reputation n)).

(** The node a stored copy came from: the last but one of its history. *)
Definition sender_of (p : MessagePacket) : option Z :=
  last (take (length (history p) - 1) (history p)).

(** The hops a node has performed with success: the copies stored in the
    network that were delivered from it. *)
Definition hops_delivered_by (node_id : Z) (w : World) : nat :=
  map_fold (λ _ inventory acc,
              (length (filter (λ p, sender_of p = Some node_id) inventory)
               + acc)%nat)
           0%nat (node_inventories w).

(** The history of a packet names nodes of a registry of [L] nodes. *)
Definition valid_hops (L : nat) (p : MessagePacket) : Prop :=
  Forall (λ h, 1 <= h <= Z.of_nat L) (history p).

(** The shape main.py gives the world at start-up and keeps: [L] nodes,
    node [i] at position [i - 1] of the registry, an inventory for each
    of them, and histories that name nodes of the registry. *)
Definition well_formed_at (L : nat) (w : World) : Prop :=
  length (NODES w) = L ∧
  (∀ i n, NODES w !! i = Some n → id n = Z.of_nat i + 1) ∧
  (∀ k, 1 <= k <= Z.of_nat L → is_Some (node_inventories w !! k)) ∧
  all_packets (valid_hops L) w.

Definition well_formed (w : World) : Prop :=
  well_formed_at (length (NODES w)) w.

(** The buffered copies go to nodes of the registry. *)
Definition buffer_ok (L : nat) (buf : list (Z * MessagePacket)) : Prop :=
  Forall (λ e, 1 <= e.1 <= Z.of_nat L ∧ valid_hops L e.2) buf.

(** The digest a publication obtains is that of no stored packet. *)
Definition fresh_message (penv : PublishEnv) (w : World) : Prop :=
  all_packets (λ p, original_message_id p ≠ publish_message_id penv) w.

(** The worlds that start-up, ticks, accepted publications and link
    requests produce. *)
Inductive reachable (calculate_distance : Q → Q → Q → Q → Q) : World → Prop :=
| reach_start positions :
    length positions = 10%nat →
    reachable calculate_distance (initial_world positions)
| reach_tick env w w' :
    reachable calculate_distance w →
    simulation_tick calculate_distance env w = Some w' →
    reachable calculate_distance w'
| reach_publish penv request w w' :
    reachable calculate_distance w →
    fresh_message penv w →
    publish_message penv request w = Some (published w') →
    reachable calculate_distance w'
| reach_connect node_a node_b w :
    reachable calculate_distance w →
    reachable calculate_distance (add_connection node_a node_b w).

(** The destination of a buffered copy holds a packet of its identity. *)
Definition stored (e : Z * MessagePacket) (w : World) : Prop :=
  ∃ inventory q,
    node_inventories w !! e.1 = Some inventory ∧ q ∈ inventory ∧
    identity q = identity e.2.

(** The first node of the registry, the first sender of a tick. *)
Definition first_sender (w : World) : nat * NodeRuntime :=
  (0%nat, default (new_node 1 0 0) (head (NODES w))).

(** ** Runs of wallet operations *)

(** The two operations main.py and the tick apply to a wallet. *)
Inductive WalletOp :=
| op_add (amount : Z)
| op_spend (amount : Z).

Definition apply_wallet_op (w : Wallet) (op : WalletOp) : Wallet :=
  match op with
  | op_add amount => add_credits amount w
  | op_spend amount => (spend_credits amount w).2
  end.

Definition wallet_run (ops : list WalletOp) (w : Wallet) : Wallet :=
  foldl apply_wallet_op w ops.

(** ** Further predicates on worlds *)

(** The fields of a node that only configuration requests write. *)
Definition static_fields (n : NodeRuntime) : Z * Q * Q * Z * bool :=
  (id n, latitude n, longitude n, range n, auto_relay n).

(** The route a packet stored at [holder] shows: no node twice, the
    publisher first, the holder last. *)
Definition route_ok (holder : Z) (p : MessagePacket) : Prop :=
  NoDup (history p) ∧
  head (history p) = Some (publisher_id p) ∧
  last (history p) = Some holder.

Definition routes_ok (w : World) : Prop :=
  map_Forall (λ holder inventory, Forall (route_ok holder) inventory)
             (node_inventories w).

(** Everything of a packet but its packet id and its history. *)
Definition content (p : MessagePacket) :=
  (original_message_id p, publisher_id p, target_ids p, message_text p,
   created_at p, message_type p, network_type p, signature p, proof p,
   is_encrypted p, ciphertext p, nonce p).

(** [p'] carries the content of a packet stored in [w] and continues its
    history. *)
Definition descends_from (w : World) (p' : MessagePacket) : Prop :=
  ∃ holder inventory p,
    node_inventories w !! holder = Some inventory ∧ p ∈ inventory ∧
    content p = content p' ∧ history p `prefix_of` history p'.

(** What a tick may do to a node: its configuration stays, its wallet
    only earns, its tracker only counts further forwards and its set of
    known messages only gains. *)
Definition node_grows (n n' : NodeRuntime) : Prop :=
  static_fields n' = static_fields n ∧
  balance (wallet n) <= balance (wallet n') ∧
  total_earned (wallet n) <= total_earned (wallet n') ∧
  total_spent (wallet n') = total_spent (wallet n) ∧
  total_sent (reputation n) <= total_sent (reputation n') ∧
  known_messages n ⊆ known_messages n'.

#[global] Instance node_grows_preorder : PreOrder node_grows.
Proof.
  split.
  - intros n. unfold node_grows. repeat split; (done || lia).
  - intros n1 n2 n3 (Hs & Hb & He & Hp & Ht & Hk) (Hs' & Hb' & He' & Hp' & Ht' & Hk').
    unfold node_grows. repeat split; try (congruence || lia).
    by etrans.
Qed.

(** No cooperating node of the registry is in contact with a node whose
    id is [k]. *)
Definition isolated (calculate_distance : Q → Q → Q → Q → Q) (w : World)
    (k : Z) : Prop :=
  Forall (λ node_a,
            Forall (λ node_b,
                      id node_b = k → id node_a ≠ k →
                      auto_relay node_a = true →
                      in_contact calculate_distance w node_a node_b = false)
                   (NODES w))
         (NODES w).

(** Every node of the registry with id [k] has cooperation switched
    off. *)
Definition selfish (w : World) (k : Z) : Prop :=
  Forall (λ n, id n = k → auto_relay n = false) (NODES w).

(** The copies delivered by node [k] that [w] stores were stored in [w0],
    in the same inventory. *)
Definition kept_from (w0 : World) (k : Z) (w : World) : Prop :=
  ∀ holder inventory' p,
    node_inventories w !! holder = Some inventory' → p ∈ inventory' →
    sender_of p = Some k →
    ∃ inventory, node_inventories w0 !! holder = Some inventory ∧ p ∈ inventory.

(** ** Publication *)

(** [send_cost] of [publish_message]. *)
Definition send_cost_of (ty : MessageType) : Z :=
  if decide (ty = Safe) then SAFETY_SEND_COST else LOGISTICS_SEND_COST.

(** ** main.py: remove_connection *)

(** [DELETE /connections]; a request for a link that is not there (404)
    leaves the world as it is. *)
Definition remove_connection (node_a node_b : Z) (w : World) : World :=
  let a := Z.min node_a node_b in
  let b := Z.max node_a node_b in
  if bool_decide ((a, b) ∈ CONNECTIONS w)
  then mkWorld (NODES w) (node_inventories w) (CONNECTIONS w ∖ {[ (a, b) ]})
               (global_economy w) (CRDSA_ENABLED w)
  else w.

(** The range test of the contact rule alone. *)
Definition in_range (calculate_distance : Q → Q → Q → Q → Q)
    (node_a node_b : NodeRuntime) : bool :=
  Qle_bool (calculate_distance (latitude node_a) (longitude node_a)
                               (latitude node_b) (longitude node_b))
           (inject_Z (range node_a)).

(** ** crypto_utils.py and main.py: the proof of a Safe message *)

Definition simulate_zkp_proof : string := "SIMULATED_ZKP_V1_VALID".

Definition verify_zkp_proof (proof : string) : bool :=
  bool_decide (proof = "SIMULATED_ZKP_V1_VALID"%string).

(** The answer of [verify_zkp_message] once the packet of the message is
    found: 400 for a packet that is not Safe or has no proof ([None] and
    the empty string are both false in Python), else the verdict. *)
Inductive VerifyResult :=
| verify_rejected (status : Z)
| verified (proof_valid : bool).

Definition zkp_verdict (packet : MessagePacket) : VerifyResult :=
  if decide (message_type packet = Safe)
  then match proof packet with
       | Some pr =>
           if decide (pr = ""%string) then verify_rejected 400
           else verified (verify_zkp_proof pr)
       | None => verify_rejected 400
       end
  else verify_rejected 400.

(** What the validators of the request and the branches of
    [publish_message] give a packet, and copying keeps. *)
Definition packet_sound (p : MessagePacket) : Prop :=
  (network_type p = LoRa ↔ message_type p = Safe) ∧
  (is_Some (proof p) ↔ message_type p = Safe) ∧
  (is_Some (signature p) ↔ message_type p = Help) ∧
  (is_encrypted p = true ↔ message_type p = Logistics) ∧
  ciphertext p = None ∧ nonce p = None ∧
  (0 < String.length (message_text p) ≤ 1000)%nat ∧
  (0 < length (target_ids p) ≤ 10)%nat ∧
  Forall (λ t, 1 <= t <= NUM_NODES) (target_ids p) ∧
  1 <= publisher_id p <= NUM_NODES ∧
  (message_type p = Safe → zkp_verdict p = verified true).

(** ** economy.py: calculate_nakamoto_coefficient *)

(** [sum(balances)] *)
Definition total_of (balances : list Z) : Z := foldr Z.add 0 balances.

Definition holdings (wallets : list Wallet) : Z := total_of (balance <$> wallets).

(** The loop over the balances in descending order; [i] is the index of
    the next balance.  The balances of the engine are integers, for
    which the test [cumulative > total * 0.5] is [total < 2 * cumulative].
    [None]: the loop ends without returning. *)
Fixpoint nakamoto_scan (total cumulative : Z) (i : nat) (balances : list Z)
  : option nat :=
  match balances with
  | [] => None
  | balance :: rest =>
      let cumulative := cumulative + balance in
      if total <? 2 * cumulative then Some (S i)
      else nakamoto_scan total cumulative (S i) rest
  end.

Definition calculate_nakamoto_coefficient (wallets : list Wallet) : nat :=
  match wallets with
  | [] => 0%nat
  | _ =>
      let balances := merge_sort (flip Z.le) (balance <$> wallets) in
      let total := total_of balances in
      if total =? 0 then length wallets
      else default (length wallets) (nakamoto_scan total 0 0 balances)
  end.

#[global] Instance flip_le_total : Total (flip Z.le).
Proof. intros x y. unfold flip. lia. Qed.

(** ** economy.py: _assess_health *)

Inductive Health := HEALTHY | WARNING | CRITICAL.

(** [gini] is the figure [calculate_gini_coefficient] returned. *)
Definition _assess_health (gini : Q) (nakamoto : nat) : Health :=
  if negb (Qle_bool gini (8 # 10)) || (nakamoto <? 3)%nat then CRITICAL
  else if negb (Qle_bool gini (6 # 10)) || (nakamoto <? 5)%nat then WARNING
  else HEALTHY.

(** [group] is made of wallets of the list and holds more than half of
    all the credits. *)
Definition majority_of (wallets group : list Wallet) : Prop :=
  group ⊆+ wallets ∧ holdings wallets < 2 * holdings group.

(** ** Slots of the contention resolver *)

(** The number of slots that hold a packet. *)
Definition occupied (slots : list (list MessagePacket)) : nat :=
  length (filter (λ slot_packets, slot_packets ≠ []) slots).

(** Every copy in a slot sits where [packet_to_slots] records the slots
    of its packet. *)
Definition slots_consistent (slots : list (list MessagePacket))
    (packet_to_slots : gmap string (list nat)) : Prop :=
  ∀ slot_idx slot_packets p,
    slots !! slot_idx = Some slot_packets → p ∈ slot_packets →
    slot_idx ∈ default [] (packet_to_slots !! packet_id p).

(** [pid] is resolved or alone in some slot. *)
Definition resolvable (st : SicState) (pid : string) : Prop :=
  pid ∈ resolved_packets st ∨
  ∃ slot_idx p, sic_slots st !! slot_idx = Some [p] ∧ packet_id p = pid.

(** The resolved packets have each emptied a slot of their own. *)
Definition sic_ok (packet_to_slots : gmap string (list nat)) (st : SicState)
  : Prop :=
  slots_consistent (sic_slots st) packet_to_slots ∧
  (size (resolved_packets st) + occupied (sic_slots st)
   ≤ CRDSA_SLOTS_PER_TICK)%nat.

(** ** main.py: check_message_in_bloom *)

(** The ids of the list that are not in [known_messages] of the first
    node of the registry with the id asked for; [None] is the answer 404
    when there is no such node. *)
Definition check_message_in_bloom (node_id : Z) (message_ids : list string)
    (w : World) : option (list string) :=
  found ← list_find (λ n, id n = node_id) (NODES w);
  Some (filter (λ msg_id, msg_id ∉ known_messages found.2) message_ids).

(** Node [k], at position [k - 1] of the registry, knows the message of
    every packet it stores. *)
Definition knows (w : World) : Prop :=
  ∀ k inventory n p,
    node_inventories w !! k = Some inventory →
    NODES w !! Z.to_nat (k - 1) = Some n →
    p ∈ inventory → original_message_id p ∈ known_messages n.

(** ** mvp1-mock/backend/main.py: the first version of the tick *)

Module Mock.

Record Node := mkNode {
  id : Z;
  name : string;
  latitude : Q;
  longitude : Q;
  location_name : string;
  range : Z
}.

Record MessagePacket := mkPacket {
  packet_id : string;
  original_message_id : string;
  publisher_id : Z;
  target_ids : list Z;
  message_text : string;
  history : list Z
}.

Record World := mkWorld {
  NODES : list Node;
  node_inventories : gmap Z (list MessagePacket);
  CONNECTIONS : gset (Z * Z)
}.

Definition copy_for (new_id : string) (node_b_id : Z) (packet : MessagePacket)
  : MessagePacket :=
  mkPacket new_id (original_message_id packet) (publisher_id packet)
           (target_ids packet) (message_text packet)
           (history packet ++ [node_b_id]).

Section Engine.

Variable calculate_distance : Q → Q → Q → Q → Q.

(** [uuid.uuid4], by the number of copies made so far in the tick. *)
Variable uuid4 : nat → string.

Definition in_contact (w : World) (node_a node_b : Node) : bool :=
  Qle_bool (calculate_distance (latitude node_a) (longitude node_a)
                               (latitude node_b) (longitude node_b))
           (inject_Z (range node_a))
  || bool_decide ((Z.min (id node_a) (id node_b), Z.max (id node_a) (id node_b))
                  ∈ CONNECTIONS w).

(** The body of [for packet in node_inventories[node_a.id]]. *)
Definition relay_packet (node_b_id : Z) (new_packets : list (Z * MessagePacket))
    (packet : MessagePacket) : list (Z * MessagePacket) :=
  if bool_decide (node_b_id ∈ history packet) then new_packets
  else new_packets
       ++ [(node_b_id, copy_for (uuid4 (length new_packets)) node_b_id packet)].

(** The body of [for node_b in NODES]. *)
Definition visit_neighbour (w : World) (node_a : Node)
    (new_packets : list (Z * MessagePacket)) (node_b : Node)
  : option (list (Z * MessagePacket)) :=
  if decide (id node_a = id node_b) then Some new_packets
  else if in_contact w node_a node_b
       then packets ← node_inventories w !! id node_a;
            Some (foldl (relay_packet (id node_b)) new_packets packets)
       else Some new_packets.

(** The body of [for node_a in NODES]. *)
Definition share_from (w : World) (new_packets : list (Z * MessagePacket))
    (node_a : Node) : option (list (Z * MessagePacket)) :=
  for_each (visit_neighbour w node_a) new_packets (NODES w).

Definition same_identity (packet p : MessagePacket) : bool :=
  bool_decide (original_message_id p = original_message_id packet)
  && bool_decide (history p = history packet).

(** The body of [for node_id, packet in new_packets]. *)
Definition commit_packet (inventories : gmap Z (list MessagePacket))
    (entry : Z * MessagePacket) : option (gmap Z (list MessagePacket)) :=
  inventory ← inventories !! entry.1;
  if existsb (same_identity entry.2) inventory then Some inventories
  else Some (<[entry.1 := inventory ++ [entry.2]]> inventories).

(** The tick: every node shares with its neighbours, then all the new
    packets are stored. *)
Definition simulation_tick (w : World) : option World :=
  new_packets ← for_each (share_from w) [] (NODES w);
  inventories ← for_each commit_packet (node_inventories w) new_packets;
  Some (mkWorld (NODES w) inventories (CONNECTIONS w)).

End Engine.

(** [e] is a copy, for a node not yet visited, of a packet stored
    in [w]. *)
Definition one_hop_from (w : World) (e : Z * MessagePacket) : Prop :=
  ∃ holder inventory p u,
    node_inventories w !! holder = Some inventory ∧ p ∈ inventory ∧
    (e.1 ∉ history p) ∧ e.2 = copy_for u e.1 p.

(** The deduplication identity of a packet. *)
Definition identity (p : MessagePacket) : string * list Z :=
  (original_message_id p, history p).

(** No inventory holds two packets of one identity, and no stored
    history names a node twice. *)
Definition clean (inventories : gmap Z (list MessagePacket)) : Prop :=
  map_Forall (λ _ inventory,
                NoDup (identity <$> inventory)
                ∧ Forall (λ p, NoDup (history p)) inventory)
             inventories.

End Mock.

(** ** main.py: update_node_auto_relay *)

(** [PUT /node/{node_id}/auto_relay]; a request for an unknown node
    (404) leaves the world as it is. *)
Definition update_node_auto_relay (node_id : Z) (flag : bool) (w : World)
  : option World :=
  if valid_node_id node_id
  then idx ← py_index (length (NODES w)) (node_id - 1);
       Some (set_nodes
               (alter (λ n, mkNode (id n) (latitude n) (longitude n) (range n)
                                   flag (wallet n) (reputation n)
                                   (known_messages n))
                      idx (NODES w)) w)
  else Some w.

(** ** Further scenarios *)

(** The line 1 - 2 - 3 - 4 with the message at node 1 and node 2
    switched off. *)
Definition line_world_selfish : World :=
  default line_world_safe (update_node_auto_relay 2 false line_world_safe).

(** Seven copies of one packet, with packet ids of their own. *)
Definition contending_packets : list MessagePacket :=
  (λ i, copy_for (pretty i) 2
          (initial_packet (publish_env 1000 "m1")
                          (mkRequest 1 "all clear" all_targets Safe)))
    <$> seqZ 1 7.

Definition sample_wallets : list Wallet :=
  [new_wallet 1 10; new_wallet 2 40; new_wallet 3 20; new_wallet 4 30].

(** Two linked nodes of the first version, a message at node 1. *)
Definition mock_pair : Mock.World :=
  Mock.mkWorld
    [Mock.mkNode 1 "Node 1" 41 (-71) "Providence, RI" 5;
     Mock.mkNode 2 "Node 2" 42 (-71) "Newport, RI" 5]
    {[ 1 := [Mock.mkPacket "p-m1" "m1" 1 [2] "hello" [1]]; 2 := [] ]}
    {[ (1, 2) ]}.

(** * Properties *)

(** ** Wallet *)

(** C7. [spend_credits] with a non-positive amount succeeds and changes
    nothing; with a positive amount it succeeds exactly when the balance
    covers the amount, and then deducts exactly the amount; a failed spend
    changes nothing; a non-negative balance stays non-negative. *)
Theorem spend_credits_spec (w : Wallet) (amount : Z) :
  (amount <= 0 → spend_credits amount w = (true, w)) ∧
  (0 < amount →
     ((spend_credits amount w).1 = true ↔ amount <= balance w) ∧
     (amount <= balance w →
        balance (spend_credits amount w).2 = balance w - amount) ∧
     (balance w < amount → spend_credits amount w = (false, w))) ∧
  (0 <= balance w → 0 <= balance (spend_credits amount w).2).
Proof.
  unfold spend_credits.
  destruct (Z.leb_spec amount 0) as [Hle|Hpos];
    [|destruct (Z.leb_spec amount (balance w)) as [Hok|Hlow]]; simpl.
  - repeat split; intros; try lia; done.
  - repeat split; intros; try lia; done.
  - repeat split; intros; try lia; try done.
Qed.

Lemma spend_credits_spec_witness :
  balance (spend_credits 2 (new_wallet 1 100)).2 = 98 ∧
  spend_credits 0 (new_wallet 1 100) = (true, new_wallet 1 100) ∧
  0 <= balance (spend_credits 200 (new_wallet 1 100)).2.
Proof.
  pose proof (spend_credits_spec (new_wallet 1 100) 2) as (_ & H2 & _).
  pose proof (spend_credits_spec (new_wallet 1 100) 0) as (H0 & _ & _).
  pose proof (spend_credits_spec (new_wallet 1 100) 200) as (_ & _ & H200).
  split; [|split].
  - destruct H2 as (_ & Hd & _); [lia|]. apply Hd. simpl. lia.
  - apply H0. lia.
  - apply H200. simpl. lia.
Defined.

(** ** Reputation tracker *)

Lemma stats_or_new_nonneg rm peer :
  counters_nonneg rm →
  0 <= sent (stats_or_new rm peer) ∧ 0 <= relayed (stats_or_new rm peer).
Proof.
  intros Hrm. unfold stats_or_new.
  destruct (peer_stats rm !! peer) as [s|] eqn:E; simpl; [eauto | lia].
Qed.

Lemma reachable_counters_nonneg rm :
  reputation_reachable rm → counters_nonneg rm.
Proof.
  induction 1 as [n | peer rm _ IH | peer rm _ IH]; intros q s; simpl.
  - rewrite lookup_empty. discriminate.
  - destruct (stats_or_new_nonneg rm peer IH) as [Hs Hr].
    destruct (decide (peer = q)) as [->|Hne].
    + rewrite lookup_insert_eq. intros [= <-]. simpl. lia.
    + rewrite lookup_insert_ne by done. apply IH.
  - destruct (stats_or_new_nonneg rm peer IH) as [Hs Hr].
    destruct (decide (peer = q)) as [->|Hne].
    + rewrite lookup_insert_eq. intros [= <-]. simpl. lia.
    + rewrite lookup_insert_ne by done. apply IH.
Qed.

Lemma ratio_nonneg (r s : Z) :
  0 <= r → 0 < s → (0 <= inject_Z r / inject_Z s)%Q.
Proof.
  intros Hr Hs. apply Qle_shift_div_l.
  - change 0%Q with (inject_Z 0). rewrite <- Zlt_Qlt. lia.
  - rewrite Qmult_0_l. change 0%Q with (inject_Z 0). rewrite <- Zle_Qle. lia.
Qed.

(** C9. The score is exactly 1 for a peer never observed and for a peer
    with [sent = 0]; otherwise it is [min(1, relayed / sent)]; in every
    tracker built by the two recorders it lies between 0 and 1. *)
Theorem get_reputation_score_spec (rm : ReputationManager) (peer_id : Z) :
  (peer_stats rm !! peer_id = None → get_reputation_score rm peer_id = 1%Q) ∧
  (∀ s, peer_stats rm !! peer_id = Some s → sent s = 0 →
        get_reputation_score rm peer_id = 1%Q) ∧
  (∀ s, peer_stats rm !! peer_id = Some s → sent s ≠ 0 →
        get_reputation_score rm peer_id
        = Qmin 1%Q (inject_Z (relayed s) / inject_Z (sent s))%Q) ∧
  (reputation_reachable rm →
     (0 <= get_reputation_score rm peer_id)%Q ∧
     (get_reputation_score rm peer_id <= 1)%Q).
Proof.
  unfold get_reputation_score. repeat split.
  - intros ->. reflexivity.
  - intros s -> ->. reflexivity.
  - intros s -> Hs. destruct (Z.eqb_spec (sent s) 0); [contradiction|reflexivity].
  - destruct (peer_stats rm !! peer_id) as [s|] eqn:E; [|lra].
    destruct (Z.eqb_spec (sent s) 0) as [|Hs]; [lra|].
    destruct (reachable_counters_nonneg rm H peer_id s E) as [Hsent Hrel].
    apply Q.min_glb; [lra|]. apply ratio_nonneg; lia.
  - destruct (peer_stats rm !! peer_id) as [s|] eqn:E; [|lra].
    destruct (Z.eqb_spec (sent s) 0) as [|Hs]; [lra|].
    apply Q.le_min_l.
Qed.

Lemma get_reputation_score_spec_witness :
  let rm := record_successful_relay_by_peer 7
              (record_packet_sent_to_peer 7
                 (record_packet_sent_to_peer 7 (new_reputation 1))) in
  get_reputation_score rm 3 = 1%Q ∧
  get_reputation_score rm 7 = Qmin 1%Q (inject_Z 1 / inject_Z 2)%Q ∧
  (0 <= get_reputation_score rm 7)%Q ∧ (get_reputation_score rm 7 <= 1)%Q.
Proof.
  intros rm.
  pose proof (get_reputation_score_spec rm 3) as (Hnone & _).
  pose proof (get_reputation_score_spec rm 7) as (_ & _ & Hsome & Hrange).
  split; [|split].
  - apply Hnone. reflexivity.
  - apply (Hsome (mkPeerStats 2 1)); [reflexivity | simpl; lia].
  - apply Hrange. unfold rm. repeat constructor.
Defined.

(** ** Contention resolver *)

Lemma cancel_packet_resolved pts st pid :
  pid ∈ resolved_packets (cancel_packet pts st pid) ∧
  resolved_packets st ⊆ resolved_packets (cancel_packet pts st pid).
Proof. simpl. set_solver. Qed.

Lemma cancel_all_resolved pts newly : ∀ st,
  resolved_packets st ⊆ resolved_packets (foldl (cancel_packet pts) st newly) ∧
  ∀ pid, pid ∈ newly →
         pid ∈ resolved_packets (foldl (cancel_packet pts) st newly).
Proof.
  induction newly as [|x newly IH]; intros st; simpl.
  - split; [done|]. intros pid Hin. by apply elem_of_nil in Hin.
  - destruct (IH (cancel_packet pts st x)) as [Hmono Hall].
    destruct (cancel_packet_resolved pts st x) as [Hx Hsub].
    split; [by etrans|].
    intros pid [->|Hin]%elem_of_cons; [by apply Hmono | by apply Hall].
Qed.

Lemma sic_iterations_mono n pts : ∀ st,
  resolved_packets st ⊆ resolved_packets (sic_iterations n pts st).
Proof.
  induction n as [|n IH]; intros st; simpl; [done|].
  destruct (decide (unresolved_packets st = ∅)); [done|].
  destruct (find_singletons (sic_slots st) (unresolved_packets st))
    as [|x newly] eqn:E; [done|].
  etrans; [|apply IH].
  apply (cancel_all_resolved pts (x :: newly) st).
Qed.

Lemma find_singletons_spec slots unresolved idx p :
  slots !! idx = Some [p] → packet_id p ∈ unresolved →
  packet_id p ∈ find_singletons slots unresolved.
Proof.
  intros Hslot Hin. unfold find_singletons.
  apply list_elem_of_In, in_flat_map. exists [p]. split.
  - apply list_elem_of_In. by eapply list_elem_of_lookup_2.
  - rewrite bool_decide_true by done. by left.
Qed.

(** A singleton slot makes the first SIC iteration resolve its packet. *)
Lemma sic_resolves_singleton n pts st idx p :
  sic_slots st !! idx = Some [p] → packet_id p ∈ unresolved_packets st →
  packet_id p ∈ resolved_packets (sic_iterations (S n) pts st).
Proof.
  intros Hslot Hin. simpl.
  destruct (decide (unresolved_packets st = ∅)) as [He|_]; [set_solver|].
  pose proof (find_singletons_spec _ _ _ _ Hslot Hin) as Hfound.
  destruct (find_singletons (sic_slots st) (unresolved_packets st))
    as [|x newly] eqn:E; [by apply elem_of_nil in Hfound|].
  apply sic_iterations_mono.
  by apply (cancel_all_resolved pts (x :: newly) st).
Qed.

Lemma lone_packet_slot (p : MessagePacket) (s : list nat) :
  valid_sample s →
  ∃ idx, add_to_slots p s (replicate CRDSA_SLOTS_PER_TICK []) !! idx = Some [p].
Proof.
  intros (Hlen & Hnd & Hlt).
  destruct s as [|i [|j [|? ?]]]; try discriminate Hlen.
  exists i. unfold add_to_slots. cbn [foldl].
  assert (i ≠ j) as Hij.
  { apply NoDup_cons in Hnd as [Hni _]. intros ->. apply Hni. by left. }
  assert (i < CRDSA_SLOTS_PER_TICK)%nat as Hi by (apply Hlt; by left).
  rewrite list_lookup_alter_ne by done.
  rewrite list_lookup_alter_eq.
  by rewrite lookup_replicate_2.
Qed.

Lemma crdsa_resolve_lone (draw : nat → list nat) (p : MessagePacket) :
  valid_sample (draw 0%nat) → crdsa_resolve draw [p] = [p].
Proof.
  intros Hvalid. unfold crdsa_resolve. simpl assign_replicas. cbv iota beta.
  destruct (lone_packet_slot p (draw 0%nat) Hvalid) as [idx Hidx].
  rewrite filter_cons_True; [done|].
  apply (sic_resolves_singleton _ _ _ idx p); simpl; [done|].
  rewrite insert_empty, dom_singleton_L. set_solver.
Qed.

(** C8. With CRDSA enabled, a node whose inventory holds exactly one
    packet keeps it, whatever pair of slots is drawn for it. *)
Theorem crdsa_lone_packet_resolved
    (draws : Z → nat → list nat) (inventories : gmap Z (list MessagePacket))
    (node_id : Z) (p : MessagePacket) :
  valid_sample (draws node_id 0%nat) →
  inventories !! node_id = Some [p] →
  apply_crdsa_collision_simulation true draws inventories !! node_id = Some [p].
Proof.
  intros Hvalid Hinv. unfold apply_crdsa_collision_simulation.
  rewrite map_lookup_imap, Hinv.
  change (Some (crdsa_resolve (draws node_id) [p]) = Some [p]).
  by rewrite crdsa_resolve_lone.
Qed.

Lemma crdsa_lone_packet_resolved_witness :
  let p := initial_packet (publish_env 1000 "m1")
             (mkRequest 1 "all clear" all_targets Safe) in
  apply_crdsa_collision_simulation true (λ _ _, [3; 1]%nat) {[ 1 := [p] ]} !! 1
  = Some [p].
Proof.
  intros p. apply crdsa_lone_packet_resolved.
  - split; [reflexivity|]. split.
    + apply NoDup_cons. split; [|apply NoDup_singleton].
      intros Hin%list_elem_of_singleton. discriminate.
    + intros i Hin. unfold CRDSA_SLOTS_PER_TICK.
      apply elem_of_cons in Hin as [->|Hin]; [lia|].
      apply list_elem_of_singleton in Hin as ->. lia.
  - apply lookup_singleton_eq.
Defined.

(** ** Loops *)

(** Invariant rule of [for_each]. *)
Lemma for_each_ind {S A} (I : S → Prop) (body : S → A → option S) (l : list A) :
  ∀ s s',
    for_each body s l = Some s' → I s →
    (∀ s1 x s2, x ∈ l → I s1 → body s1 x = Some s2 → I s2) → I s'.
Proof.
  induction l as [|x l IH]; intros s s' Hrun Hs Hstep; simpl in Hrun.
  - by simplify_eq.
  - destruct (body s x) as [s1|] eqn:E; simpl in Hrun; [|done].
    apply (IH s1 s' Hrun).
    + apply (Hstep s x); [by left|done..].
    + intros s2 y s3 Hy. apply Hstep. by right.
Qed.

Lemma enumerate_lookup {A} (l : list A) i x :
  (i, x) ∈ enumerate l → l !! i = Some x.
Proof.
  unfold enumerate. intros Hin.
  apply list_elem_of_lookup_1 in Hin as [k Hk].
  apply lookup_zip_with_Some in Hk as (i' & x' & Heq & Hseq & Hl).
  simplify_eq. apply lookup_seq in Hseq as [-> _]. done.
Qed.

(** ** What the relay step leaves alone *)

Lemma credit_previous_hop_frame a p w w' :
  credit_previous_hop a p w = Some w' →
  node_inventories w' = node_inventories w ∧
  global_economy w' = global_economy w ∧
  CONNECTIONS w' = CONNECTIONS w ∧
  length (NODES w') = length (NODES w) ∧
  ∀ i, wallet <$> NODES w' !! i = wallet <$> NODES w !! i.
Proof.
  unfold credit_previous_hop. intros H.
  destruct (1 <? length (history p))%nat; [|by simplify_eq].
  destruct (last (history p)) as [prev|]; [|by simplify_eq].
  destruct (decide (prev = publisher_id p)); [by simplify_eq|].
  destruct (py_index (length (NODES w)) (prev - 1)) as [idx|]; simplify_eq/=.
  repeat split; [by rewrite length_alter|].
  intros i. destruct (decide (idx = i)) as [->|Hne].
  - rewrite list_lookup_alter_eq. by destruct (NODES w !! i).
  - by rewrite list_lookup_alter_ne.
Qed.

Lemma relay_packet_frame env ia a b st p st' :
  relay_packet env ia a b st p = Some st' →
  node_inventories st'.1 = node_inventories st.1 ∧
  CONNECTIONS st'.1 = CONNECTIONS st.1 ∧
  length (NODES st'.1) = length (NODES st.1).
Proof.
  unfold relay_packet. intros H.
  destruct (bool_decide (b ∈ history p)); [by simplify_eq|].
  destruct (relay_terms p) as [reward ty].
  destruct (credit_previous_hop _ _ _) as [w3|] eqn:E; simplify_eq/=.
  apply credit_previous_hop_frame in E as (Hinv & _ & Hc & Hlen & _).
  simpl in *. rewrite length_alter, Hlen, length_alter. done.
Qed.

(** What the relay step appends to the buffer: nothing, or one copy of
    the packet. *)
Lemma relay_packet_buffer env ia a b st p st' :
  relay_packet env ia a b st p = Some st' →
  st'.2 = st.2 ∨ ∃ u, st'.2 = st.2 ++ [(b, copy_for u b p)].
Proof.
  unfold relay_packet. intros H.
  destruct (bool_decide (b ∈ history p)); [left; by simplify_eq|].
  destruct (relay_terms p) as [reward ty].
  destruct (credit_previous_hop _ _ _) as [w3|] eqn:E; simplify_eq/=.
  right. eauto.
Qed.

(** ** The locked phase only removes packets *)

Lemma cleanup_inventory_sublist now inventory :
  cleanup_inventory now inventory `sublist_of` inventory.
Proof.
  unfold cleanup_inventory.
  destruct (_ <? _)%nat.
  - etrans; [apply sublist_drop | apply sublist_filter].
  - apply sublist_filter.
Qed.

Lemma cleanup_inventory_ttl now inventory :
  Forall (λ p, within_ttl now p) (cleanup_inventory now inventory).
Proof.
  apply Forall_forall. intros p Hin. unfold cleanup_inventory in Hin.
  assert (p ∈ filter (λ p, within_ttl now p) inventory) as Hf.
  { destruct (_ <? _)%nat; [|done].
    eapply elem_of_sublist; [done | apply sublist_drop]. }
  by apply list_elem_of_filter in Hf as [? _].
Qed.

Lemma cleanup_inventory_length now inventory :
  (length (cleanup_inventory now inventory) ≤ MAX_INVENTORY_SIZE)%nat.
Proof.
  unfold cleanup_inventory.
  destruct (Nat.ltb_spec MAX_INVENTORY_SIZE
              (length (filter (λ p, within_ttl now p) inventory))).
  - rewrite length_drop. lia.
  - lia.
Qed.

Lemma crdsa_resolve_sublist draw packets :
  crdsa_resolve draw packets `sublist_of` packets.
Proof.
  unfold crdsa_resolve. destruct packets as [|p packets]; [done|].
  destruct (assign_replicas _ _ _ _) as [slots pts]. apply sublist_filter.
Qed.

Lemma locked_inventory_sublist env enabled node_id inventory :
  locked_inventory env enabled node_id inventory `sublist_of` inventory.
Proof.
  unfold locked_inventory. destruct enabled.
  - etrans; [apply crdsa_resolve_sublist | apply cleanup_inventory_sublist].
  - apply cleanup_inventory_sublist.
Qed.

Lemma locked_inventory_cleaned env enabled node_id inventory :
  locked_inventory env enabled node_id inventory
  `sublist_of` cleanup_inventory (current_time env) inventory.
Proof.
  unfold locked_inventory. destruct enabled; [apply crdsa_resolve_sublist|done].
Qed.

Lemma ubi_distribution_frame w :
  node_inventories (ubi_distribution w) = node_inventories w ∧
  global_economy (ubi_distribution w) = global_economy w ∧
  CRDSA_ENABLED (ubi_distribution w) = CRDSA_ENABLED w ∧
  length (NODES (ubi_distribution w)) = length (NODES w).
Proof.
  unfold ubi_distribution. destruct (_ =? _); simpl; [|done].
  by rewrite length_fmap.
Qed.

Lemma locked_phase_lookup env w node_id :
  node_inventories (locked_phase env w) !! node_id
  = locked_inventory env (CRDSA_ENABLED w) node_id <$> node_inventories w !! node_id.
Proof.
  unfold locked_phase, locked_inventory, apply_crdsa_collision_simulation.
  cbn [node_inventories set_inventories CRDSA_ENABLED].
  destruct (ubi_distribution_frame
              (set_economy (increment_tick (global_economy w)) w))
    as (-> & _ & -> & _). simpl.
  destruct (CRDSA_ENABLED w).
  - rewrite map_lookup_imap, lookup_fmap.
    by destruct (node_inventories w !! node_id).
  - by rewrite lookup_fmap.
Qed.

Lemma all_packets_lookup Φ w node_id inventory p :
  all_packets Φ w → node_inventories w !! node_id = Some inventory →
  p ∈ inventory → Φ p.
Proof.
  intros Hall Hinv Hin.
  pose proof (map_Forall_lookup_1 _ _ _ _ Hall Hinv) as HF.
  by eapply Forall_forall in HF.
Qed.

Lemma locked_phase_all_packets Φ env w :
  all_packets Φ w → all_packets Φ (locked_phase env w).
Proof.
  intros Hall node_id inventory' Hlook.
  rewrite locked_phase_lookup in Hlook.
  destruct (node_inventories w !! node_id) as [inventory|] eqn:E; simplify_eq/=.
  apply Forall_forall. intros p Hin.
  eapply all_packets_lookup; [done..|].
  eapply elem_of_sublist; [done | apply locked_inventory_sublist].
Qed.

Lemma locked_phase_ttl env w :
  all_packets (λ p, within_ttl (current_time env) p) (locked_phase env w).
Proof.
  intros node_id inventory' Hlook.
  rewrite locked_phase_lookup in Hlook.
  destruct (node_inventories w !! node_id) as [inventory|] eqn:E; simplify_eq/=.
  apply Forall_forall. intros p Hin.
  pose proof (cleanup_inventory_ttl (current_time env) inventory) as HF.
  eapply Forall_forall in HF; [done|].
  eapply elem_of_sublist; [done | apply locked_inventory_cleaned].
Qed.

(** ** Packet properties carried by the flooding phase *)

Section PacketInvariant.

Variable calculate_distance : Q → Q → Q → Q → Q.
Variable Φ : MessagePacket → Prop.
Hypothesis Φ_copy : ∀ u b p, Φ p → Φ (copy_for u b p).

Lemma relay_packet_all env ia a b st p st' :
  relay_packet env ia a b st p = Some st' →
  Φ p → flood_all Φ st → flood_all Φ st'.
Proof.
  intros Hrun Hp [Hinv Hbuf].
  destruct (relay_packet_frame _ _ _ _ _ _ _ Hrun) as (Heq & _ & _).
  split.
  - unfold all_packets. by rewrite Heq.
  - destruct (relay_packet_buffer _ _ _ _ _ _ _ Hrun) as [->|[u ->]]; [done|].
    apply Forall_app. split; [done|]. apply Forall_singleton. by apply Φ_copy.
Qed.

Lemma visit_neighbour_all env ia node_a st node_b st' :
  visit_neighbour calculate_distance env ia node_a st node_b = Some st' →
  flood_all Φ st → flood_all Φ st'.
Proof.
  unfold visit_neighbour. intros Hrun Hst.
  destruct (decide (id node_a = id node_b)); [by simplify_eq|].
  destruct (in_contact _ _ _ _); [|by simplify_eq].
  destruct (auto_relay node_a); [|by simplify_eq].
  destruct (node_inventories st.1 !! id node_a) as [packets|] eqn:E;
    simpl in Hrun; [|done].
  apply (for_each_ind (flood_all Φ) _ _ _ _ Hrun Hst).
  intros s1 p s2 Hin Hs1 Hstep.
  apply (relay_packet_all _ _ _ _ _ _ _ Hstep); [|done].
  destruct Hst as [Hinv _]. by eapply all_packets_lookup.
Qed.

Lemma commit_packet_all w entry w' :
  commit_packet w entry = Some w' →
  Φ entry.2 → all_packets Φ w → all_packets Φ w'.
Proof.
  unfold commit_packet. intros Hrun Hp Hall.
  destruct (node_inventories w !! entry.1) as [inventory|] eqn:E;
    simpl in Hrun; [|done].
  destruct (existsb _ _); [by simplify_eq|].
  destruct (py_index _ _) as [idx|]; simplify_eq/=.
  unfold all_packets. simpl. apply map_Forall_insert_2; [|done].
  apply Forall_app. split; [|by apply Forall_singleton].
  by apply (map_Forall_lookup_1 _ _ _ _ Hall E).
Qed.

Lemma flood_from_all env nodes st a st' :
  flood_from calculate_distance env nodes st a = Some st' →
  flood_all Φ st → flood_all Φ st'.
Proof.
  unfold flood_from. intros Hrun Hst.
  destruct (for_each (visit_neighbour _ _ _ _) st nodes) as [st1|] eqn:E1;
    simpl in Hrun; [|done].
  destruct (for_each commit_packet st1.1 st1.2) as [w'|] eqn:E2;
    simplify_eq/=.
  assert (flood_all Φ st1) as [Hinv1 Hbuf1].
  { apply (for_each_ind (flood_all Φ) _ _ _ _ E1 Hst).
    intros s1 b s2 _ Hs1 Hstep. by eapply visit_neighbour_all. }
  split; [|done]. simpl.
  apply (for_each_ind (all_packets Φ) _ _ _ _ E2 Hinv1).
  intros w1 e w2 Hin Hw1 Hstep.
  apply (commit_packet_all _ _ _ Hstep); [|done].
  by eapply Forall_forall in Hbuf1.
Qed.

Lemma flood_all_packets env w st :
  flood calculate_distance env w = Some st →
  all_packets Φ w → flood_all Φ st.
Proof.
  unfold flood. intros Hrun Hall.
  apply (for_each_ind (flood_all Φ) _ _ _ _ Hrun).
  - split; [done | apply Forall_nil_2].
  - intros s1 a s2 _ Hs1 Hstep. by eapply flood_from_all.
Qed.

End PacketInvariant.

Lemma simulation_tick_all_safe calculate_distance env w w' :
  simulation_tick calculate_distance env w = Some w' →
  all_safe w → all_safe w'.
Proof.
  unfold simulation_tick. intros Hrun Hsafe.
  destruct (flood _ _ _) as [st|] eqn:E; simplify_eq/=.
  eapply flood_all_packets in E as [Hall _]; [done|done|].
  by apply locked_phase_all_packets.
Qed.

(** ** TTL *)

Lemma within_ttl_spec now p :
  within_ttl now p ↔ (now - created_at p < PACKET_TTL_SECONDS)%Q.
Proof.
  unfold within_ttl. rewrite negb_True, Is_true_true, Qle_bool_iff.
  split; [apply Qnot_le_lt | apply Qlt_not_le].
Qed.

(** C6. After a tick whose cleanup reads a clock beyond [T + TTL], no
    inventory holds a packet created at [T]: the copies made by the
    flooding of that tick carry the creation time of their source, and
    every source has passed the TTL filter.  The length of the history
    plays no part. *)
Theorem ttl_expiry calculate_distance env w w' (T : Q) :
  simulation_tick calculate_distance env w = Some w' →
  (T + PACKET_TTL_SECONDS < current_time env)%Q →
  (∀ new_id node_b_id p,
     created_at (copy_for new_id node_b_id p) = created_at p) ∧
  ∀ node_id inventory p,
    node_inventories w' !! node_id = Some inventory →
    p ∈ inventory → ¬ (created_at p == T)%Q.
Proof.
  unfold simulation_tick. intros Hrun Hlate. split; [done|].
  intros node_id inventory p Hlook Hin Hcreated.
  destruct (flood _ _ _) as [st|] eqn:E; simplify_eq/=.
  eapply (flood_all_packets _ (λ p, within_ttl (current_time env) p)) in E
    as [Hall _].
  - pose proof (all_packets_lookup _ _ _ _ _ Hall Hlook Hin) as Hp.
    apply within_ttl_spec in Hp. rewrite Hcreated in Hp. lra.
  - done.
  - apply locked_phase_ttl.
Qed.

(** ** Deduplication *)

Lemma same_identity_spec packet p :
  same_identity packet p = true ↔ identity p = identity packet.
Proof.
  unfold same_identity, identity.
  rewrite andb_true_iff, !bool_decide_eq_true. split.
  - by intros [-> ->].
  - by intros [= -> ->].
Qed.

Lemma not_existing_fresh packet inventory :
  existsb (same_identity packet) inventory = false →
  identity packet ∉ identity <$> inventory.
Proof.
  intros Hex Hin.
  apply list_elem_of_fmap in Hin as (p & Heq & Hp).
  assert (existsb (same_identity packet) inventory = true) as Ht; [|congruence].
  apply existsb_exists. exists p. split; [by apply list_elem_of_In|].
  by apply same_identity_spec.
Qed.

Lemma locked_phase_dedup env w : dedup_ok w → dedup_ok (locked_phase env w).
Proof.
  intros Hok node_id inventory' Hlook.
  rewrite locked_phase_lookup in Hlook.
  destruct (node_inventories w !! node_id) as [inventory|] eqn:E; simplify_eq/=.
  eapply sublist_NoDup; [by apply (map_Forall_lookup_1 _ _ _ _ Hok E)|].
  apply fmap_sublist, locked_inventory_sublist.
Qed.

Lemma commit_packet_dedup w entry w' :
  commit_packet w entry = Some w' → dedup_ok w → dedup_ok w'.
Proof.
  unfold commit_packet. intros Hrun Hok.
  destruct (node_inventories w !! entry.1) as [inventory|] eqn:E;
    simpl in Hrun; [|done].
  destruct (existsb _ _) eqn:Hex; [by simplify_eq|].
  destruct (py_index _ _) as [idx|]; simplify_eq/=.
  unfold dedup_ok. simpl. apply map_Forall_insert_2; [|done].
  rewrite fmap_app. apply NoDup_app. split; [|split].
  - by apply (map_Forall_lookup_1 _ _ _ _ Hok E).
  - intros x Hx ->%list_elem_of_singleton.
    by apply (not_existing_fresh _ _ Hex).
  - apply NoDup_singleton.
Qed.

Lemma flood_from_inventories_rule calculate_distance (I : World → Prop) env nodes
    st a st' :
  (∀ w1 w2, node_inventories w1 = node_inventories w2 → I w1 → I w2) →
  (∀ w1 e w2, commit_packet w1 e = Some w2 → I w1 → I w2) →
  flood_from calculate_distance env nodes st a = Some st' →
  I st.1 → I st'.1.
Proof.
  unfold flood_from. intros Hext Hcommit Hrun Hst.
  destruct (for_each (visit_neighbour _ _ _ _) st nodes) as [st1|] eqn:E1;
    simpl in Hrun; [|done].
  destruct (for_each commit_packet st1.1 st1.2) as [w'|] eqn:E2;
    simplify_eq/=.
  apply (for_each_ind I _ _ _ _ E2); [|by eauto].
  apply (for_each_ind (λ s, I s.1) _ _ _ _ E1 Hst).
  intros s1 b s2 _ Hs1 Hstep. unfold visit_neighbour in Hstep.
  destruct (decide (id a.2 = id b)); [by simplify_eq|].
  destruct (in_contact _ _ _ _); [|by simplify_eq].
  destruct (auto_relay a.2); [|by simplify_eq].
  destruct (node_inventories s1.1 !! id a.2) as [packets|];
    simpl in Hstep; [|done].
  apply (for_each_ind (λ s, I s.1) _ _ _ _ Hstep Hs1).
  intros s3 p s4 _ Hs3 Hrelay.
  apply relay_packet_frame in Hrelay as (Heq & _). by eapply Hext.
Qed.

(** A property of the inventories alone that every insertion keeps is
    kept by the whole flooding phase. *)
Lemma flood_inventories_rule calculate_distance (I : World → Prop) env w st :
  (∀ w1 w2, node_inventories w1 = node_inventories w2 → I w1 → I w2) →
  (∀ w1 e w2, commit_packet w1 e = Some w2 → I w1 → I w2) →
  flood calculate_distance env w = Some st → I w → I st.1.
Proof.
  unfold flood. intros Hext Hcommit Hrun Hw.
  apply (for_each_ind (λ s, I s.1) _ _ _ _ Hrun Hw).
  intros s1 a s2 _ Hs1 Hstep. by eapply flood_from_inventories_rule.
Qed.

Lemma simulation_tick_dedup calculate_distance env w w' :
  simulation_tick calculate_distance env w = Some w' →
  dedup_ok w → dedup_ok w'.
Proof.
  unfold simulation_tick. intros Hrun Hok.
  destruct (flood _ _ _) as [st|] eqn:E; simplify_eq/=.
  apply (flood_inventories_rule _ dedup_ok _ _ _) in E; [done|..].
  - unfold dedup_ok. by intros w1 w2 ->.
  - apply commit_packet_dedup.
  - by apply locked_phase_dedup.
Qed.

(** C5. Ticks never create a second packet with the (original message id,
    history) of a packet of the same inventory: inventories free of such
    pairs stay so over any number of ticks. *)
Theorem dedup_preserved calculate_distance envs w w' :
  run_ticks calculate_distance envs w = Some w' →
  dedup_ok w → dedup_ok w'.
Proof.
  revert w. induction envs as [|env envs IH]; intros w Hrun Hok;
    simpl in Hrun.
  - by simplify_eq.
  - destruct (simulation_tick _ env w) as [w1|] eqn:E; simpl in Hrun; [|done].
    apply (IH w1 Hrun). by eapply simulation_tick_dedup.
Qed.

(** ** Inventory cap *)

Lemma locked_phase_cap env w : cap_ok (locked_phase env w).
Proof.
  intros node_id inventory' Hlook.
  rewrite locked_phase_lookup in Hlook.
  destruct (node_inventories w !! node_id) as [inventory|] eqn:E; simplify_eq/=.
  etrans; [apply sublist_length, locked_inventory_cleaned|].
  apply cleanup_inventory_length.
Qed.

Lemma commit_packet_grown w0 w entry w' :
  commit_packet w entry = Some w' → grown_from w0 w → grown_from w0 w'.
Proof.
  unfold commit_packet. intros Hrun Hgrown.
  destruct (node_inventories w !! entry.1) as [inventory|] eqn:E;
    simpl in Hrun; [|done].
  destruct (existsb _ _); [by simplify_eq|].
  destruct (py_index _ _) as [idx|]; simplify_eq/=.
  intros node_id inventory'. simpl.
  destruct (decide (entry.1 = node_id)) as [<-|Hne].
  - rewrite lookup_insert_eq. intros [= <-].
    destruct (Hgrown _ _ E) as (inv0 & Hinv0 & Hpre).
    exists inv0. split; [done|]. by apply prefix_app_r.
  - rewrite lookup_insert_ne by done. apply Hgrown.
Qed.

(** C3, as the code has it. The cap holds when cleanup and contention
    resolution have run, that is when the flooding of the tick starts;
    flooding then only appends to the inventories, and nothing trims them
    before the cleanup of the next tick. *)
Theorem inventory_cap_at_flood_start calculate_distance env w w' :
  simulation_tick calculate_distance env w = Some w' →
  cap_ok (locked_phase env w) ∧ grown_from (locked_phase env w) w'.
Proof.
  unfold simulation_tick. intros Hrun. split; [apply locked_phase_cap|].
  destruct (flood _ _ _) as [st|] eqn:E; simplify_eq/=.
  apply (flood_inventories_rule _ (grown_from (locked_phase env w)) _ _ _) in E;
    [done|..].
  - unfold grown_from. by intros w1 w2 ->.
  - apply commit_packet_grown.
  - intros node_id inventory' ->. by exists inventory'.
Qed.

(** ** Ledger: sums of balances *)

Lemma sum_balances_alter (f : NodeRuntime → NodeRuntime) (r : Z) ns : ∀ i,
  (∀ n, balance (wallet (f n)) = balance (wallet n) + r) →
  (i < length ns)%nat →
  sum_balances (alter f i ns) = sum_balances ns + r.
Proof.
  unfold sum_balances.
  induction ns as [|n ns IH]; intros i Hf Hi; simpl in *; [lia|].
  destruct i as [|i]; simpl.
  - rewrite Hf. lia.
  - specialize (IH i Hf ltac:(lia)).
    change (alter f i ns) with (list_alter f i ns) in IH. lia.
Qed.

Lemma sum_balances_alter_same (f : NodeRuntime → NodeRuntime) ns i :
  (∀ n, balance (wallet (f n)) = balance (wallet n)) →
  sum_balances (alter f i ns) = sum_balances ns.
Proof.
  intros Hf. unfold sum_balances. revert i.
  induction ns as [|n ns IH]; intros i; [done|].
  destruct i as [|i]; simpl.
  - by rewrite Hf.
  - specialize (IH i).
    change (alter f i ns) with (list_alter f i ns) in IH. lia.
Qed.

Lemma sum_balances_fmap (f : NodeRuntime → NodeRuntime) (r : Z) ns :
  (∀ n, balance (wallet (f n)) = balance (wallet n) + r) →
  sum_balances (f <$> ns) = sum_balances ns + r * Z.of_nat (length ns).
Proof.
  intros Hf. unfold sum_balances.
  induction ns as [|n ns IH]; [simpl; lia|].
  rewrite fmap_cons. cbn [foldr length]. rewrite Hf, IH. lia.
Qed.

Lemma add_credits_balance (r : Z) (wl : Wallet) :
  0 < r → balance (add_credits r wl) = balance wl + r.
Proof. intros Hr. unfold add_credits. by destruct (Z.ltb_spec 0 r); [|lia]. Qed.

Lemma relay_terms_cases p :
  (message_type p = Safe ∧ relay_terms p = (SAFETY_RELAY_REWARD, safety_relay)) ∨
  (message_type p ≠ Safe ∧
   relay_terms p = (LOGISTICS_RELAY_REWARD, logistics_relay)).
Proof. unfold relay_terms. destruct (decide _); eauto. Qed.

(** ** Reputation: the count of forwards *)

Lemma total_sent_insert (rm : ReputationManager) peer_id (s : PeerStats) :
  total_sent (mkReputation (reputation_node_id rm) (<[peer_id := s]> (peer_stats rm)))
  = total_sent rm - sent (stats_or_new rm peer_id) + sent s.
Proof.
  unfold total_sent, stats_or_new. simpl.
  destruct (peer_stats rm !! peer_id) as [old|] eqn:E; simpl.
  - rewrite <- insert_delete_eq.
    rewrite map_fold_insert_L; [| intros; lia | apply lookup_delete_eq].
    rewrite (map_fold_delete_L _ _ peer_id old (peer_stats rm));
      [lia | intros; lia | done].
  - rewrite map_fold_insert_L; [lia | intros; lia | done].
Qed.

Lemma total_sent_record_sent peer_id rm :
  total_sent (record_packet_sent_to_peer peer_id rm) = total_sent rm + 1.
Proof.
  unfold record_packet_sent_to_peer. rewrite total_sent_insert. simpl. lia.
Qed.

Lemma total_sent_record_relayed peer_id rm :
  total_sent (record_successful_relay_by_peer peer_id rm) = total_sent rm.
Proof.
  unfold record_successful_relay_by_peer. rewrite total_sent_insert. simpl. lia.
Qed.

(** ** The relay step on the books *)

Lemma books_alter (f : NodeRuntime → NodeRuntime) (g : Z * Z → Z * Z)
    (ns : list NodeRuntime) (i j : nat) :
  (∀ n, node_books (f n) = g (node_books n)) →
  node_books <$> alter f i ns !! j
  = (if decide (i = j) then g else λ bk, bk) <$> (node_books <$> ns !! j).
Proof.
  intros Hf. destruct (decide (i = j)) as [->|Hne].
  - rewrite list_lookup_alter_eq. destruct (ns !! j); simpl; [|done].
    by rewrite Hf.
  - rewrite list_lookup_alter_ne by done. by destruct (ns !! j).
Qed.

Lemma credit_previous_hop_books a p w w' :
  credit_previous_hop a p w = Some w' →
  sum_balances (NODES w') = sum_balances (NODES w) ∧
  ∀ j, node_books <$> NODES w' !! j = node_books <$> NODES w !! j.
Proof.
  unfold credit_previous_hop. intros H.
  destruct (1 <? length (history p))%nat; [|by simplify_eq].
  destruct (last (history p)) as [prev|]; [|by simplify_eq].
  destruct (decide (prev = publisher_id p)); [by simplify_eq|].
  destruct (py_index (length (NODES w)) (prev - 1)) as [idx|]; simplify_eq/=.
  split; [by apply sum_balances_alter_same|].
  intros j. rewrite (books_alter _ (λ bk, bk)).
  - destruct (decide (idx = j)); by destruct (NODES w !! j).
  - intros nd. unfold node_books. simpl.
    by rewrite total_sent_record_relayed.
Qed.

(** A relay pays the sender its reward, counts one forward in the
    sender's own tracker and records one transaction; no other balance
    and no other count of forwards changes. *)
Lemma relay_packet_books env ia a b st p st' :
  relay_packet env ia a b st p = Some st' →
  b ∉ history p →
  global_economy st'.1
  = record_transaction (relay_terms p).2 (relay_terms p).1 (global_economy st.1) ∧
  ((ia < length (NODES st.1))%nat →
   total_balance st'.1 = total_balance st.1 + (relay_terms p).1) ∧
  ∀ j, node_books <$> NODES st'.1 !! j
       = (if decide (ia = j)
          then λ bk, (bk.1 + (relay_terms p).1, bk.2 + 1)
          else λ bk, bk) <$> (node_books <$> NODES st.1 !! j).
Proof.
  unfold relay_packet. intros H Hnew.
  rewrite bool_decide_false in H by done.
  assert (0 < (relay_terms p).1) as Hpos.
  { by destruct (relay_terms_cases p) as [[_ ->]|[_ ->]]. }
  destruct (relay_terms p) as [reward ty]. simpl in *.
  destruct (credit_previous_hop _ _ _) as [w3|] eqn:E; simplify_eq/=.
  pose proof (credit_previous_hop_frame _ _ _ _ E) as (_ & Heco & _).
  apply credit_previous_hop_books in E as [Hsum Hbooks]. simpl in *.
  split; [done|]. split.
  - intros Hia. unfold total_balance. simpl.
    rewrite sum_balances_alter_same by done. rewrite Hsum.
    apply sum_balances_alter; [|done].
    intros nd. simpl. by apply add_credits_balance.
  - intros j.
    rewrite (books_alter _ (λ bk, (bk.1, bk.2 + 1))).
    2:{ intros nd. unfold node_books. simpl.
        by rewrite total_sent_record_sent. }
    rewrite Hbooks.
    rewrite (books_alter _ (λ bk, (bk.1 + reward, bk.2))).
    2:{ intros nd. unfold node_books. simpl.
        by rewrite add_credits_balance. }
    destruct (decide (ia = j)); by destruct (NODES st.1 !! j).
Qed.

Lemma commit_packet_books w entry w' :
  commit_packet w entry = Some w' →
  global_economy w' = global_economy w ∧
  length (NODES w') = length (NODES w) ∧
  total_balance w' = total_balance w ∧
  ∀ j, node_books <$> NODES w' !! j = node_books <$> NODES w !! j.
Proof.
  unfold commit_packet. intros Hrun.
  destruct (node_inventories w !! entry.1) as [inventory|];
    simpl in Hrun; [|done].
  destruct (existsb _ _); [by simplify_eq|].
  destruct (py_index _ _) as [idx|]; simplify_eq/=.
  split; [done|]. split; [by rewrite length_alter|]. split.
  - by apply sum_balances_alter_same.
  - intros j. rewrite (books_alter _ (λ bk, bk)) by done.
    destruct (decide (idx = j)); by destruct (NODES w !! j).
Qed.

(** ** Invariant rule of the flooding phase *)

(** An invariant of the flooding state holds after the phase when every
    relay of a stored packet by a node of the registry keeps it and
    every insertion keeps it. *)
Lemma flood_rule calculate_distance env w (I : FloodState → Prop) st :
  (∀ ia node_a b s p s' packets,
     (ia < length (NODES s.1))%nat →
     node_inventories s.1 !! id node_a = Some packets → p ∈ packets →
     relay_packet env ia (id node_a) b s p = Some s' → I s → I s') →
  (∀ w1 buf e w2,
     e ∈ buf → commit_packet w1 e = Some w2 → I (w1, buf) → I (w2, buf)) →
  flood calculate_distance env w = Some st → I (w, []) → I st.
Proof.
  intros Hrelay Hcommit Hrun Hstart. unfold flood in Hrun.
  cut (I st ∧ length (NODES st.1) = length (NODES w)); [by intros [? _]|].
  apply (for_each_ind (λ s, I s ∧ length (NODES s.1) = length (NODES w)) _ _ _ _ Hrun);
    [done|].
  intros s0 [ia node_a] s3 Hin [Hs0 Hlen0] Hstep.
  apply enumerate_lookup, lookup_lt_Some in Hin.
  unfold flood_from in Hstep. simpl in Hstep.
  destruct (for_each (visit_neighbour _ _ _ _) s0 (NODES w)) as [s1|] eqn:E1;
    simpl in Hstep; [|done].
  destruct (for_each commit_packet s1.1 s1.2) as [w2|] eqn:E2; simplify_eq/=.
  assert (I s1 ∧ length (NODES s1.1) = length (NODES w)) as [Hs1 Hlen1].
  { apply (for_each_ind (λ s, I s ∧ length (NODES s.1) = length (NODES w)) _ _ _ _ E1);
      [done|].
    intros s node_b s' _ [Hs Hlen] Hvisit. unfold visit_neighbour in Hvisit.
    destruct (decide (id node_a = id node_b)); [by simplify_eq|].
    destruct (in_contact _ _ _ _); [|by simplify_eq].
    destruct (auto_relay node_a); [|by simplify_eq].
    destruct (node_inventories s.1 !! id node_a) as [packets|] eqn:Einv;
      simpl in Hvisit; [|done].
    cut ((I s' ∧ length (NODES s'.1) = length (NODES w))
         ∧ node_inventories s'.1 = node_inventories s.1); [by intros [? _]|].
    apply (for_each_ind
             (λ x, (I x ∧ length (NODES x.1) = length (NODES w))
                   ∧ node_inventories x.1 = node_inventories s.1)
             _ _ _ _ Hvisit); [done|].
    intros x p x' Hp [[Hx Hlenx] Hinvx] Hstep.
    pose proof (relay_packet_frame _ _ _ _ _ _ _ Hstep) as (Hi' & _ & Hl').
    split; [split|]; [|congruence..].
    eapply (Hrelay ia node_a (id node_b) x p x' packets); try done.
    + lia.
    + by rewrite Hinvx. }
  cut (I (w2, s1.2) ∧ length (NODES w2) = length (NODES w)); [done|].
  apply (for_each_ind (λ x, I (x, s1.2) ∧ length (NODES x) = length (NODES w)) _ _ _ _ E2).
  - by destruct s1.
  - intros x e x' He [Hx Hlenx] Hstep.
    pose proof (commit_packet_books _ _ _ Hstep) as (_ & Hl' & _).
    split; [by eapply Hcommit | congruence].
Qed.

(** ** Ledger: accounting of a tick *)

Lemma ubi_rounds_0 t : ubi_rounds t 0 = 0.
Proof. unfold ubi_rounds. rewrite Z.add_0_r. lia. Qed.

Lemma ubi_rounds_1 t :
  ubi_rounds t 1 = if (t + 1) mod UBI_INTERVAL_TICKS =? 0 then 1 else 0.
Proof.
  unfold ubi_rounds, UBI_INTERVAL_TICKS.
  destruct (Z.eqb_spec ((t + 1) mod 10) 0);
    Z.to_euclidean_division_equations; lia.
Qed.

Lemma ubi_rounds_add t n m :
  ubi_rounds t (n + m) = ubi_rounds t n + ubi_rounds (t + n) m.
Proof. unfold ubi_rounds. rewrite Z.add_assoc. lia. Qed.

Lemma relay_packet_skip env ia a b st p :
  b ∈ history p → relay_packet env ia a b st p = Some st.
Proof. intros Hin. unfold relay_packet. by rewrite bool_decide_true. Qed.

Lemma relay_packet_visited env ia a b st p st' :
  relay_packet env ia a b st p = Some st' → b ∈ history p → st' = st.
Proof. intros Hrun Hin. rewrite relay_packet_skip in Hrun by done. by simplify_eq. Qed.

Lemma relay_packet_ledger env ia a b w st p st' ks kl :
  relay_packet env ia a b st p = Some st' →
  (ia < length (NODES st.1))%nat →
  0 <= ks → 0 <= kl → ledger_after 0 w st.1 ks kl →
  ∃ ks' kl', 0 <= ks' ∧ 0 <= kl' ∧ ledger_after 0 w st'.1 ks' kl'.
Proof.
  intros Hrun Hia Hks Hkl Hled.
  destruct (decide (b ∈ history p)) as [Hin|Hnew].
  { apply relay_packet_visited in Hrun as ->; [|done]. by exists ks, kl. }
  pose proof (relay_packet_frame _ _ _ _ _ _ _ Hrun) as (_ & _ & Hlen).
  pose proof (relay_packet_books _ _ _ _ _ _ _ Hrun Hnew) as (Heco & Hbal & _).
  specialize (Hbal Hia).
  destruct Hled as (Hb & Ht & Hs & Hc & Hl).
  unfold ledger_after. rewrite Heco, Hbal, Hlen.
  destruct (relay_terms_cases p) as [[_ ->]|[_ ->]]; simpl.
  - exists (ks + 1), kl. repeat split; lia.
  - exists ks, (kl + 1). repeat split; lia.
Qed.

Lemma flood_ledger calculate_distance env w st :
  flood calculate_distance env w = Some st →
  ∃ ks kl, 0 <= ks ∧ 0 <= kl ∧ ledger_after 0 w st.1 ks kl.
Proof.
  intros Hrun.
  apply (flood_rule calculate_distance env w
           (λ s, ∃ ks kl, 0 <= ks ∧ 0 <= kl ∧ ledger_after 0 w s.1 ks kl) st);
    [| |done|].
  - cbv beta.
    intros ia node_a b s p s' packets Hia _ _ Hstep (ks & kl & Hks & Hkl & Hled).
    exact (relay_packet_ledger _ _ _ _ _ _ _ _ ks kl Hstep Hia Hks Hkl Hled).
  - intros w1 buf e w2 _ Hstep (ks & kl & Hks & Hkl & Hled). simpl in *.
    pose proof (commit_packet_books _ _ _ Hstep) as (Heco & Hlen & Hbal & _).
    exists ks, kl. unfold ledger_after in *. rewrite Heco, Hlen, Hbal. done.
  - exists 0, 0. unfold ledger_after. rewrite ubi_rounds_0. simpl.
    repeat split; lia.
Qed.

Lemma margin_from_books (o o' : option NodeRuntime) (g : Z * Z → Z * Z) (d : Z) :
  node_books <$> o' = g <$> (node_books <$> o) →
  (∀ bk, (g bk).1 - SAFETY_RELAY_REWARD * (g bk).2
         = bk.1 - SAFETY_RELAY_REWARD * bk.2 + d) →
  relay_margin <$> o' = (λ m, m + d) <$> (relay_margin <$> o).
Proof.
  intros Hbooks Hg. destruct o as [n|], o' as [n'|]; simplify_eq/=; [|done].
  f_equal. specialize (Hg (node_books n)). rewrite <- Hbooks in Hg.
  unfold relay_margin. simpl in Hg. lia.
Qed.

Lemma margin_unchanged (o : option NodeRuntime) :
  (λ m, m + 0) <$> (relay_margin <$> o) = relay_margin <$> o.
Proof. destruct o; simpl; [|done]. f_equal. lia. Qed.

(** With Safe packets only, every relay adds as much to the safety
    subsidies as to the sender's balance, and the sender's balance net of
    its forwards does not move. *)
Lemma flood_safe_books calculate_distance env w st :
  flood calculate_distance env w = Some st → all_safe w →
  flood_all (λ p, message_type p = Safe) st ∧
  total_safety_subsidies (global_economy st.1)
  - total_safety_subsidies (global_economy w)
  = SAFETY_RELAY_REWARD
    * (total_transactions (global_economy st.1)
       - total_transactions (global_economy w)) ∧
  ∀ j, relay_margin <$> NODES st.1 !! j = relay_margin <$> NODES w !! j.
Proof.
  intros Hrun Hsafe.
  apply (flood_rule calculate_distance env w
           (λ s, flood_all (λ p, message_type p = Safe) s ∧
                 total_safety_subsidies (global_economy s.1)
                 - total_safety_subsidies (global_economy w)
                 = SAFETY_RELAY_REWARD
                   * (total_transactions (global_economy s.1)
                      - total_transactions (global_economy w)) ∧
                 ∀ j, relay_margin <$> NODES s.1 !! j
                      = relay_margin <$> NODES w !! j) st);
    [| |done|].
  - cbv beta.
    intros ia node_a b s p s' packets Hia Hinv Hp Hstep (Hall & Heco & Hmar).
    assert (message_type p = Safe) as Hsafe_p.
    { destruct Hall as [Hall _].
      exact (all_packets_lookup (λ p, message_type p = Safe) _ _ _ _
               Hall Hinv Hp). }
    split.
    { eapply (relay_packet_all (λ p, message_type p = Safe)); [|done..].
      by intros. }
    destruct (decide (b ∈ history p)) as [Hin|Hnew].
    { by apply relay_packet_visited in Hstep as ->. }
    pose proof (relay_packet_books _ _ _ _ _ _ _ Hstep Hnew) as (He & _ & Hb).
    destruct (relay_terms_cases p) as [[_ Hterms]|[? _]]; [|done].
    rewrite Hterms in He, Hb. simpl in He, Hb. split.
    + rewrite He. simpl. lia.
    + intros j. rewrite <- Hmar, <- (margin_unchanged (NODES s.1 !! j)).
      eapply margin_from_books; [apply Hb|].
      intros bk. destruct (decide (ia = j)); simpl; lia.
  - cbv beta. intros w1 buf e w2 He Hstep ([Hall Hbuf] & Heco & Hmar).
    simpl in *.
    pose proof (commit_packet_books _ _ _ Hstep) as (Heq & _ & _ & Hb).
    split; [split|split].
    + eapply commit_packet_all; [done| |done].
      by eapply Forall_forall in Hbuf.
    + done.
    + by rewrite Heq.
    + intros j. rewrite <- Hmar, <- (margin_unchanged (NODES w1 !! j)).
      eapply (margin_from_books _ _ (λ bk, bk)); [|intros bk; lia].
      rewrite Hb. by destruct (NODES w1 !! j).
  - split; [|split].
    + split; [done | apply Forall_nil_2].
    + simpl. lia.
    + done.
Qed.

Lemma locked_phase_nodes env w :
  global_economy (locked_phase env w) = increment_tick (global_economy w) ∧
  NODES (locked_phase env w)
  = if (tick_count (global_economy w) + 1) mod UBI_INTERVAL_TICKS =? 0
    then with_wallet (add_credits UBI_AMOUNT) <$> NODES w
    else NODES w.
Proof.
  unfold locked_phase, ubi_distribution. simpl.
  by destruct (_ =? _).
Qed.

Lemma locked_phase_ledger env w : ledger_after 1 w (locked_phase env w) 0 0.
Proof.
  destruct (locked_phase_nodes env w) as [Heco Hnodes].
  unfold ledger_after, total_balance. rewrite Heco, Hnodes, ubi_rounds_1. simpl.
  destruct (_ =? _).
  - rewrite (sum_balances_fmap _ UBI_AMOUNT), length_fmap.
    + repeat split; lia.
    + intros nd. by apply add_credits_balance.
  - repeat split; lia.
Qed.

Lemma locked_phase_margin env w j :
  relay_margin <$> NODES (locked_phase env w) !! j
  = (λ m, m + UBI_AMOUNT * ubi_rounds (tick_count (global_economy w)) 1)
      <$> (relay_margin <$> NODES w !! j).
Proof.
  destruct (locked_phase_nodes env w) as [_ ->]. rewrite ubi_rounds_1.
  destruct (_ =? _).
  - rewrite list_lookup_fmap. destruct (NODES w !! j) as [n|]; simpl; [|done].
    f_equal. unfold relay_margin, UBI_AMOUNT. simpl. lia.
  - destruct (NODES w !! j); simpl; [|done]. f_equal. lia.
Qed.

Lemma ledger_after_trans n m w0 w1 w2 a b c d :
  ledger_after n w0 w1 a b → ledger_after m w1 w2 c d →
  ledger_after (n + m) w0 w2 (a + c) (b + d).
Proof.
  intros (Hb1 & Ht1 & Hs1 & Hc1 & Hl1) (Hb2 & Ht2 & Hs2 & Hc2 & Hl2).
  unfold ledger_after. rewrite ubi_rounds_add.
  rewrite Hb2, Ht2, Hs2, Hc2, Hl2, Hb1, Ht1, Hs1, Hc1, Hl1.
  repeat split; lia.
Qed.

Lemma simulation_tick_ledger calculate_distance env w w' :
  simulation_tick calculate_distance env w = Some w' →
  ∃ ks kl, 0 <= ks ∧ 0 <= kl ∧ ledger_after 1 w w' ks kl.
Proof.
  unfold simulation_tick. intros Hrun.
  destruct (flood _ _ _) as [st|] eqn:E; simplify_eq/=.
  apply flood_ledger in E as (ks & kl & Hks & Hkl & Hled).
  exists ks, kl. split; [done|]. split; [done|].
  apply (ledger_after_trans 1 0 _ _ _ 0 0 ks kl (locked_phase_ledger env w) Hled).
Qed.

Lemma run_ticks_ledger calculate_distance envs : ∀ w w',
  run_ticks calculate_distance envs w = Some w' →
  ∃ ks kl, 0 <= ks ∧ 0 <= kl ∧
           ledger_after (Z.of_nat (length envs)) w w' ks kl.
Proof.
  induction envs as [|env envs IH]; intros w w' Hrun; simpl in Hrun.
  - simplify_eq. exists 0, 0. unfold ledger_after.
    rewrite ubi_rounds_0. simpl. repeat split; lia.
  - destruct (simulation_tick _ env w) as [w1|] eqn:E; simpl in Hrun; [|done].
    apply simulation_tick_ledger in E as (a & b & Ha & Hb & H1).
    apply IH in Hrun as (c & d & Hc & Hd & Hn).
    exists (a + c), (b + d). split; [lia|]. split; [lia|].
    replace (Z.of_nat (length (env :: envs)))
      with (1 + Z.of_nat (length envs)) by (simpl; lia).
    by eapply ledger_after_trans.
Qed.

Lemma margin_shift_compose (o : option NodeRuntime) (a b : Z) :
  (λ m, m + b) <$> ((λ m, m + a) <$> (relay_margin <$> o))
  = (λ m, m + (a + b)) <$> (relay_margin <$> o).
Proof. destruct o; simpl; [|done]. f_equal. lia. Qed.

Lemma simulation_tick_safe_books calculate_distance env w w' :
  simulation_tick calculate_distance env w = Some w' → all_safe w →
  total_safety_subsidies (global_economy w')
  - total_safety_subsidies (global_economy w)
  = SAFETY_RELAY_REWARD
    * (total_transactions (global_economy w')
       - total_transactions (global_economy w)) ∧
  ∀ j, relay_margin <$> NODES w' !! j
       = (λ m, m + UBI_AMOUNT * ubi_rounds (tick_count (global_economy w)) 1)
           <$> (relay_margin <$> NODES w !! j).
Proof.
  unfold simulation_tick. intros Hrun Hsafe.
  destruct (flood _ _ _) as [st|] eqn:E; simplify_eq/=.
  apply flood_safe_books in E as (_ & Heco & Hmar);
    [|by apply locked_phase_all_packets].
  destruct (locked_phase_nodes env w) as [He _]. rewrite He in Heco.
  split; [done|].
  intros j. rewrite Hmar. apply locked_phase_margin.
Qed.

Lemma run_ticks_safe_books calculate_distance envs : ∀ w w',
  run_ticks calculate_distance envs w = Some w' → all_safe w →
  all_safe w' ∧
  total_safety_subsidies (global_economy w')
  - total_safety_subsidies (global_economy w)
  = SAFETY_RELAY_REWARD
    * (total_transactions (global_economy w')
       - total_transactions (global_economy w)) ∧
  ∀ j, relay_margin <$> NODES w' !! j
       = (λ m, m + UBI_AMOUNT
                   * ubi_rounds (tick_count (global_economy w))
                                (Z.of_nat (length envs)))
           <$> (relay_margin <$> NODES w !! j).
Proof.
  induction envs as [|env envs IH]; intros w w' Hrun Hsafe; simpl in Hrun.
  - simplify_eq. split; [done|]. split; [lia|].
    intros j. rewrite ubi_rounds_0.
    destruct (NODES w' !! j); simpl; [|done]. f_equal. lia.
  - destruct (simulation_tick _ env w) as [w1|] eqn:E; simpl in Hrun; [|done].
    pose proof (simulation_tick_all_safe _ _ _ _ E Hsafe) as Hsafe1.
    pose proof (simulation_tick_ledger _ _ _ _ E)
      as (a & b & _ & _ & _ & _ & _ & Htick & _).
    pose proof (simulation_tick_safe_books _ _ _ _ E Hsafe) as [Heco1 Hmar1].
    destruct (IH w1 w' Hrun Hsafe1) as (Hsafe' & Heco & Hmar).
    split; [done|]. split; [lia|].
    intros j. rewrite Hmar, Hmar1, margin_shift_compose, Htick.
    replace (Z.of_nat (length (env :: envs)))
      with (1 + Z.of_nat (length envs)) by (simpl; lia).
    rewrite ubi_rounds_add.
    destruct (NODES w !! j); simpl; [|done]. f_equal. lia.
Qed.

(** C4, as the code has it. Over any sequence of ticks the sum of the
    balances, less the UBI and the safety subsidies issued meanwhile,
    grows by LOGISTICS_RELAY_REWARD for each relay recorded that is not a
    safety relay; it is constant when every stored packet is Safe. *)
Theorem ledger_accounting calculate_distance envs w w' :
  run_ticks calculate_distance envs w = Some w' →
  let ubi_issued :=
    UBI_AMOUNT * Z.of_nat (length (NODES w))
    * ubi_rounds (tick_count (global_economy w)) (Z.of_nat (length envs)) in
  let safety_issued :=
    total_safety_subsidies (global_economy w')
    - total_safety_subsidies (global_economy w) in
  let relays :=
    total_transactions (global_economy w')
    - total_transactions (global_economy w) in
  total_balance w' - ubi_issued - safety_issued
  = total_balance w
    + LOGISTICS_RELAY_REWARD * (relays - safety_issued / SAFETY_RELAY_REWARD) ∧
  (all_safe w → total_balance w' - ubi_issued - safety_issued = total_balance w).
Proof.
  intros Hrun. cbv zeta.
  pose proof (run_ticks_ledger _ _ _ _ Hrun)
    as (ks & kl & Hks & Hkl & Hb & Ht & Hs & _ & _).
  assert ((total_safety_subsidies (global_economy w')
           - total_safety_subsidies (global_economy w)) / SAFETY_RELAY_REWARD
          = ks) as Hdiv.
  { rewrite Hs. unfold SAFETY_RELAY_REWARD.
    replace (total_safety_subsidies (global_economy w) + 10 * ks
             - total_safety_subsidies (global_economy w)) with (ks * 10) by lia.
    by apply Z.div_mul. }
  split.
  - rewrite Hdiv. unfold LOGISTICS_RELAY_REWARD in *. lia.
  - intros Hsafe.
    pose proof (run_ticks_safe_books _ _ _ _ Hrun Hsafe) as (_ & Heco & _).
    unfold LOGISTICS_RELAY_REWARD, SAFETY_RELAY_REWARD in *. lia.
Qed.

(** ** Publishing a Safe message *)

Lemma publish_message_safe penv request w0 w :
  request_type request = Safe →
  publish_message penv request w0 = Some (published w) →
  (∀ j, node_books <$> NODES w !! j = node_books <$> NODES w0 !! j) ∧
  global_economy w = global_economy w0 ∧
  (all_safe w0 → all_safe w).
Proof.
  unfold publish_message. intros Hty Hrun.
  destruct (negb (validate_request request)); [done|].
  destruct (negb (valid_node_id _)); [done|].
  destruct (negb (forallb _ _)); [done|].
  destruct (py_index _ _) as [idx|]; simpl in Hrun; [|done].
  destruct (NODES w0 !! idx) as [publisher_node|] eqn:Enode;
    simpl in Hrun; [|done].
  rewrite Hty in Hrun. rewrite !decide_True in Hrun by done.
  unfold spend_credits, SAFETY_SEND_COST in Hrun. simpl in Hrun.
  destruct (node_inventories w0 !! publisher_node_id request)
    as [inventory|] eqn:Einv; simplify_eq/=.
  split; [|split; [done|]].
  - intros j. rewrite (books_alter _ (λ bk, bk)) by done.
    rewrite (list_lookup_alter _ _ idx j).
    destruct (decide (idx = j)) as [->|_].
    + rewrite Enode. done.
    + by destruct (NODES w0 !! j).
  - intros Hsafe. unfold all_safe, all_packets. simpl.
    apply map_Forall_insert_2; [|done].
    apply Forall_app. split.
    + by apply (map_Forall_lookup_1 _ _ _ _ Hsafe Einv).
    + by apply Forall_singleton.
Qed.

(** C1, as the code has it. Publishing a Safe message leaves every
    balance as it was. Over the ticks that follow, while every stored
    packet is Safe, a node's balance grows by SAFETY_RELAY_REWARD for
    each copy it builds for a neighbour (each one counted once as a
    "packet sent" in the node's own tracker), whether or not the
    neighbour keeps the copy, and by UBI_AMOUNT for each UBI round. *)
Theorem safe_relay_accounting calculate_distance penv request w0 w envs w' :
  all_safe w0 →
  request_type request = Safe →
  publish_message penv request w0 = Some (published w) →
  run_ticks calculate_distance envs w = Some w' →
  (∀ j, balance ∘ wallet <$> NODES w !! j = balance ∘ wallet <$> NODES w0 !! j) ∧
  ∀ j n n',
    NODES w !! j = Some n → NODES w' !! j = Some n' →
    balance (wallet n') - balance (wallet n)
    = SAFETY_RELAY_REWARD
      * (total_sent (reputation n') - total_sent (reputation n))
      + UBI_AMOUNT
        * ubi_rounds (tick_count (global_economy w)) (Z.of_nat (length envs)).
Proof.
  intros Hsafe0 Hty Hpub Hrun.
  destruct (publish_message_safe _ _ _ _ Hty Hpub) as (Hbooks & _ & Hsafe).
  split.
  - intros j. specialize (Hbooks j).
    destruct (NODES w !! j), (NODES w0 !! j); simplify_eq/=; [|done].
    f_equal. unfold node_books in Hbooks. by simplify_eq.
  - intros j n n' Hn Hn'.
    pose proof (run_ticks_safe_books _ _ _ _ Hrun (Hsafe Hsafe0))
      as (_ & _ & Hmar).
    specialize (Hmar j). rewrite Hn, Hn' in Hmar. simpl in Hmar.
    unfold relay_margin in Hmar. simplify_eq. lia.
Qed.

(** * The tick does not raise *)

(** Totality rule of [for_each]. *)
Lemma for_each_total {S A} (I : S → Prop) (body : S → A → option S) (l : list A) :
  ∀ s,
    I s →
    (∀ s1 x, x ∈ l → I s1 → ∃ s2, body s1 x = Some s2 ∧ I s2) →
    ∃ s', for_each body s l = Some s' ∧ I s'.
Proof.
  induction l as [|x l IH]; intros s Hs Hstep; simpl.
  - by exists s.
  - destruct (Hstep s x) as (s1 & -> & Hs1); [by left|done|]. simpl.
    apply IH; [done|]. intros s2 y Hy. apply Hstep. by right.
Qed.

Lemma py_index_in_range (L : nat) (k : Z) :
  1 <= k <= Z.of_nat L →
  py_index L (k - 1) = Some (Z.to_nat (k - 1)) ∧ (Z.to_nat (k - 1) < L)%nat.
Proof.
  intros Hk. unfold py_index.
  destruct (Z.leb_spec 0 (k - 1)); [|lia].
  destruct (Z.ltb_spec (k - 1) (Z.of_nat L)); [|lia].
  split; [done | lia].
Qed.

(** Updating a node without touching its id keeps the world well formed. *)
Lemma well_formed_alter L w (f : NodeRuntime → NodeRuntime) (j : nat) :
  (∀ n, id (f n) = id n) →
  well_formed_at L w →
  well_formed_at L (set_nodes (alter f j (NODES w)) w).
Proof.
  intros Hf (Hlen & Hids & Hinv & Hall).
  split; [by simpl; rewrite length_alter|]. split; [|done].
  intros i n. simpl. rewrite list_lookup_alter.
  destruct (decide (j = i)) as [->|_]; [|apply Hids].
  destruct (NODES w !! i) as [n0|] eqn:E; simpl; [|done].
  intros [= <-]. rewrite Hf. by apply Hids.
Qed.

Lemma well_formed_economy L w e :
  well_formed_at L w → well_formed_at L (set_economy e w).
Proof. done. Qed.

Lemma credit_previous_hop_total L a p w :
  well_formed_at L w → valid_hops L p →
  ∃ w', credit_previous_hop a p w = Some w' ∧ well_formed_at L w'.
Proof.
  intros Hwf Hp. unfold credit_previous_hop.
  destruct (1 <? length (history p))%nat; [|by exists w].
  destruct (last (history p)) as [prev|] eqn:Elast; [|by exists w].
  destruct (decide (prev = publisher_id p)); [by exists w|].
  assert (1 <= prev <= Z.of_nat L) as Hprev.
  { apply last_Some_elem_of in Elast.
    by apply (proj1 (Forall_forall _ _) Hp). }
  destruct Hwf as (Hlen & Hrest). rewrite Hlen.
  destruct (py_index_in_range L prev Hprev) as [-> _]. simpl.
  eexists. split; [done|]. by apply well_formed_alter.
Qed.

Lemma valid_hops_copy L u b p :
  1 <= b <= Z.of_nat L → valid_hops L p → valid_hops L (copy_for u b p).
Proof.
  intros Hb Hp. unfold valid_hops. simpl.
  apply Forall_app. split; [done | by apply Forall_singleton].
Qed.

Lemma relay_packet_total L env ia a b st p :
  well_formed_at L st.1 → buffer_ok L st.2 →
  valid_hops L p → 1 <= b <= Z.of_nat L →
  ∃ st', relay_packet env ia a b st p = Some st' ∧
         well_formed_at L st'.1 ∧ buffer_ok L st'.2.
Proof.
  intros Hwf Hbuf Hp Hb. unfold relay_packet.
  destruct (bool_decide (b ∈ history p)); [by exists st|].
  destruct (relay_terms p) as [reward ty].
  cbv zeta.
  match goal with
  | |- context [credit_previous_hop a p ?w] =>
      destruct (credit_previous_hop_total L a p w) as (w3 & -> & Hw3);
        [|done|]
  end.
  { apply well_formed_economy. by apply well_formed_alter. }
  simpl. eexists. split; [done|]. split.
  - by apply well_formed_alter.
  - apply Forall_app. split; [done|]. apply Forall_singleton.
    split; [done | by apply valid_hops_copy].
Qed.

Lemma node_id_in_range L w i n :
  well_formed_at L w → NODES w !! i = Some n →
  id n = Z.of_nat i + 1 ∧ 1 <= id n <= Z.of_nat L.
Proof.
  intros (Hlen & Hids & _) Hn. pose proof (lookup_lt_Some _ _ _ Hn).
  rewrite (Hids i n Hn). split; lia.
Qed.

Lemma visit_neighbour_total calculate_distance L env ia node_a node_b st :
  well_formed_at L st.1 → buffer_ok L st.2 →
  1 <= id node_a <= Z.of_nat L → 1 <= id node_b <= Z.of_nat L →
  ∃ st', visit_neighbour calculate_distance env ia node_a st node_b = Some st' ∧
         well_formed_at L st'.1 ∧ buffer_ok L st'.2.
Proof.
  intros Hwf Hbuf Ha Hb. unfold visit_neighbour.
  destruct (decide (id node_a = id node_b)); [by exists st|].
  destruct (in_contact _ _ _ _); [|by exists st].
  destruct (auto_relay node_a); [|by exists st].
  destruct Hwf as (Hlen & Hids & Hinv & Hall).
  destruct (Hinv (id node_a) Ha) as [packets Hpackets].
  rewrite Hpackets. simpl.
  apply (for_each_total (λ s, well_formed_at L s.1 ∧ buffer_ok L s.2));
    [done|].
  intros s p Hp [Hs Hsbuf]. apply relay_packet_total; try done.
  exact (all_packets_lookup (valid_hops L) _ _ _ _ Hall Hpackets Hp).
Qed.

Lemma commit_packet_total L w entry :
  well_formed_at L w → 1 <= entry.1 <= Z.of_nat L → valid_hops L entry.2 →
  ∃ w', commit_packet w entry = Some w' ∧ well_formed_at L w'.
Proof.
  intros Hwf He Hp. unfold commit_packet.
  pose proof Hwf as (Hlen & Hids & Hinv & Hall).
  destruct (Hinv entry.1 He) as [inventory Hinventory].
  rewrite Hinventory. simpl.
  destruct (existsb _ _); [by exists w|].
  rewrite Hlen. destruct (py_index_in_range L entry.1 He) as [-> _]. simpl.
  eexists. split; [done|].
  apply (well_formed_alter L
           (set_inventories
              (<[entry.1 := inventory ++ [entry.2]]> (node_inventories w)) w));
    [done|].
  split; [done|]. split; [done|]. split.
  - intros k Hk. simpl. destruct (decide (entry.1 = k)) as [->|Hne].
    + rewrite lookup_insert_eq. by eexists.
    + rewrite lookup_insert_ne by done. by apply Hinv.
  - unfold all_packets. simpl. apply map_Forall_insert_2; [|done].
    apply Forall_app. split; [|by apply Forall_singleton].
    by apply (map_Forall_lookup_1 _ _ _ _ Hall Hinventory).
Qed.

Lemma flood_from_total calculate_distance L env nodes st ia node_a :
  (∀ node_b, node_b ∈ nodes → 1 <= id node_b <= Z.of_nat L) →
  1 <= id node_a <= Z.of_nat L →
  well_formed_at L st.1 → buffer_ok L st.2 →
  ∃ st', flood_from calculate_distance env nodes st (ia, node_a) = Some st' ∧
         well_formed_at L st'.1 ∧ buffer_ok L st'.2.
Proof.
  intros Hnodes Ha Hwf Hbuf. unfold flood_from. cbn [fst snd].
  destruct (for_each_total (λ s, well_formed_at L s.1 ∧ buffer_ok L s.2)
              (visit_neighbour calculate_distance env ia node_a) nodes st)
    as (st1 & Hrun1 & Hwf1 & Hbuf1); [done| |].
  { intros s node_b Hb [Hs Hsbuf]. apply visit_neighbour_total; auto. }
  destruct (for_each_total (well_formed_at L) commit_packet st1.2 st1.1)
    as (w' & Hrun2 & Hwf'); [done| |].
  { intros w1 e He Hw1.
    destruct (proj1 (Forall_forall _ _) Hbuf1 e He) as [Hdest Hhops].
    by apply commit_packet_total. }
  exists (w', st1.2). split; [|done].
  apply bind_Some. exists st1. split; [exact Hrun1|].
  apply bind_Some. exists w'. split; [exact Hrun2 | done].
Qed.

Lemma flood_total calculate_distance env w :
  well_formed w →
  ∃ st, flood calculate_distance env w = Some st ∧
        well_formed_at (length (NODES w)) st.1.
Proof.
  intros Hwf. unfold flood.
  destruct (for_each_total
              (λ s, well_formed_at (length (NODES w)) s.1
                    ∧ buffer_ok (length (NODES w)) s.2)
              (flood_from calculate_distance env (NODES w))
              (enumerate (NODES w)) (w, []))
    as (st & Hrun & Hst & _).
  - split; [done | apply Forall_nil_2].
  - intros s [ia node_a] Hin [Hs Hsbuf].
    apply enumerate_lookup in Hin.
    apply flood_from_total; try done.
    + intros node_b [j Hj]%list_elem_of_lookup_1.
      exact (proj2 (node_id_in_range _ _ _ _ Hwf Hj)).
    + exact (proj2 (node_id_in_range _ _ _ _ Hwf Hin)).
  - by exists st.
Qed.

Lemma locked_phase_well_formed env w :
  well_formed w →
  well_formed_at (length (NODES w)) (locked_phase env w).
Proof.
  intros (_ & Hids & Hinv & Hall).
  destruct (locked_phase_nodes env w) as [_ Hnodes].
  split; [|split; [|split]].
  - rewrite Hnodes. destruct (_ =? _); [by rewrite length_fmap | done].
  - intros i n. rewrite Hnodes. destruct (_ =? _); [|apply Hids].
    rewrite list_lookup_fmap.
    destruct (NODES w !! i) as [n0|] eqn:E; simpl; [|done].
    intros [= <-]. exact (Hids i n0 E).
  - intros k Hk. rewrite locked_phase_lookup.
    destruct (Hinv k Hk) as [inventory ->]. by eexists.
  - by apply locked_phase_all_packets.
Qed.

(** On a well-formed world the tick returns, and its result is well
    formed: no lookup of the propagation engine can fail. *)
Lemma simulation_tick_total calculate_distance env w :
  well_formed w →
  ∃ w', simulation_tick calculate_distance env w = Some w' ∧
        well_formed w' ∧ length (NODES w') = length (NODES w).
Proof.
  intros Hwf. unfold simulation_tick.
  pose proof (locked_phase_well_formed env w Hwf) as Hlocked.
  pose proof Hlocked as (Hlen & _).
  destruct (flood_total calculate_distance env (locked_phase env w))
    as (st & -> & Hst).
  { unfold well_formed. by rewrite Hlen. }
  rewrite Hlen in Hst. pose proof Hst as (Hlen' & _).
  exists st.1. split; [done|]. split; [|done].
  unfold well_formed. by rewrite Hlen'.
Qed.

Lemma run_ticks_total calculate_distance envs : ∀ w,
  well_formed w →
  ∃ w', run_ticks calculate_distance envs w = Some w' ∧ well_formed w'.
Proof.
  induction envs as [|env envs IH]; intros w Hwf; simpl.
  - by exists w.
  - destruct (simulation_tick_total calculate_distance env w Hwf)
      as (w1 & -> & Hwf1 & _).
    simpl. by apply IH.
Qed.

(** * Reachable worlds *)

Lemma empty_inventories_lookup k inventory :
  empty_inventories !! k = Some inventory → inventory = [].
Proof.
  unfold empty_inventories. intros H.
  apply elem_of_list_to_map_2, list_elem_of_fmap in H as (i & Heq & _).
  by simplify_eq.
Qed.

Lemma initial_world_well_formed positions :
  length positions = 10%nat → well_formed (initial_world positions).
Proof.
  intros Hlen. unfold well_formed, initial_world, create_fixed_nodes. simpl.
  rewrite length_imap, Hlen. split; [|split; [|split]].
  - simpl. by rewrite length_imap.
  - intros i n. simpl. rewrite list_lookup_imap.
    destruct (positions !! i); simpl; [|done]. by intros [= <-].
  - intros k Hk. simpl.
    assert (k = 1 ∨ k = 2 ∨ k = 3 ∨ k = 4 ∨ k = 5 ∨ k = 6 ∨ k = 7 ∨ k = 8
            ∨ k = 9 ∨ k = 10) as Hcases by lia.
    repeat (destruct Hcases as [->|Hcases]; [by eexists|]).
    subst k. by eexists.
  - intros k inventory Hlook. simpl in Hlook.
    apply empty_inventories_lookup in Hlook as ->. apply Forall_nil_2.
Qed.

Lemma initial_world_dedup positions : dedup_ok (initial_world positions).
Proof.
  intros k inventory Hlook. simpl in Hlook.
  apply empty_inventories_lookup in Hlook as ->. apply NoDup_nil_2.
Qed.

Lemma py_index_nonneg L i idx :
  0 <= i → py_index L i = Some idx → i < Z.of_nat L.
Proof.
  unfold py_index. intros Hi.
  destruct (Z.leb_spec 0 i); [|lia].
  destruct (Z.ltb_spec i (Z.of_nat L)); simpl; [done|].
  destruct (Z.ltb_spec i 0); [lia|]. by rewrite andb_false_r.
Qed.

(** What an accepted publication does to the inventories: one packet,
    with the history [publisher], at the end of the publisher's. *)
Lemma publish_message_inventories penv request w w' :
  publish_message penv request w = Some (published w') →
  ∃ inventory,
    node_inventories w !! publisher_node_id request = Some inventory ∧
    node_inventories w'
    = <[publisher_node_id request := inventory ++ [initial_packet penv request]]>
        (node_inventories w) ∧
    1 <= publisher_node_id request <= Z.of_nat (length (NODES w)) ∧
    ∃ f idx, (∀ n, id (f n) = id n) ∧ NODES w' = alter f idx (NODES w).
Proof.
  unfold publish_message. intros Hrun.
  destruct (negb (validate_request request)); [done|].
  destruct (valid_node_id (publisher_node_id request)) eqn:Hvalid; [|done].
  simpl in Hrun.
  destruct (negb (forallb _ _)); [done|].
  destruct (py_index _ _) as [idx|] eqn:Eidx; simpl in Hrun; [|done].
  destruct (NODES w !! idx) as [publisher_node|]; simpl in Hrun; [|done].
  destruct (negb _); [done|].
  unfold valid_node_id in Hvalid. apply andb_true_iff in Hvalid as [Hlo _].
  apply Z.leb_le in Hlo.
  apply py_index_nonneg in Eidx; [|lia].
  destruct (decide (request_type request = Safe));
    (destruct (node_inventories _ !! publisher_node_id request)
       as [inventory|] eqn:Einv; simplify_eq/=);
    exists inventory; (split; [done|]); (split; [done|]); (split; [lia|]);
    eexists _, idx; rewrite list_alter_alter_eq; (split; [|done]); done.
Qed.

Lemma publish_message_well_formed penv request w w' :
  publish_message penv request w = Some (published w') →
  well_formed w → well_formed w'.
Proof.
  intros Hrun (_ & Hids & Hinv & Hall).
  destruct (publish_message_inventories _ _ _ _ Hrun)
    as (inventory & Hlook & Hinv' & Hpub & f & idx & Hf & Hnodes).
  unfold well_formed, well_formed_at.
  rewrite Hnodes, length_alter, Hinv'. split; [done|]. split; [|split].
  - intros i n. rewrite list_lookup_alter.
    destruct (decide (idx = i)) as [->|_]; [|apply Hids].
    destruct (NODES w !! i) as [n0|] eqn:E; simpl; [|done].
    intros [= <-]. rewrite Hf. by apply Hids.
  - intros k Hk. destruct (decide (publisher_node_id request = k)) as [->|Hne].
    + rewrite lookup_insert_eq. by eexists.
    + rewrite lookup_insert_ne by done. by apply Hinv.
  - unfold all_packets. rewrite Hinv'. apply map_Forall_insert_2; [|done].
    apply Forall_app. split.
    + by apply (map_Forall_lookup_1 _ _ _ _ Hall Hlook).
    + apply Forall_singleton. unfold valid_hops. simpl.
      by apply Forall_singleton.
Qed.

Lemma publish_message_dedup penv request w w' :
  publish_message penv request w = Some (published w') →
  fresh_message penv w → dedup_ok w → dedup_ok w'.
Proof.
  intros Hrun Hfresh Hok.
  destruct (publish_message_inventories _ _ _ _ Hrun)
    as (inventory & Hlook & Hinv' & _).
  unfold dedup_ok. rewrite Hinv'. apply map_Forall_insert_2; [|done].
  rewrite fmap_app. apply NoDup_app. split; [|split].
  - by apply (map_Forall_lookup_1 _ _ _ _ Hok Hlook).
  - intros x Hx ->%list_elem_of_singleton.
    apply list_elem_of_fmap in Hx as (p & Heq & Hp).
    apply (all_packets_lookup _ _ _ _ _ Hfresh Hlook Hp).
    unfold identity in Heq. by simplify_eq/=.
  - apply NoDup_singleton.
Qed.

Lemma add_connection_inventories node_a node_b w :
  node_inventories (add_connection node_a node_b w) = node_inventories w ∧
  NODES (add_connection node_a node_b w) = NODES w.
Proof. unfold add_connection. by destruct (_ && _). Qed.

(** Every reachable world is well formed, so that the next tick returns,
    and holds no two packets of one identity in one inventory. *)
Lemma reachable_invariants calculate_distance w :
  reachable calculate_distance w → well_formed w ∧ dedup_ok w.
Proof.
  induction 1 as [positions Hlen | env w w' _ [Hwf Hok] Hrun
                 | penv request w w' _ [Hwf Hok] Hfresh Hrun
                 | node_a node_b w _ [Hwf Hok]].
  - split; [by apply initial_world_well_formed | apply initial_world_dedup].
  - destruct (simulation_tick_total calculate_distance env w Hwf)
      as (w1 & Hrun1 & Hwf1 & _).
    rewrite Hrun in Hrun1. simplify_eq. split; [done|].
    by eapply simulation_tick_dedup.
  - split; [by eapply publish_message_well_formed
           | by eapply publish_message_dedup].
  - destruct (add_connection_inventories node_a node_b w) as [Hinv Hnodes].
    unfold well_formed, well_formed_at, all_packets, dedup_ok in *.
    by rewrite Hinv, Hnodes.
Qed.

(** * Insertion after each sender *)

Lemma commit_packet_stored w e w' :
  commit_packet w e = Some w' →
  stored e w' ∧ ∀ e', stored e' w → stored e' w'.
Proof.
  unfold commit_packet. intros Hrun.
  destruct (node_inventories w !! e.1) as [inventory|] eqn:E;
    simpl in Hrun; [|done].
  destruct (existsb _ _) eqn:Hex.
  - simplify_eq. split; [|done].
    apply existsb_exists in Hex as (q & Hq & Hsame).
    exists inventory, q. split; [done|]. split; [by apply list_elem_of_In|].
    by apply same_identity_spec.
  - destruct (py_index _ _) as [idx|]; simplify_eq/=. split.
    + exists (inventory ++ [e.2]), e.2. simpl.
      rewrite lookup_insert_eq. split; [done|]. split; [|done].
      apply elem_of_app. right. by left.
    + intros e' (inventory' & q & Hlook & Hq & Hid). unfold stored. simpl.
      destruct (decide (e.1 = e'.1)) as [Heq|Hne].
      * rewrite Heq, lookup_insert_eq. rewrite Heq in E.
        assert (inventory' = inventory) as -> by congruence.
        exists (inventory ++ [e.2]), q. split; [done|]. split; [|done].
        apply elem_of_app. by left.
      * rewrite lookup_insert_ne by done. by exists inventory', q.
Qed.

Lemma commit_all_stored buf : ∀ w w',
  for_each commit_packet w buf = Some w' →
  (∀ e, e ∈ buf → stored e w') ∧ (∀ e, stored e w → stored e w').
Proof.
  induction buf as [|e buf IH]; intros w w' Hrun; simpl in Hrun.
  - simplify_eq. split; [|done]. intros e He. by apply elem_of_nil in He.
  - destruct (commit_packet w e) as [w1|] eqn:E; simpl in Hrun; [|done].
    destruct (commit_packet_stored _ _ _ E) as [He Hmono].
    destruct (IH w1 w' Hrun) as [Hall Hmono'].
    split; [|by auto].
    intros e' [->|He']%elem_of_cons; [by apply Hmono' | by apply Hall].
Qed.

Lemma visit_neighbour_buffer calculate_distance env ia node_a st node_b st' :
  visit_neighbour calculate_distance env ia node_a st node_b = Some st' →
  st.2 `prefix_of` st'.2.
Proof.
  unfold visit_neighbour. intros Hrun.
  destruct (decide (id node_a = id node_b)); [by simplify_eq|].
  destruct (in_contact _ _ _ _); [|by simplify_eq].
  destruct (auto_relay node_a); [|by simplify_eq].
  destruct (node_inventories st.1 !! id node_a) as [packets|];
    simpl in Hrun; [|done].
  apply (for_each_ind (λ s, st.2 `prefix_of` s.2) _ _ _ _ Hrun); [done|].
  intros s1 p s2 _ Hs1 Hstep.
  destruct (relay_packet_buffer _ _ _ _ _ _ _ Hstep) as [->|[u ->]]; [done|].
  by apply prefix_app_r.
Qed.

(** When a sender's turn ends, the buffer still holds what it held
    before the turn, and every buffered copy is stored at its destination,
    where the senders that follow find it. *)
Lemma flood_from_commits calculate_distance env nodes st a st' :
  flood_from calculate_distance env nodes st a = Some st' →
  st.2 `prefix_of` st'.2 ∧ ∀ e, e ∈ st'.2 → stored e st'.1.
Proof.
  unfold flood_from. intros Hrun.
  destruct (for_each (visit_neighbour _ _ _ _) st nodes) as [st1|] eqn:E1;
    simpl in Hrun; [|done].
  destruct (for_each commit_packet st1.1 st1.2) as [w'|] eqn:E2;
    simplify_eq/=.
  split.
  - apply (for_each_ind (λ s, st.2 `prefix_of` s.2) _ _ _ _ E1); [done|].
    intros s1 b s2 _ Hs1 Hstep. etrans; [done|].
    by eapply visit_neighbour_buffer.
  - by apply (commit_all_stored _ _ _ E2).
Qed.

(** * The scenarios, run *)

(** Splits an equation between tuples into its components, first
    component first. *)
Ltac components H :=
  cbv beta in H; symmetry in H;
  repeat match type of H with
         | (_, _) = (_, _) =>
             let H' := fresh H in
             apply pair_equal_spec in H as [H H']; revert H'
         end;
  revert H.

(** The world a run has produced, from what was observed of it. *)
Ltac observed Hobs w' Hrun :=
  let H := fresh in
  pose proof (proj1 (fmap_Some _ _ _) Hobs) as H;
  destruct H as (w' & Hrun & H);
  exists w'; split; [exact Hrun|]; clear Hrun; components H.

(** Two linked nodes, a Safe message at node 1, two ticks: one copy has
    reached node 2 and node 1 holds 120 credits. *)
Lemma pair_world_two_ticks :
  (λ w', (hops_delivered_by 1 w', balance_of 1 w', balance_of 1 pair_world_safe))
    <$> run_ticks meridian_distance [env_at 1003; env_at 1006] pair_world_safe
  = Some (1%nat, 120, 100).
Proof. vm_compute. reflexivity. Qed.

(** C1 fails as stated: the hop from node 1 to node 2 succeeds once, in
    the first tick, and node 1 is paid for it in the first tick and again
    in the second, when the copy it builds is dropped as a duplicate. *)
Lemma relay_reward_counterexample :
  ∃ w', run_ticks meridian_distance [env_at 1003; env_at 1006] pair_world_safe
        = Some w' ∧
        hops_delivered_by 1 w' = 1%nat ∧
        balance_of 1 w' - balance_of 1 pair_world_safe
        ≠ SAFETY_RELAY_REWARD * Z.of_nat (hops_delivered_by 1 w').
Proof.
  observed pair_world_two_ticks w' Hrun. intros -> -> ->.
  split; [reflexivity|]. unfold SAFETY_RELAY_REWARD. lia.
Qed.

(** Ten nodes in range of one another, one Safe message at node 1, one
    tick. *)
Lemma cluster_world_one_tick :
  (λ w', length (inventory_of 10 w'))
    <$> simulation_tick meridian_distance (env_at 1003) cluster_world_safe
  = Some 256%nat.
Proof. vm_compute. reflexivity. Qed.

(** C3 fails as stated: when that tick completes, node 10 holds 256
    packets. *)
Lemma inventory_cap_counterexample :
  ∃ w', simulation_tick meridian_distance (env_at 1003) cluster_world_safe
        = Some w' ∧ ¬ cap_ok w'.
Proof.
  observed cluster_world_one_tick w' Hrun. intros Hobs Hcap.
  unfold inventory_of in Hobs.
  destruct (node_inventories w' !! 10) as [inventory|] eqn:E; simpl in Hobs.
  - apply (map_Forall_lookup_1 _ _ _ _ Hcap) in E.
    unfold MAX_INVENTORY_SIZE in E. lia.
  - lia.
Qed.

(** The line 1 - 2 - 3 - 4 with a Logistics message at node 1, one tick. *)
Lemma line_world_logistics_one_tick :
  (λ w', (total_balance w', total_safety_subsidies (global_economy w'),
          total_balance line_world_logistics,
          total_safety_subsidies (global_economy line_world_logistics),
          ubi_rounds (tick_count (global_economy line_world_logistics)) 1))
    <$> simulation_tick meridian_distance (env_at 1003) line_world_logistics
  = Some (1001, 0, 998, 0, 0).
Proof. vm_compute. reflexivity. Qed.

(** C4 fails as stated: in that tick no UBI and no safety subsidy is
    issued, and the balances sum to three credits more than before. *)
Lemma ledger_conservation_counterexample :
  ∃ w', simulation_tick meridian_distance (env_at 1003) line_world_logistics
        = Some w' ∧
        ubi_rounds (tick_count (global_economy line_world_logistics)) 1 = 0 ∧
        total_balance w' - total_safety_subsidies (global_economy w')
        ≠ total_balance line_world_logistics
          - total_safety_subsidies (global_economy line_world_logistics).
Proof.
  observed line_world_logistics_one_tick w' Hrun. intros -> -> -> -> ->.
  split; [reflexivity | lia].
Qed.

(** The line 1 - 2 - 3 - 4 with a Safe message at node 1, one tick. *)
Lemma line_world_safe_one_tick :
  (λ w', (history <$> inventory_of 3 w', history <$> inventory_of 4 w',
          relayed_seen 2 3 w', relayed_seen 3 3 w',
          (λ i, balance_of i w' - balance_of i line_world_safe) <$> [1; 2; 3],
          history <$> inventory_of 1 line_world_safe,
          (λ i, inventory_of i line_world_safe) <$> [2; 3; 4]))
    <$> simulation_tick meridian_distance (env_at 1003) line_world_safe
  = Some ([[1; 2; 3]], [[1; 2; 3; 4]], 0, 1, [10; 10; 10], [[1]], [[]; []; []]).
Proof. vm_compute. reflexivity. Qed.

(** C2 against the code: node 3 relays the packet with history 1, 2, 3 to
    node 4; node 2, which precedes node 3 in that history and is not the
    publisher, gets no observation for peer 3, while node 3 records a
    relay by itself: [packet.history[-1]] is the relaying node. *)
Lemma previous_hop_not_credited :
  ∃ w', simulation_tick meridian_distance (env_at 1003) line_world_safe
        = Some w' ∧
        history <$> inventory_of 3 w' = [[1; 2; 3]] ∧
        history <$> inventory_of 4 w' = [[1; 2; 3; 4]] ∧
        relayed_seen 2 3 w' = 0 ∧ relayed_seen 3 3 w' = 1.
Proof.
  observed line_world_safe_one_tick w' Hrun. intros -> -> -> -> _ _ _.
  repeat split.
Qed.

(** C10. Within a tick, when a sender's turn ends the buffer of new
    copies keeps what it held and every copy in it is stored at its
    destination, so that the senders that follow forward it in the same
    tick: in one tick of the line 1 - 2 - 3 - 4, where only node 1 holds
    the message, the message reaches node 4 through nodes 2 and 3, and
    nodes 1, 2 and 3 are each paid a relay reward. *)
Theorem multi_hop_in_one_tick :
  (∀ calculate_distance env nodes st a st',
     flood_from calculate_distance env nodes st a = Some st' →
     st.2 `prefix_of` st'.2 ∧ ∀ e, e ∈ st'.2 → stored e st'.1) ∧
  ∃ w' w env,
    simulation_tick meridian_distance env w = Some w' ∧
    history <$> inventory_of 1 w = [[1]] ∧
    (λ i, inventory_of i w) <$> [2; 3; 4] = [[]; []; []] ∧
    history <$> inventory_of 4 w' = [[1; 2; 3; 4]] ∧
    (λ i, balance_of i w' - balance_of i w) <$> [1; 2; 3]
    = [SAFETY_RELAY_REWARD; SAFETY_RELAY_REWARD; SAFETY_RELAY_REWARD].
Proof.
  split.
  { intros calculate_distance env nodes st a st' Hrun.
    by eapply flood_from_commits. }
  pose proof (proj1 (fmap_Some _ _ _) line_world_safe_one_tick)
    as (w' & Hrun & Hobs).
  exists w', line_world_safe, (env_at 1003). split; [exact Hrun|]. clear Hrun.
  components Hobs. intros _ -> _ _ -> -> ->. repeat split.
Qed.

(** * The theorems at work on the scenarios *)

Lemma ttl_expiry_witness :
  ∃ w', simulation_tick meridian_distance (env_at 1400) line_world_safe = Some w' ∧
        ∀ node_id inventory p,
          node_inventories w' !! node_id = Some inventory →
          p ∈ inventory → ¬ (created_at p == 1000)%Q.
Proof.
  destruct (simulation_tick meridian_distance (env_at 1400) line_world_safe)
    as [w'|] eqn:E.
  - exists w'. split; [reflexivity|].
    apply (ttl_expiry meridian_distance (env_at 1400) line_world_safe w' 1000 E).
    vm_compute. reflexivity.
  - vm_compute in E. discriminate E.
Defined.

Lemma dedup_preserved_witness :
  ∃ w', run_ticks meridian_distance [env_at 1003; env_at 1006] line_world_safe
        = Some w' ∧ dedup_ok w'.
Proof.
  destruct (run_ticks meridian_distance [env_at 1003; env_at 1006]
              line_world_safe) as [w'|] eqn:E.
  - exists w'. split; [reflexivity|].
    apply (dedup_preserved meridian_distance _ line_world_safe w' E).
    apply (bool_decide_unpack (dedup_ok line_world_safe)). vm_compute. exact I.
  - vm_compute in E. discriminate E.
Defined.

Lemma inventory_cap_at_flood_start_witness :
  ∃ w', simulation_tick meridian_distance (env_at 1003) line_world_safe
        = Some w' ∧
        cap_ok (locked_phase (env_at 1003) line_world_safe) ∧
        grown_from (locked_phase (env_at 1003) line_world_safe) w'.
Proof.
  destruct (simulation_tick meridian_distance (env_at 1003) line_world_safe)
    as [w'|] eqn:E.
  - exists w'. split; [reflexivity|].
    apply (inventory_cap_at_flood_start meridian_distance _ _ w' E).
  - vm_compute in E. discriminate E.
Defined.

Lemma ledger_accounting_witness :
  ∃ w', run_ticks meridian_distance [env_at 1003; env_at 1006] line_world_safe
        = Some w' ∧
        total_balance w'
        - UBI_AMOUNT * Z.of_nat (length (NODES line_world_safe))
          * ubi_rounds (tick_count (global_economy line_world_safe)) 2
        - (total_safety_subsidies (global_economy w')
           - total_safety_subsidies (global_economy line_world_safe))
        = total_balance line_world_safe.
Proof.
  destruct (run_ticks meridian_distance [env_at 1003; env_at 1006]
              line_world_safe) as [w'|] eqn:E.
  - exists w'. split; [reflexivity|].
    apply (ledger_accounting meridian_distance _ line_world_safe w' E).
    apply (bool_decide_unpack (all_safe line_world_safe)). vm_compute. exact I.
  - vm_compute in E. discriminate E.
Defined.

Lemma safe_relay_accounting_witness :
  ∃ w', run_ticks meridian_distance [env_at 1003; env_at 1006] line_world_safe
        = Some w' ∧
        ∀ j n n',
          NODES line_world_safe !! j = Some n → NODES w' !! j = Some n' →
          balance (wallet n') - balance (wallet n)
          = SAFETY_RELAY_REWARD
            * (total_sent (reputation n') - total_sent (reputation n))
            + UBI_AMOUNT
              * ubi_rounds (tick_count (global_economy line_world_safe)) 2.
Proof.
  destruct (run_ticks meridian_distance [env_at 1003; env_at 1006]
              line_world_safe) as [w'|] eqn:E.
  - exists w'. split; [reflexivity|].
    refine (proj2 (safe_relay_accounting meridian_distance
                     (publish_env 1000 "m1")
                     (mkRequest 1 "all clear" all_targets Safe)
                     line_world line_world_safe _ w' _ _ _ E)).
    + apply (bool_decide_unpack (all_safe line_world)). vm_compute. exact I.
    + reflexivity.
    + vm_compute. reflexivity.
  - vm_compute in E. discriminate E.
Defined.

Lemma multi_hop_in_one_tick_witness :
  let w := locked_phase (env_at 1003) line_world_safe in
  ∃ st', flood_from meridian_distance (env_at 1003) (NODES w) (w, [])
           (first_sender w) = Some st' ∧
         [] `prefix_of` st'.2 ∧ ∀ e, e ∈ st'.2 → stored e st'.1.
Proof.
  intros w.
  destruct (flood_from meridian_distance (env_at 1003) (NODES w) (w, [])
              (first_sender w)) as [st'|] eqn:E.
  - exists st'. split; [reflexivity|].
    apply (proj1 multi_hop_in_one_tick meridian_distance (env_at 1003)
             (NODES w) (w, []) (first_sender w) st' E).
  - vm_compute in E. discriminate E.
Defined.

(** * Further properties of the code *)

(** ** Wallet: the books of a wallet *)

Lemma apply_wallet_op_books w op :
  let w' := apply_wallet_op w op in
  wallet_node_id w' = wallet_node_id w ∧
  balance w' - total_earned w' + total_spent w' 
  = balance w - total_earned w + total_spent w ∧
  total_earned w <= total_earned w' ∧
  total_spent w <= total_spent w' ∧
  transaction_count w <= transaction_count w' <= transaction_count w + 1 ∧
  (0 <= balance w → 0 <= balance w').
Proof.
  destruct op as [amount|amount]; simpl.
  - unfold add_credits. destruct (Z.ltb_spec 0 amount); simpl; lia.
  - unfold spend_credits. destruct (Z.leb_spec amount 0); simpl; [lia|].
    destruct (Z.leb_spec amount (balance w)); simpl; lia.
Qed.

(** X1. Whatever credits are added to and spent from a new wallet, its
    balance is the initial credit plus what it earned less what it
    spent, both totals are non-negative, the transaction count is at most
    the number of operations, and a non-negative initial credit keeps the
    balance non-negative. *)
Theorem wallet_books_balanced (node_id initial : Z) (ops : list WalletOp) :
  let w := wallet_run ops (new_wallet node_id initial) in
  wallet_node_id w = node_id ∧
  balance w = initial + total_earned w - total_spent w ∧
  0 <= total_earned w ∧ 0 <= total_spent w ∧
  0 <= transaction_count w <= Z.of_nat (length ops) ∧
  (0 <= initial → 0 <= balance w).
Proof.
  cbv zeta. unfold wallet_run.
  cut (∀ w0,
         let w := foldl apply_wallet_op w0 ops in
         wallet_node_id w = wallet_node_id w0 ∧
         balance w - total_earned w + total_spent w
         = balance w0 - total_earned w0 + total_spent w0 ∧
         total_earned w0 <= total_earned w ∧
         total_spent w0 <= total_spent w ∧
         transaction_count w0 <= transaction_count w
         <= transaction_count w0 + Z.of_nat (length ops) ∧
         (0 <= balance w0 → 0 <= balance w)).
  { intros H. specialize (H (new_wallet node_id initial)). simpl in H.
    repeat split; try lia. }
  induction ops as [|op ops IH]; intros w0; simpl.
  - repeat split; lia.
  - specialize (IH (apply_wallet_op w0 op)). cbv zeta in IH.
    pose proof (apply_wallet_op_books w0 op) as Hop. cbv zeta in Hop.
    repeat split; try lia.
Qed.

Lemma wallet_books_balanced_witness :
  let w := wallet_run [op_add 10; op_spend 2; op_spend 500; op_add (-3)]
             (new_wallet 1 INITIAL_CREDITS) in
  balance w = 108 ∧ 0 <= balance w.
Proof.
  cbv zeta.
  pose proof (wallet_books_balanced 1 INITIAL_CREDITS
                [op_add 10; op_spend 2; op_spend 500; op_add (-3)])
    as (_ & Hbal & _ & _ & _ & Hpos).
  split.
  - rewrite Hbal. reflexivity.
  - apply Hpos. unfold INITIAL_CREDITS. lia.
Defined.

(** ** Reputation tracker: trust and updates *)

Lemma ratio_as_fraction (r s : Z) :
  0 < s → (inject_Z r / inject_Z s == r # Z.to_pos s)%Q.
Proof.
  intros Hs. destruct s as [|p|p]; try lia.
  unfold Qeq, Qdiv, Qmult, Qinv, inject_Z. simpl. lia.
Qed.

Lemma ratio_le (r r' s s' : Z) :
  0 < s → 0 < s' → r * s' <= r' * s →
  (inject_Z r / inject_Z s <= inject_Z r' / inject_Z s')%Q.
Proof.
  intros Hs Hs' Hle. rewrite !ratio_as_fraction by done.
  unfold Qle. simpl. rewrite !Z2Pos.id by done. done.
Qed.

Lemma ratio_threshold (t : Q) (r s : Z) :
  0 < s →
  (t <= inject_Z r / inject_Z s)%Q ↔ (t * inject_Z s <= inject_Z r)%Q.
Proof.
  intros Hs.
  assert (0 < inject_Z s)%Q as Hpos.
  { change 0%Q with (inject_Z 0). by rewrite <- Zlt_Qlt. }
  rewrite <- (Qmult_le_r _ _ _ Hpos).
  assert (inject_Z r / inject_Z s * inject_Z s == inject_Z r)%Q as ->; [|done].
  field. intros H0. rewrite H0 in Hpos. by apply Qlt_irrefl in Hpos.
Qed.

(** X2. A peer never observed, or never sent to, is trusted exactly when
    the threshold is at most 1; a peer sent [sent > 0] packets is trusted
    exactly when the threshold is at most 1 and [threshold * sent] is at
    most [relayed]. *)
Theorem is_peer_trusted_spec (rm : ReputationManager) (peer_id : Z)
    (threshold : Q) :
  (peer_stats rm !! peer_id = None →
   (is_peer_trusted rm peer_id threshold = true ↔ (threshold <= 1)%Q)) ∧
  (∀ s, peer_stats rm !! peer_id = Some s → sent s = 0 →
        (is_peer_trusted rm peer_id threshold = true ↔ (threshold <= 1)%Q)) ∧
  (∀ s, peer_stats rm !! peer_id = Some s → 0 < sent s →
        (is_peer_trusted rm peer_id threshold = true ↔
         (threshold <= 1)%Q ∧
         (threshold * inject_Z (sent s) <= inject_Z (relayed s))%Q)).
Proof.
  unfold is_peer_trusted, get_reputation_score. repeat split.
  - rewrite H. by apply Qle_bool_iff.
  - rewrite H. by apply Qle_bool_iff.
  - rewrite H, H0. by apply Qle_bool_iff.
  - rewrite H, H0. by apply Qle_bool_iff.
  - rewrite H in H1. destruct (Z.eqb_spec (sent s) 0); [lia|].
    apply Qle_bool_iff, Q.min_glb_iff in H1. tauto.
  - rewrite H in H1. destruct (Z.eqb_spec (sent s) 0); [lia|].
    apply Qle_bool_iff, Q.min_glb_iff in H1 as [_ H1].
    by apply ratio_threshold.
  - intros [H1 H2]. rewrite H. destruct (Z.eqb_spec (sent s) 0); [lia|].
    apply Qle_bool_iff, Q.min_glb_iff. split; [done|].
    by apply ratio_threshold.
Qed.

Lemma is_peer_trusted_spec_witness :
  let rm := record_successful_relay_by_peer 7
              (record_packet_sent_to_peer 7
                 (record_packet_sent_to_peer 7 (new_reputation 1))) in
  (is_peer_trusted rm 3 (7 # 10) = true ↔ (7 # 10 <= 1)%Q) ∧
  (is_peer_trusted rm 7 (7 # 10) = true ↔
   (7 # 10 <= 1)%Q ∧ ((7 # 10) * inject_Z 2 <= inject_Z 1)%Q).
Proof.
  intros rm.
  pose proof (is_peer_trusted_spec rm 3 (7 # 10)) as (Hnone & _).
  pose proof (is_peer_trusted_spec rm 7 (7 # 10)) as (_ & _ & Hsome).
  split.
  - apply Hnone. reflexivity.
  - apply (Hsome (mkPeerStats 2 1)); [reflexivity | simpl; lia].
Defined.

Lemma score_of_stats rm peer_id s :
  peer_stats rm !! peer_id = Some s → 0 < sent s →
  get_reputation_score rm peer_id
  = Qmin 1%Q (inject_Z (relayed s) / inject_Z (sent s))%Q.
Proof.
  intros Hs Hpos. unfold get_reputation_score. rewrite Hs.
  by destruct (Z.eqb_spec (sent s) 0); [lia|].
Qed.

Lemma score_at_most_one rm peer_id : (get_reputation_score rm peer_id <= 1)%Q.
Proof.
  unfold get_reputation_score.
  destruct (peer_stats rm !! peer_id) as [s|]; [|lra].
  destruct (sent s =? 0); [lra | apply Q.le_min_l].
Qed.

Lemma score_of_unsent rm peer_id s :
  peer_stats rm !! peer_id = Some s → sent s = 0 →
  get_reputation_score rm peer_id = 1%Q.
Proof. intros Hs H0. unfold get_reputation_score. by rewrite Hs, H0. Qed.

Lemma score_of_unseen rm peer_id :
  peer_stats rm !! peer_id = None → get_reputation_score rm peer_id = 1%Q.
Proof. intros Hs. unfold get_reputation_score. by rewrite Hs. Qed.

Lemma record_relayed_lookup rm peer_id :
  peer_stats (record_successful_relay_by_peer peer_id rm) !! peer_id
  = Some (mkPeerStats (sent (stats_or_new rm peer_id))
                      (relayed (stats_or_new rm peer_id) + 1)).
Proof. apply lookup_insert_eq. Qed.

Lemma record_sent_lookup rm peer_id :
  peer_stats (record_packet_sent_to_peer peer_id rm) !! peer_id
  = Some (mkPeerStats (sent (stats_or_new rm peer_id) + 1)
                      (relayed (stats_or_new rm peer_id))).
Proof. apply lookup_insert_eq. Qed.

Lemma stats_or_new_seen rm peer_id s :
  peer_stats rm !! peer_id = Some s → stats_or_new rm peer_id = s.
Proof. intros Hs. unfold stats_or_new. by rewrite Hs. Qed.

Lemma stats_or_new_unseen rm peer_id :
  peer_stats rm !! peer_id = None → stats_or_new rm peer_id = mkPeerStats 0 0.
Proof. intros Hs. unfold stats_or_new. by rewrite Hs. Qed.

(** X3. In a tracker built by the two recorders, recording a relay by a
    peer never lowers that peer's score, recording a packet sent to a
    peer never raises it, and neither changes the score of another
    peer. *)
Theorem reputation_updates (rm : ReputationManager) (peer_id other : Z) :
  reputation_reachable rm →
  (get_reputation_score rm peer_id
   <= get_reputation_score (record_successful_relay_by_peer peer_id rm) peer_id)%Q ∧
  (get_reputation_score (record_packet_sent_to_peer peer_id rm) peer_id
   <= get_reputation_score rm peer_id)%Q ∧
  (other ≠ peer_id →
   get_reputation_score (record_successful_relay_by_peer peer_id rm) other
   = get_reputation_score rm other ∧
   get_reputation_score (record_packet_sent_to_peer peer_id rm) other
   = get_reputation_score rm other).
Proof.
  intros Hreach. pose proof (reachable_counters_nonneg rm Hreach) as Hnn.
  pose proof (record_relayed_lookup rm peer_id) as Hrel.
  pose proof (record_sent_lookup rm peer_id) as Hsent.
  split; [|split].
  - destruct (peer_stats rm !! peer_id) as [s|] eqn:E.
    + rewrite (stats_or_new_seen _ _ _ E) in Hrel.
      destruct (Hnn _ _ E) as [Hs Hr].
      destruct (decide (sent s = 0)) as [H0|H0].
      * rewrite (score_of_unsent _ _ _ Hrel) by done. apply score_at_most_one.
      * rewrite (score_of_stats rm peer_id s) by (done || lia).
        rewrite (score_of_stats _ _ _ Hrel) by (simpl; lia).
        simpl. apply Q.min_le_compat_l. apply ratio_le; lia.
    + rewrite (stats_or_new_unseen _ _ E) in Hrel.
      rewrite (score_of_unsent _ _ _ Hrel) by done. apply score_at_most_one.
  - destruct (peer_stats rm !! peer_id) as [s|] eqn:E.
    + rewrite (stats_or_new_seen _ _ _ E) in Hsent.
      destruct (Hnn _ _ E) as [Hs Hr].
      rewrite (score_of_stats _ _ _ Hsent) by (simpl; lia).
      destruct (decide (sent s = 0)) as [H0|H0].
      * rewrite (score_of_unsent rm peer_id s) by done. apply Q.le_min_l.
      * rewrite (score_of_stats rm peer_id s) by (done || lia).
        simpl. apply Q.min_le_compat_l. apply ratio_le; nia.
    + rewrite (score_of_unseen rm peer_id) by done. apply score_at_most_one.
  - intros Hne. unfold get_reputation_score. simpl.
    by rewrite !lookup_insert_ne.
Qed.

Lemma reputation_updates_witness :
  let rm := record_packet_sent_to_peer 7 (new_reputation 1) in
  (get_reputation_score rm 7
   <= get_reputation_score (record_successful_relay_by_peer 7 rm) 7)%Q ∧
  (get_reputation_score (record_packet_sent_to_peer 7 rm) 7
   <= get_reputation_score rm 7)%Q.
Proof.
  intros rm.
  pose proof (reputation_updates rm 7 3) as (Hup & Hdown & _).
  - unfold rm. repeat constructor.
  - split; [exact Hup | exact Hdown].
Defined.

(** ** Cleanup and contention resolution, one inventory at a time *)

(** X4. The cleanup keeps the packets within the TTL, in their order,
    and of these the last MAX_INVENTORY_SIZE when there are more: the
    oldest entries of the inventory are the ones evicted. *)
Theorem cleanup_keeps_newest (now : Q) (inventory : list MessagePacket) :
  cleanup_inventory now inventory
  `suffix_of` filter (λ p, within_ttl now p) inventory ∧
  length (cleanup_inventory now inventory)
  = Nat.min MAX_INVENTORY_SIZE
            (length (filter (λ p, within_ttl now p) inventory)).
Proof.
  unfold cleanup_inventory.
  destruct (Nat.ltb_spec MAX_INVENTORY_SIZE
              (length (filter (λ p, within_ttl now p) inventory))).
  - split; [apply suffix_drop|]. rewrite length_drop. lia.
  - split; [done | lia].
Qed.

(** X5. Contention resolution keeps the set of node ids of the
    dictionary and returns, for each node, packets of its inventory in
    their original order: it drops packets, and never adds, copies or
    reorders any. *)
Theorem crdsa_only_drops (enabled : bool) (draws : Z → nat → list nat)
    (inventories : gmap Z (list MessagePacket)) (node_id : Z) :
  option_Forall2 sublist
    (apply_crdsa_collision_simulation enabled draws inventories !! node_id)
    (inventories !! node_id).
Proof.
  unfold apply_crdsa_collision_simulation. destruct enabled.
  - rewrite map_lookup_imap.
    destruct (inventories !! node_id) as [packets|]; simpl; constructor.
    apply crdsa_resolve_sublist.
  - destruct (inventories !! node_id); by constructor.
Qed.

(** ** The flooding phase, sender by sender *)

Lemma commit_packet_frame w entry w' :
  commit_packet w entry = Some w' →
  CONNECTIONS w' = CONNECTIONS w ∧ CRDSA_ENABLED w' = CRDSA_ENABLED w ∧
  dom (node_inventories w') = dom (node_inventories w).
Proof.
  unfold commit_packet. intros Hrun.
  destruct (node_inventories w !! entry.1) as [inventory|] eqn:E;
    simpl in Hrun; [|done].
  destruct (existsb _ _); [by simplify_eq|].
  destruct (py_index _ _) as [idx|]; simplify_eq/=.
  split; [done|]. split; [done|].
  apply dom_insert_lookup_L. by eexists.
Qed.

Lemma relay_packet_new_copy env ia a b st p st' :
  relay_packet env ia a b st p = Some st' → b ∉ history p →
  ∃ u, st'.2 = st.2 ++ [(b, copy_for u b p)].
Proof.
  unfold relay_packet. intros H Hnew.
  rewrite bool_decide_false in H by done.
  destruct (relay_terms p) as [reward ty].
  destruct (credit_previous_hop _ _ _) as [w3|] eqn:E; simplify_eq/=.
  eauto.
Qed.

(** Invariant rule of the flooding phase that tells who relays to whom:
    a relay is made by a cooperating node of the registry to a node in
    contact that the packet has not visited. *)
Lemma flood_contact_rule calculate_distance env w (I : FloodState → Prop) st :
  (∀ ia node_a node_b s p s' packets,
     NODES w !! ia = Some node_a → node_b ∈ NODES w →
     id node_a ≠ id node_b → auto_relay node_a = true →
     in_contact calculate_distance w node_a node_b = true →
     length (NODES s.1) = length (NODES w) →
     node_inventories s.1 !! id node_a = Some packets → p ∈ packets →
     id node_b ∉ history p →
     relay_packet env ia (id node_a) (id node_b) s p = Some s' →
     I s → I s') →
  (∀ w1 buf e w2,
     e ∈ buf → commit_packet w1 e = Some w2 → I (w1, buf) → I (w2, buf)) →
  flood calculate_distance env w = Some st → I (w, []) → I st.
Proof.
  intros Hrelay Hcommit Hrun Hstart. unfold flood in Hrun.
  cut (I st ∧ length (NODES st.1) = length (NODES w)
       ∧ CONNECTIONS st.1 = CONNECTIONS w); [by intros [? _]|].
  apply (for_each_ind
           (λ s, I s ∧ length (NODES s.1) = length (NODES w)
                 ∧ CONNECTIONS s.1 = CONNECTIONS w) _ _ _ _ Hrun);
    [done|].
  intros s0 [ia node_a] s3 Hin (Hs0 & Hlen0 & Hcon0) Hstep.
  apply enumerate_lookup in Hin.
  unfold flood_from in Hstep. simpl in Hstep.
  destruct (for_each (visit_neighbour _ _ _ _) s0 (NODES w)) as [s1|] eqn:E1;
    simpl in Hstep; [|done].
  destruct (for_each commit_packet s1.1 s1.2) as [w2|] eqn:E2; simplify_eq/=.
  assert (I s1 ∧ length (NODES s1.1) = length (NODES w)
          ∧ CONNECTIONS s1.1 = CONNECTIONS w) as (Hs1 & Hlen1 & Hcon1).
  { apply (for_each_ind
             (λ s, I s ∧ length (NODES s.1) = length (NODES w)
                   ∧ CONNECTIONS s.1 = CONNECTIONS w) _ _ _ _ E1);
      [done|].
    intros s node_b s' Hb (Hs & Hlen & Hcon) Hvisit.
    unfold visit_neighbour in Hvisit.
    destruct (decide (id node_a = id node_b)) as [|Hne]; [by simplify_eq|].
    destruct (in_contact _ _ _ _) eqn:Hcontact; [|by simplify_eq].
    destruct (auto_relay node_a) eqn:Hauto; [|by simplify_eq].
    destruct (node_inventories s.1 !! id node_a) as [packets|] eqn:Einv;
      simpl in Hvisit; [|done].
    assert (in_contact calculate_distance w node_a node_b = true) as Hcw.
    { unfold in_contact in *. by rewrite <- Hcon. }
    cut ((I s' ∧ length (NODES s'.1) = length (NODES w)
          ∧ CONNECTIONS s'.1 = CONNECTIONS w)
         ∧ node_inventories s'.1 = node_inventories s.1); [by intros [? _]|].
    apply (for_each_ind
             (λ x, (I x ∧ length (NODES x.1) = length (NODES w)
                    ∧ CONNECTIONS x.1 = CONNECTIONS w)
                   ∧ node_inventories x.1 = node_inventories s.1)
             _ _ _ _ Hvisit); [done|].
    intros x p x' Hp [(Hx & Hlenx & Hconx) Hinvx] Hstep.
    pose proof (relay_packet_frame _ _ _ _ _ _ _ Hstep) as (Hi' & Hc' & Hl').
    split; [split; [|split]|]; [|congruence..].
    destruct (decide (id node_b ∈ history p)) as [Hvisited|Hnew].
    { by apply relay_packet_visited in Hstep as ->. }
    eapply (Hrelay ia node_a node_b x p x' packets); try done.
    by rewrite Hinvx. }
  cut (I (w2, s1.2) ∧ length (NODES w2) = length (NODES w)
       ∧ CONNECTIONS w2 = CONNECTIONS w); [done|].
  apply (for_each_ind
           (λ x, I (x, s1.2) ∧ length (NODES x) = length (NODES w)
                 ∧ CONNECTIONS x = CONNECTIONS w) _ _ _ _ E2).
  - by destruct s1.
  - intros x e x' He (Hx & Hlenx & Hconx) Hstep.
    pose proof (commit_packet_books _ _ _ Hstep) as (_ & Hl' & _).
    pose proof (commit_packet_frame _ _ _ Hstep) as (Hc' & _).
    split; [by eapply Hcommit | split; congruence].
Qed.

(** ** Routes *)

Lemma route_ok_copy holder u b p :
  route_ok holder p → b ∉ history p → route_ok b (copy_for u b p).
Proof.
  intros (Hnd & Hhead & Hlast) Hnew. unfold route_ok. simpl.
  split; [|split].
  - apply NoDup_app. split; [done|]. split; [|apply NoDup_singleton].
    intros x Hx ->%list_elem_of_singleton. done.
  - destruct (history p); [done|]. done.
  - apply last_snoc.
Qed.

Lemma routes_ok_lookup w holder inventory p :
  routes_ok w → node_inventories w !! holder = Some inventory →
  p ∈ inventory → route_ok holder p.
Proof.
  intros Hok Hinv Hp.
  pose proof (map_Forall_lookup_1 _ _ _ _ Hok Hinv) as HF.
  by eapply Forall_forall in HF.
Qed.

Lemma commit_packet_routes w entry w' :
  commit_packet w entry = Some w' →
  route_ok entry.1 entry.2 → routes_ok w → routes_ok w'.
Proof.
  unfold commit_packet. intros Hrun Hp Hok.
  destruct (node_inventories w !! entry.1) as [inventory|] eqn:E;
    simpl in Hrun; [|done].
  destruct (existsb _ _); [by simplify_eq|].
  destruct (py_index _ _) as [idx|]; simplify_eq/=.
  unfold routes_ok. simpl. apply map_Forall_insert_2; [|done].
  apply Forall_app. split; [|by apply Forall_singleton].
  by apply (map_Forall_lookup_1 _ _ _ _ Hok E).
Qed.

Lemma flood_routes calculate_distance env w st :
  flood calculate_distance env w = Some st → routes_ok w → routes_ok st.1.
Proof.
  intros Hrun Hok.
  cut (routes_ok st.1 ∧ Forall (λ e, route_ok e.1 e.2) st.2); [by intros [? _]|].
  apply (flood_contact_rule calculate_distance env w
           (λ s, routes_ok s.1 ∧ Forall (λ e, route_ok e.1 e.2) s.2) st);
    [| |done|].
  - cbv beta.
    intros ia node_a node_b s p s' packets _ _ _ _ _ _ Hinv Hp Hnew Hstep
      [Hroutes Hbuf].
    pose proof (relay_packet_frame _ _ _ _ _ _ _ Hstep) as (Heq & _).
    destruct (relay_packet_new_copy _ _ _ _ _ _ _ Hstep Hnew) as [u ->].
    split.
    + unfold routes_ok. by rewrite Heq.
    + apply Forall_app. split; [done|]. apply Forall_singleton. simpl.
      eapply route_ok_copy; [|done]. by eapply routes_ok_lookup.
  - cbv beta. intros w1 buf e w2 He Hstep [Hroutes Hbuf]. simpl in *.
    split; [|done]. eapply commit_packet_routes; [done| |done].
    by apply (proj1 (Forall_forall _ _) Hbuf e He).
  - split; [done | apply Forall_nil_2].
Qed.

Lemma locked_phase_routes env w : routes_ok w → routes_ok (locked_phase env w).
Proof.
  intros Hok holder inventory' Hlook.
  rewrite locked_phase_lookup in Hlook.
  destruct (node_inventories w !! holder) as [inventory|] eqn:E; simplify_eq/=.
  apply Forall_forall. intros p Hp.
  eapply routes_ok_lookup; [done..|].
  eapply elem_of_sublist; [done | apply locked_inventory_sublist].
Qed.

Lemma simulation_tick_routes calculate_distance env w w' :
  simulation_tick calculate_distance env w = Some w' →
  routes_ok w → routes_ok w'.
Proof.
  unfold simulation_tick. intros Hrun Hok.
  destruct (flood _ _ _) as [st|] eqn:E; simplify_eq/=.
  eapply flood_routes; [done|]. by apply locked_phase_routes.
Qed.

(** X6. Ticks keep the shape of every stored route: the history of a
    stored packet names no node twice (the anti-loop rule), starts with
    the publisher and ends with the node that holds the packet. *)
Theorem ticks_keep_routes calculate_distance envs w w' :
  run_ticks calculate_distance envs w = Some w' →
  routes_ok w → routes_ok w'.
Proof.
  revert w. induction envs as [|env envs IH]; intros w Hrun Hok;
    simpl in Hrun.
  - by simplify_eq.
  - destruct (simulation_tick _ env w) as [w1|] eqn:E; simpl in Hrun; [|done].
    apply (IH w1 Hrun). by eapply simulation_tick_routes.
Qed.

Lemma publish_message_routes penv request w w' :
  publish_message penv request w = Some (published w') →
  routes_ok w → routes_ok w'.
Proof.
  intros Hrun Hok.
  destruct (publish_message_inventories _ _ _ _ Hrun)
    as (inventory & Hlook & Hinv' & _).
  unfold routes_ok. rewrite Hinv'. apply map_Forall_insert_2; [|done].
  apply Forall_app. split.
  - by apply (map_Forall_lookup_1 _ _ _ _ Hok Hlook).
  - apply Forall_singleton. unfold route_ok. simpl.
    split; [apply NoDup_singleton | done].
Qed.

Lemma initial_world_routes positions : routes_ok (initial_world positions).
Proof.
  intros k inventory Hlook. simpl in Hlook.
  apply empty_inventories_lookup in Hlook as ->. apply Forall_nil_2.
Qed.

Lemma reachable_routes calculate_distance w :
  reachable calculate_distance w → routes_ok w.
Proof.
  induction 1 as [positions Hlen | env w w' _ IH Hrun
                 | penv request w w' _ IH Hfresh Hrun
                 | node_a node_b w _ IH].
  - apply initial_world_routes.
  - by eapply simulation_tick_routes.
  - by eapply publish_message_routes.
  - destruct (add_connection_inventories node_a node_b w) as [Hinv _].
    unfold routes_ok. by rewrite Hinv.
Qed.

(** X7. Every world that start-up, ticks, accepted publications of new
    messages and link requests produce is well formed (so the next tick
    raises no exception), holds no two packets of one identity in one
    inventory, and stores only well-shaped routes. *)
Theorem reachable_worlds_sound calculate_distance w :
  reachable calculate_distance w →
  well_formed w ∧ dedup_ok w ∧ routes_ok w.
Proof.
  intros Hreach.
  destruct (reachable_invariants _ _ Hreach) as [Hwf Hdedup].
  split; [done|]. split; [done|]. by eapply reachable_routes.
Qed.

(** ** What a tick leaves alone and what it only grows *)

Lemma alter_pointwise (R : relation NodeRuntime) `{!Reflexive R}
    (f : NodeRuntime → NodeRuntime) (j : nat) (ns : list NodeRuntime) (i : nat) :
  (∀ n, R n (f n)) → option_Forall2 R (ns !! i) (alter f j ns !! i).
Proof.
  intros Hf. rewrite list_lookup_alter.
  destruct (decide (j = i)) as [->|_]; [|reflexivity].
  destruct (ns !! i); simpl; constructor. apply Hf.
Qed.

Section Pointwise.

Variable R : relation NodeRuntime.
Context `{!PreOrder R}.
Hypothesis R_pay : ∀ r n, R n (with_wallet (add_credits r) n).
Hypothesis R_relayed :
  ∀ a n, R n (with_reputation (record_successful_relay_by_peer a) n).
Hypothesis R_sent :
  ∀ b n, R n (with_reputation (record_packet_sent_to_peer b) n).
Hypothesis R_known : ∀ m n, R n (with_known_message m n).

Lemma credit_previous_hop_pointwise a p w w' i :
  credit_previous_hop a p w = Some w' →
  option_Forall2 R (NODES w !! i) (NODES w' !! i).
Proof.
  unfold credit_previous_hop. intros H.
  destruct (1 <? length (history p))%nat; [|simplify_eq; reflexivity].
  destruct (last (history p)) as [prev|]; [|simplify_eq; reflexivity].
  destruct (decide (prev = publisher_id p)); [simplify_eq; reflexivity|].
  destruct (py_index (length (NODES w)) (prev - 1)) as [idx|]; simplify_eq/=.
  apply (alter_pointwise R
           (with_reputation (record_successful_relay_by_peer a))).
  intros nd. apply R_relayed.
Qed.

Lemma relay_packet_pointwise env ia a b st p st' i :
  relay_packet env ia a b st p = Some st' →
  option_Forall2 R (NODES st.1 !! i) (NODES st'.1 !! i).
Proof.
  unfold relay_packet. intros H.
  destruct (bool_decide (b ∈ history p)); [simplify_eq; reflexivity|].
  destruct (relay_terms p) as [reward ty].
  destruct (credit_previous_hop _ _ _) as [w3|] eqn:E; simplify_eq/=.
  apply (credit_previous_hop_pointwise _ _ _ _ i) in E. simpl in E.
  etrans;
    [|apply (alter_pointwise R
               (with_reputation (record_packet_sent_to_peer b)));
      intros nd; apply R_sent].
  etrans; [|exact E].
  apply (alter_pointwise R (with_wallet (add_credits reward))).
  intros nd. apply R_pay.
Qed.

Lemma commit_packet_pointwise w entry w' i :
  commit_packet w entry = Some w' →
  option_Forall2 R (NODES w !! i) (NODES w' !! i).
Proof.
  unfold commit_packet. intros Hrun.
  destruct (node_inventories w !! entry.1) as [inventory|];
    simpl in Hrun; [|done].
  destruct (existsb _ _); [simplify_eq; reflexivity|].
  destruct (py_index _ _) as [idx|]; simplify_eq/=.
  apply (alter_pointwise R
           (with_known_message (original_message_id entry.2))).
  intros nd. apply R_known.
Qed.

Lemma locked_phase_pointwise env w i :
  option_Forall2 R (NODES w !! i) (NODES (locked_phase env w) !! i).
Proof.
  destruct (locked_phase_nodes env w) as [_ ->].
  destruct (_ =? _); [|reflexivity].
  rewrite list_lookup_fmap. destruct (NODES w !! i); simpl; constructor.
  apply R_pay.
Qed.

Lemma simulation_tick_pointwise calculate_distance env w w' i :
  simulation_tick calculate_distance env w = Some w' →
  option_Forall2 R (NODES w !! i) (NODES w' !! i).
Proof.
  unfold simulation_tick. intros Hrun.
  destruct (flood _ _ _) as [st|] eqn:E; simplify_eq/=.
  etrans; [apply (locked_phase_pointwise env)|].
  apply (flood_rule calculate_distance env (locked_phase env w)
           (λ s, option_Forall2 R (NODES (locked_phase env w) !! i)
                                  (NODES s.1 !! i)) st); [| |done|reflexivity].
  - cbv beta. intros ia node_a b s p s' packets _ _ _ Hstep Hs.
    etrans; [exact Hs|]. by eapply relay_packet_pointwise.
  - cbv beta. intros w1 buf e w2 _ Hstep Hs. simpl in *.
    etrans; [exact Hs|]. by eapply commit_packet_pointwise.
Qed.

Lemma run_ticks_pointwise calculate_distance envs : ∀ w w' i,
  run_ticks calculate_distance envs w = Some w' →
  option_Forall2 R (NODES w !! i) (NODES w' !! i).
Proof.
  induction envs as [|env envs IH]; intros w w' i Hrun; simpl in Hrun.
  - simplify_eq. reflexivity.
  - destruct (simulation_tick _ env w) as [w1|] eqn:E; simpl in Hrun; [|done].
    etrans; [by eapply simulation_tick_pointwise | by apply IH].
Qed.

End Pointwise.

Lemma relay_packet_flag env ia a b st p st' :
  relay_packet env ia a b st p = Some st' →
  CRDSA_ENABLED st'.1 = CRDSA_ENABLED st.1.
Proof.
  unfold relay_packet. intros H.
  destruct (bool_decide (b ∈ history p)); [by simplify_eq|].
  destruct (relay_terms p) as [reward ty].
  destruct (credit_previous_hop _ _ _) as [w3|] eqn:E; simplify_eq/=.
  unfold credit_previous_hop in E.
  destruct (1 <? length (history p))%nat; [|by simplify_eq].
  destruct (last (history p)) as [prev|]; [|by simplify_eq].
  destruct (decide (prev = publisher_id p)); [by simplify_eq|].
  destruct (py_index _ _) as [idx|]; by simplify_eq/=.
Qed.

Lemma locked_phase_config env w :
  CONNECTIONS (locked_phase env w) = CONNECTIONS w ∧
  CRDSA_ENABLED (locked_phase env w) = CRDSA_ENABLED w ∧
  dom (node_inventories (locked_phase env w)) = dom (node_inventories w).
Proof.
  split; [|split].
  - unfold locked_phase, ubi_distribution. simpl. by destruct (_ =? _).
  - unfold locked_phase, ubi_distribution. simpl. by destruct (_ =? _).
  - apply set_eq. intros k. rewrite !elem_of_dom, locked_phase_lookup.
    by rewrite fmap_is_Some.
Qed.

Lemma simulation_tick_config calculate_distance env w w' :
  simulation_tick calculate_distance env w = Some w' →
  CONNECTIONS w' = CONNECTIONS w ∧ CRDSA_ENABLED w' = CRDSA_ENABLED w ∧
  dom (node_inventories w') = dom (node_inventories w).
Proof.
  unfold simulation_tick. intros Hrun.
  destruct (flood _ _ _) as [st|] eqn:E; simplify_eq/=.
  destruct (locked_phase_config env w) as (Hc & Hf & Hd).
  rewrite <- Hc, <- Hf, <- Hd.
  apply (flood_rule calculate_distance env (locked_phase env w)
           (λ s, CONNECTIONS s.1 = CONNECTIONS (locked_phase env w) ∧
                 CRDSA_ENABLED s.1 = CRDSA_ENABLED (locked_phase env w) ∧
                 dom (node_inventories s.1)
                 = dom (node_inventories (locked_phase env w))) st);
    [| |done|done].
  - cbv beta. intros ia node_a b s p s' packets _ _ _ Hstep (H1 & H2 & H3).
    pose proof (relay_packet_frame _ _ _ _ _ _ _ Hstep) as (Hi & Hc' & _).
    pose proof (relay_packet_flag _ _ _ _ _ _ _ Hstep) as Hf'.
    rewrite Hi, Hc', Hf'. done.
  - cbv beta. intros w1 buf e w2 _ Hstep (H1 & H2 & H3). simpl in *.
    pose proof (commit_packet_frame _ _ _ Hstep) as (Hc' & Hf' & Hd').
    rewrite Hc', Hf', Hd'. done.
Qed.

Lemma node_grows_steps :
  (∀ r n, node_grows n (with_wallet (add_credits r) n)) ∧
  (∀ a n, node_grows n (with_reputation (record_successful_relay_by_peer a) n)) ∧
  (∀ b n, node_grows n (with_reputation (record_packet_sent_to_peer b) n)) ∧
  (∀ m n, node_grows n (with_known_message m n)).
Proof.
  unfold node_grows. repeat split; simpl; try (done || lia).
  - unfold add_credits. destruct (Z.ltb_spec 0 r); simpl; lia.
  - unfold add_credits. destruct (Z.ltb_spec 0 r); simpl; lia.
  - unfold add_credits. by destruct (Z.ltb_spec 0 r).
  - rewrite total_sent_record_relayed. lia.
  - rewrite total_sent_record_sent. lia.
  - set_solver.
Qed.

(** X8. A tick leaves the links, the CRDSA switch, the set of inventory
    keys and every node's id, position, range and cooperation flag as
    they are; it never debits a wallet and never removes a known message:
    balances, earnings, counts of forwards and known messages only
    grow. *)
Theorem ticks_only_grow_nodes calculate_distance envs w w' :
  run_ticks calculate_distance envs w = Some w' →
  CONNECTIONS w' = CONNECTIONS w ∧ CRDSA_ENABLED w' = CRDSA_ENABLED w ∧
  dom (node_inventories w') = dom (node_inventories w) ∧
  ∀ i, option_Forall2 node_grows (NODES w !! i) (NODES w' !! i).
Proof.
  intros Hrun.
  destruct node_grows_steps as (H1 & H2 & H3 & H4).
  split; [|split; [|split]].
  4:{ intros i. by eapply (run_ticks_pointwise node_grows). }
  all: revert w Hrun; induction envs as [|env envs IH]; intros w Hrun;
    simpl in Hrun; [by simplify_eq|];
    destruct (simulation_tick _ env w) as [w1|] eqn:E; simpl in Hrun; [|done];
    destruct (simulation_tick_config _ _ _ _ E) as (Hc & Hf & Hd);
    rewrite (IH w1 Hrun); done.
Qed.

(** ** Where stored packets come from *)

Lemma descends_from_copy w u b p :
  descends_from w p → descends_from w (copy_for u b p).
Proof.
  intros (holder & inventory & p0 & Hlook & Hp0 & Hc & Hpre).
  exists holder, inventory, p0. split; [done|]. split; [done|]. split.
  - rewrite Hc. reflexivity.
  - simpl. by apply prefix_app_r.
Qed.

Lemma descends_from_trans w w1 p :
  all_packets (descends_from w) w1 → descends_from w1 p → descends_from w p.
Proof.
  intros Hall (holder & inventory & p1 & Hlook & Hp1 & Hc & Hpre).
  destruct (all_packets_lookup _ _ _ _ _ Hall Hlook Hp1)
    as (holder0 & inventory0 & p0 & Hlook0 & Hp0 & Hc0 & Hpre0).
  exists holder0, inventory0, p0. split; [done|]. split; [done|]. split.
  - congruence.
  - by etrans.
Qed.

Lemma simulation_tick_descends calculate_distance env w w' :
  simulation_tick calculate_distance env w = Some w' →
  all_packets (descends_from w) w'.
Proof.
  unfold simulation_tick. intros Hrun.
  destruct (flood _ _ _) as [st|] eqn:E; simplify_eq/=.
  eapply (flood_all_packets _ (descends_from w)) in E as [Hall _]; [done| |].
  - intros u b p. apply descends_from_copy.
  - intros holder inventory' Hlook. rewrite locked_phase_lookup in Hlook.
    destruct (node_inventories w !! holder) as [inventory|] eqn:Einv;
      simplify_eq/=.
    apply Forall_forall. intros p Hp.
    exists holder, inventory, p. split; [done|]. split; [|done].
    eapply elem_of_sublist; [done | apply locked_inventory_sublist].
Qed.

(** X9. Ticks invent no message: every packet stored after any number
    of ticks has the original message id, publisher, targets, text,
    creation time, class, network tag and cryptographic fields of a
    packet stored before them, and a history that continues that
    packet's history. *)
Theorem ticks_invent_nothing calculate_distance envs w w' :
  run_ticks calculate_distance envs w = Some w' →
  all_packets (descends_from w) w'.
Proof.
  revert w. induction envs as [|env envs IH]; intros w Hrun; simpl in Hrun.
  - simplify_eq. intros holder inventory Hlook. apply Forall_forall.
    intros p Hp. by exists holder, inventory, p.
  - destruct (simulation_tick _ env w) as [w1|] eqn:E; simpl in Hrun; [|done].
    pose proof (simulation_tick_descends _ _ _ _ E) as H1.
    intros holder inventory Hlook. apply Forall_forall. intros p Hp.
    apply (descends_from_trans w w1); [done|].
    exact (all_packets_lookup _ _ _ _ _ (IH w1 Hrun) Hlook Hp).
Qed.

(** ** The tick raises no exception *)

(** X10. On a well-formed world (node [i] at position [i - 1] of the
    registry, an inventory for every node, histories that name nodes of
    the registry) no dictionary or list lookup of any number of ticks
    fails, and the world stays well formed with the same number of
    nodes. *)
Theorem ticks_never_raise calculate_distance envs w :
  well_formed w →
  ∃ w', run_ticks calculate_distance envs w = Some w' ∧
        well_formed w' ∧ length (NODES w') = length (NODES w).
Proof.
  revert w. induction envs as [|env envs IH]; intros w Hwf; simpl.
  - by exists w.
  - destruct (simulation_tick_total calculate_distance env w Hwf)
      as (w1 & -> & Hwf1 & Hlen1).
    simpl. destruct (IH w1 Hwf1) as (w' & Hrun & Hwf' & Hlen').
    exists w'. split; [done|]. split; [done | congruence].
Qed.

(** X11. The one lookup of the relay step that depends on packet data,
    [NODES[packet.history[-1] - 1]], raises exactly when the packet has
    been relayed before, its last hop is not the publisher and that hop's
    id less one is no valid index of the registry, positive or
    negative. *)
Theorem previous_hop_lookup_raises (node_a_id : Z) (packet : MessagePacket)
    (w : World) :
  credit_previous_hop node_a_id packet w = None ↔
  (1 < length (history packet))%nat ∧
  ∃ previous_hop_id,
    last (history packet) = Some previous_hop_id ∧
    previous_hop_id ≠ publisher_id packet ∧
    ¬ (- Z.of_nat (length (NODES w)) <= previous_hop_id - 1
       < Z.of_nat (length (NODES w))).
Proof.
  unfold credit_previous_hop, py_index.
  destruct (Nat.ltb_spec 1 (length (history packet))) as [Hlong|Hshort].
  2:{ split; [done | lia]. }
  destruct (last (history packet)) as [prev|] eqn:Elast.
  2:{ split; [done|]. intros (_ & prev & Hprev & _). done. }
  destruct (decide (prev = publisher_id packet)) as [Heq|Hne].
  { split; [done|]. intros (_ & prev' & Hprev & Hne & _). by simplify_eq. }
  destruct (Z.leb_spec 0 (prev - 1)), (Z.ltb_spec (prev - 1)
                                         (Z.of_nat (length (NODES w))));
    simpl.
  - split; [done|]. intros (_ & prev' & Hprev & _ & Hout). simplify_eq. lia.
  - destruct (Z.leb_spec (- Z.of_nat (length (NODES w))) (prev - 1)),
      (Z.ltb_spec (prev - 1) 0); simpl; try lia.
    split; [|done]. intros _. split; [done|]. exists prev. split; [done|].
    split; [done | lia].
  - destruct (Z.leb_spec (- Z.of_nat (length (NODES w))) (prev - 1)),
      (Z.ltb_spec (prev - 1) 0); simpl; try lia.
    + split; [done|]. intros (_ & prev' & Hprev & _ & Hout). simplify_eq. lia.
    + split; [|done]. intros _. split; [done|]. exists prev. split; [done|].
      split; [done | lia].
  - lia.
Qed.

(** ** Nodes that do not relay, nodes that nobody reaches *)

Lemma static_fields_eq n n' :
  static_fields n' = static_fields n →
  id n' = id n ∧ latitude n' = latitude n ∧ longitude n' = longitude n ∧
  range n' = range n ∧ auto_relay n' = auto_relay n.
Proof. unfold static_fields. intros H. injection H. intros. done. Qed.

Lemma node_grows_static (ns ns' : list NodeRuntime) :
  (∀ i, option_Forall2 node_grows (ns !! i) (ns' !! i)) →
  ∀ n', n' ∈ ns' → ∃ n, n ∈ ns ∧ static_fields n' = static_fields n.
Proof.
  intros Hpt n' [i Hi]%list_elem_of_lookup_1.
  specialize (Hpt i). rewrite Hi in Hpt. inversion Hpt as [n ? Hg Hn|]; subst.
  exists n. split; [by eapply list_elem_of_lookup_2 | by destruct Hg].
Qed.

Lemma selfish_grows w w' k :
  (∀ i, option_Forall2 node_grows (NODES w !! i) (NODES w' !! i)) →
  selfish w k → selfish w' k.
Proof.
  unfold selfish. rewrite !Forall_forall. intros Hpt Hs n' Hn' Hid.
  destruct (node_grows_static _ _ Hpt n' Hn') as (n & Hn & Heq).
  apply static_fields_eq in Heq as (Hi & _ & _ & _ & ->).
  apply Hs; [done | congruence].
Qed.

Lemma in_contact_static calculate_distance w w' a a' b b' :
  static_fields a' = static_fields a → static_fields b' = static_fields b →
  CONNECTIONS w' = CONNECTIONS w →
  in_contact calculate_distance w' a' b' = in_contact calculate_distance w a b.
Proof.
  intros (Hia & Hla & Hoa & Hra & _)%static_fields_eq
         (Hib & Hlb & Hob & _)%static_fields_eq Hcon.
  unfold in_contact. by rewrite Hia, Hla, Hoa, Hra, Hib, Hlb, Hob, Hcon.
Qed.

Lemma isolated_grows calculate_distance w w' k :
  CONNECTIONS w' = CONNECTIONS w →
  (∀ i, option_Forall2 node_grows (NODES w !! i) (NODES w' !! i)) →
  isolated calculate_distance w k → isolated calculate_distance w' k.
Proof.
  unfold isolated. intros Hcon Hpt Hiso.
  apply Forall_forall. intros a' Ha'. apply Forall_forall. intros b' Hb'.
  destruct (node_grows_static _ _ Hpt a' Ha') as (a & Ha & Hsa).
  destruct (node_grows_static _ _ Hpt b' Hb') as (b & Hb & Hsb).
  rewrite (in_contact_static _ w w' a a' b b' Hsa Hsb Hcon).
  rewrite Forall_forall in Hiso. specialize (Hiso a Ha).
  rewrite Forall_forall in Hiso. specialize (Hiso b Hb).
  apply static_fields_eq in Hsa as (Hia & _ & _ & _ & Hra).
  apply static_fields_eq in Hsb as (Hib & _).
  rewrite Hia, Hib, Hra. apply Hiso.
Qed.

Lemma commit_packet_other w e w' k :
  commit_packet w e = Some w' → e.1 ≠ k →
  node_inventories w' !! k = node_inventories w !! k.
Proof.
  unfold commit_packet. intros Hrun Hne.
  destruct (node_inventories w !! e.1) as [inventory|] eqn:E;
    simpl in Hrun; [|done].
  destruct (existsb _ _); [by simplify_eq|].
  destruct (py_index _ _) as [idx|]; simplify_eq/=.
  by rewrite lookup_insert_ne.
Qed.

Lemma commit_packet_elem w e w' holder inventory' p :
  commit_packet w e = Some w' →
  node_inventories w' !! holder = Some inventory' → p ∈ inventory' →
  (∃ inventory, node_inventories w !! holder = Some inventory ∧ p ∈ inventory)
  ∨ (holder = e.1 ∧ p = e.2).
Proof.
  unfold commit_packet. intros Hrun Hlook Hp.
  destruct (node_inventories w !! e.1) as [inventory|] eqn:E;
    simpl in Hrun; [|done].
  destruct (existsb _ _); [simplify_eq; left; eauto|].
  destruct (py_index _ _) as [idx|]; simplify_eq/=.
  destruct (decide (e.1 = holder)) as [<-|Hne].
  - rewrite lookup_insert_eq in Hlook. simplify_eq.
    apply elem_of_app in Hp as [Hp | ->%list_elem_of_singleton].
    + left. eauto.
    + by right.
  - rewrite lookup_insert_ne in Hlook by done. left. eauto.
Qed.

Lemma sender_of_copy u b p : sender_of (copy_for u b p) = last (history p).
Proof.
  unfold sender_of. simpl. rewrite length_app. simpl.
  replace (length (history p) + 1 - 1)%nat with (length (history p)) by lia.
  by rewrite take_app_length.
Qed.

Lemma locked_phase_static env w i :
  option_Forall2 node_grows (NODES w !! i) (NODES (locked_phase env w) !! i).
Proof.
  destruct node_grows_steps as (H1 & H2 & H3 & H4).
  by apply (locked_phase_pointwise node_grows).
Qed.

Lemma simulation_tick_grows calculate_distance env w w' i :
  simulation_tick calculate_distance env w = Some w' →
  option_Forall2 node_grows (NODES w !! i) (NODES w' !! i).
Proof.
  destruct node_grows_steps as (H1 & H2 & H3 & H4).
  by apply (simulation_tick_pointwise node_grows).
Qed.

Lemma simulation_tick_free_rider calculate_distance env w w' i n :
  simulation_tick calculate_distance env w = Some w' →
  NODES w !! i = Some n → auto_relay n = false →
  ∃ n', NODES w' !! i = Some n' ∧ auto_relay n' = false ∧
        node_books n'
        = (balance (wallet n)
           + UBI_AMOUNT * ubi_rounds (tick_count (global_economy w)) 1,
           total_sent (reputation n)).
Proof.
  intros Hrun Hn Hoff.
  pose proof (simulation_tick_grows _ _ _ _ i Hrun) as Hg.
  rewrite Hn in Hg. inversion Hg as [n0 n' Hgrow Hn0 Hn'|]; subst.
  symmetry in Hn'. exists n'. split; [done|]. split.
  { destruct Hgrow as [Hs _].
    apply static_fields_eq in Hs as (_ & _ & _ & _ & ->). done. }
  unfold simulation_tick in Hrun.
  destruct (flood _ _ _) as [st|] eqn:E; simplify_eq/=.
  set (wl := locked_phase env w) in *.
  assert (∃ nl, NODES wl !! i = Some nl ∧ auto_relay nl = false ∧
                node_books nl
                = (balance (wallet n)
                   + UBI_AMOUNT * ubi_rounds (tick_count (global_economy w)) 1,
                   total_sent (reputation n))) as (nl & Hnl & Hoffl & Hbooks).
  { subst wl. destruct (locked_phase_nodes env w) as [_ ->].
    rewrite ubi_rounds_1. destruct (_ =? _).
    - rewrite list_lookup_fmap, Hn. simpl. eexists. split; [done|].
      split; [done|]. unfold node_books, add_credits, UBI_AMOUNT. simpl.
      f_equal; lia.
    - exists n. split; [done|]. split; [done|]. unfold node_books.
      f_equal; lia. }
  cut (node_books <$> NODES st.1 !! i = node_books <$> NODES wl !! i).
  { rewrite Hn', Hnl. simpl. intros Heq. congruence. }
  apply (flood_contact_rule calculate_distance env wl
           (λ s, node_books <$> NODES s.1 !! i = node_books <$> NODES wl !! i)
           st); [| |done|done].
  - cbv beta.
    intros ia node_a node_b s p s' packets Ha _ _ Hon _ _ _ _ Hnew Hstep Hs.
    destruct (relay_packet_books _ _ _ _ _ _ _ Hstep Hnew) as (_ & _ & Hb).
    rewrite Hb, Hs. destruct (decide (ia = i)) as [->|_].
    + rewrite Hnl in Ha. simplify_eq. congruence.
    + by destruct (NODES wl !! i).
  - cbv beta. intros w1 buf e w2 _ Hstep Hs. simpl in *.
    destruct (commit_packet_books _ _ _ Hstep) as (_ & _ & _ & Hb).
    by rewrite Hb.
Qed.

(** X12. A node whose cooperation flag is off is paid nothing but the
    universal income, whatever the ticks do: after any number of ticks
    its balance is the old one plus [UBI_AMOUNT] for every UBI round in
    between, its tracker has recorded no forward, and the flag is still
    off. *)
Theorem free_rider_draws_only_ubi calculate_distance envs w w' i n :
  run_ticks calculate_distance envs w = Some w' →
  NODES w !! i = Some n → auto_relay n = false →
  ∃ n', NODES w' !! i = Some n' ∧ auto_relay n' = false ∧
        balance (wallet n')
        = balance (wallet n)
          + UBI_AMOUNT * ubi_rounds (tick_count (global_economy w))
                                    (Z.of_nat (length envs)) ∧
        total_sent (reputation n') = total_sent (reputation n).
Proof.
  revert w n. induction envs as [|env envs IH]; intros w n Hrun Hn Hoff;
    simpl in Hrun.
  - simplify_eq. exists n. rewrite ubi_rounds_0.
    split; [done|]. split; [done|]. split; [lia | done].
  - destruct (simulation_tick _ env w) as [w1|] eqn:E; simpl in Hrun; [|done].
    destruct (simulation_tick_free_rider _ _ _ _ _ _ E Hn Hoff)
      as (n1 & Hn1 & Hoff1 & Hb1).
    destruct (IH w1 n1 Hrun Hn1 Hoff1) as (n' & Hn' & Hoff' & Hbal & Hsent).
    destruct (simulation_tick_ledger _ _ _ _ E)
      as (ks & kl & _ & _ & _ & _ & _ & Htick & _).
    exists n'. split; [done|]. split; [done|].
    unfold node_books in Hb1. injection Hb1 as Hb1 Hs1.
    rewrite Hbal, Hsent, Htick, Hb1, Hs1. split; [|done].
    replace (Z.of_nat (length (env :: envs)))
      with (1 + Z.of_nat (length envs)) by (simpl; lia).
    rewrite ubi_rounds_add. lia.
Qed.

Lemma kept_from_trans w0 w1 w2 k :
  kept_from w0 k w1 → kept_from w1 k w2 → kept_from w0 k w2.
Proof.
  intros H01 H12 holder inventory' p Hlook Hp Hs.
  destruct (H12 _ _ _ Hlook Hp Hs) as (inv1 & Hlook1 & Hp1).
  by apply (H01 _ _ _ Hlook1 Hp1 Hs).
Qed.

Lemma simulation_tick_kept calculate_distance env w w' k :
  simulation_tick calculate_distance env w = Some w' →
  routes_ok w → selfish w k → kept_from w k w'.
Proof.
  unfold simulation_tick. intros Hrun Hroutes Hself.
  destruct (flood _ _ _) as [st|] eqn:E; simplify_eq/=.
  set (wl := locked_phase env w) in *.
  assert (selfish wl k) as Hselfl.
  { apply (selfish_grows w); [apply locked_phase_static | done]. }
  assert (kept_from w k wl) as Hkeptl.
  { intros holder inventory' p Hlook Hp _. subst wl.
    rewrite locked_phase_lookup in Hlook.
    destruct (node_inventories w !! holder) as [inventory|] eqn:Einv;
      simplify_eq/=.
    exists inventory. split; [done|].
    eapply elem_of_sublist; [done | apply locked_inventory_sublist]. }
  apply (kept_from_trans w wl); [done|].
  cut (routes_ok st.1
       ∧ Forall (λ e, route_ok e.1 e.2 ∧ sender_of e.2 ≠ Some k) st.2
       ∧ kept_from wl k st.1); [by intros (_ & _ & ?)|].
  apply (flood_contact_rule calculate_distance env wl
           (λ s, routes_ok s.1
                 ∧ Forall (λ e, route_ok e.1 e.2 ∧ sender_of e.2 ≠ Some k) s.2
                 ∧ kept_from wl k s.1) st); [| |done|].
  - cbv beta.
    intros ia node_a node_b s p s' packets Ha _ _ Hon _ _ Hinv Hp Hnew Hstep
      (Hr & Hbuf & Hkept).
    pose proof (relay_packet_frame _ _ _ _ _ _ _ Hstep) as (Heq & _).
    destruct (relay_packet_new_copy _ _ _ _ _ _ _ Hstep Hnew) as [u ->].
    pose proof (routes_ok_lookup _ _ _ _ Hr Hinv Hp) as Hroute.
    split; [|split].
    + unfold routes_ok. by rewrite Heq.
    + apply Forall_app. split; [done|]. apply Forall_singleton. simpl.
      split; [by eapply route_ok_copy|].
      rewrite sender_of_copy. destruct Hroute as (_ & _ & ->).
      intros [= Hk]. unfold selfish in Hselfl. rewrite Forall_forall in Hselfl.
      apply list_elem_of_lookup_2 in Ha.
      specialize (Hselfl node_a Ha Hk). congruence.
    + unfold kept_from. by rewrite Heq.
  - cbv beta. intros w1 buf e w2 He Hstep (Hr & Hbuf & Hkept). simpl in *.
    pose proof (proj1 (Forall_forall _ _) Hbuf e He) as [Hre Hse].
    split; [by eapply commit_packet_routes|]. split; [done|].
    intros holder inventory' p Hlook Hp Hs.
    destruct (commit_packet_elem _ _ _ _ _ _ Hstep Hlook Hp)
      as [(inventory & Hl1 & Hp1) | [_ ->]]; [|done].
    by apply (Hkept _ _ _ Hl1 Hp1 Hs).
  - split; [by apply locked_phase_routes|]. split; [apply Forall_nil_2|].
    intros holder inventory' p Hlook Hp _. eauto.
Qed.

(** X13. A node whose cooperation flag is off delivers nothing: every
    copy that some inventory holds after the ticks and that came from
    this node (the node is the last but one of the copy's history) was in
    that inventory before the ticks. *)
Theorem free_rider_delivers_nothing calculate_distance envs w w' k :
  run_ticks calculate_distance envs w = Some w' →
  routes_ok w → selfish w k → kept_from w k w'.
Proof.
  revert w. induction envs as [|env envs IH]; intros w Hrun Hroutes Hself;
    simpl in Hrun.
  - simplify_eq. intros holder inventory' p Hlook Hp _. eauto.
  - destruct (simulation_tick _ env w) as [w1|] eqn:E; simpl in Hrun; [|done].
    apply (kept_from_trans w w1); [by eapply simulation_tick_kept|].
    apply (IH w1 Hrun); [by eapply simulation_tick_routes|].
    apply (selfish_grows w); [|done].
    intros i. by eapply simulation_tick_grows.
Qed.

Lemma simulation_tick_unreached calculate_distance env w w' k :
  simulation_tick calculate_distance env w = Some w' →
  isolated calculate_distance w k →
  option_Forall2 sublist (node_inventories w' !! k) (node_inventories w !! k).
Proof.
  unfold simulation_tick. intros Hrun Hiso.
  destruct (flood _ _ _) as [st|] eqn:E; simplify_eq/=.
  set (wl := locked_phase env w) in *.
  assert (isolated calculate_distance wl k) as Hisol.
  { apply (isolated_grows _ w); [|apply locked_phase_static|done].
    by destruct (locked_phase_config env w). }
  cut (Forall (λ e, e.1 ≠ k) st.2
       ∧ node_inventories st.1 !! k = node_inventories wl !! k).
  { intros [_ ->]. subst wl. rewrite locked_phase_lookup.
    destruct (node_inventories w !! k); simpl; constructor.
    apply locked_inventory_sublist. }
  apply (flood_contact_rule calculate_distance env wl
           (λ s, Forall (λ e, e.1 ≠ k) s.2
                 ∧ node_inventories s.1 !! k = node_inventories wl !! k) st);
    [| |done|].
  - cbv beta.
    intros ia node_a node_b s p s' packets Ha Hb Hne Hon Hcontact _ _ _ Hnew
      Hstep [Hbuf Hinv].
    pose proof (relay_packet_frame _ _ _ _ _ _ _ Hstep) as (Heq & _).
    destruct (relay_packet_new_copy _ _ _ _ _ _ _ Hstep Hnew) as [u ->].
    split; [|by rewrite Heq].
    apply Forall_app. split; [done|]. apply Forall_singleton. simpl.
    intros Hk. unfold isolated in Hisol. rewrite Forall_forall in Hisol.
    apply list_elem_of_lookup_2 in Ha. specialize (Hisol node_a Ha).
    rewrite Forall_forall in Hisol.
    rewrite (Hisol node_b Hb Hk) in Hcontact; [done|congruence|done].
  - cbv beta. intros w1 buf e w2 He Hstep [Hbuf Hinv]. simpl in *.
    split; [done|]. rewrite <- Hinv.
    apply (commit_packet_other _ _ _ _ Hstep).
    by apply (proj1 (Forall_forall _ _) Hbuf e He).
  - split; [apply Forall_nil_2 | done].
Qed.

(** X14. A node that no cooperating node is in contact with, by range
    or by link, receives nothing: after any number of ticks its
    inventory holds only packets it held before, in their order. *)
Theorem unreached_node_receives_nothing calculate_distance envs w w' k :
  run_ticks calculate_distance envs w = Some w' →
  isolated calculate_distance w k →
  option_Forall2 sublist (node_inventories w' !! k) (node_inventories w !! k).
Proof.
  revert w. induction envs as [|env envs IH]; intros w Hrun Hiso;
    simpl in Hrun.
  - simplify_eq. destruct (node_inventories w' !! k); by constructor.
  - destruct (simulation_tick _ env w) as [w1|] eqn:E; simpl in Hrun; [|done].
    etrans; [|by eapply simulation_tick_unreached].
    apply (IH w1 Hrun).
    apply (isolated_grows _ w); [|by intros i; eapply simulation_tick_grows|done].
    by destruct (simulation_tick_config _ _ _ _ E).
Qed.

(** ** Publication *)

Lemma validate_request_ids request :
  validate_request request = true →
  valid_node_id (publisher_node_id request) = true ∧
  forallb valid_node_id (target_node_ids request) = true.
Proof.
  unfold validate_request. rewrite !andb_true_iff. tauto.
Qed.

(** X15. [publish_message] refuses a request in two ways only: with
    422 when a validator of the request model fails, with 402 when a
    validated Logistics or Help request cannot be paid.  It never
    answers 404 (the two "not found" tests of the handler repeat what
    the validators have checked), and it never refuses a Safe request
    that is valid. *)
Theorem publish_message_rejections penv request w status :
  publish_message penv request w = Some (rejected status) →
  (status = 422 ∧ validate_request request = false) ∨
  (status = 402 ∧ validate_request request = true ∧
   request_type request ≠ Safe).
Proof.
  unfold publish_message.
  destruct (validate_request request) eqn:Hvalid; simpl;
    [|intros [= <-]; by left].
  destruct (validate_request_ids _ Hvalid) as [-> ->]. simpl.
  destruct (py_index _ _) as [idx|]; simpl; [|done].
  destruct (NODES w !! idx) as [publisher_node|]; simpl; [|done].
  destruct (decide (request_type request = Safe)) as [Hsafe|Hother].
  - unfold SAFETY_SEND_COST, spend_credits. simpl.
    by destruct (node_inventories _ !! _).
  - destruct (negb _).
    + intros [= <-]. right. done.
    + by destruct (node_inventories _ !! _).
Qed.

Lemma sum_balances_alter_at (f : NodeRuntime → NodeRuntime) ns : ∀ i n,
  ns !! i = Some n →
  sum_balances (alter f i ns)
  = sum_balances ns + balance (wallet (f n)) - balance (wallet n).
Proof.
  unfold sum_balances.
  induction ns as [|n0 ns IH]; intros i n Hn; [done|].
  destruct i as [|i]; simpl in *.
  - simplify_eq. lia.
  - specialize (IH i n Hn).
    change (alter f i ns) with (list_alter f i ns) in IH. lia.
Qed.

Lemma spend_credits_paid amount wl :
  0 <= amount →
  ((spend_credits amount wl).1 = true ↔ amount = 0 ∨ amount <= balance wl) ∧
  ((spend_credits amount wl).1 = true →
   balance (spend_credits amount wl).2 = balance wl - amount).
Proof.
  intros Hpos. unfold spend_credits.
  destruct (Z.leb_spec amount 0); simpl; [split; [split|]; intros; lia|].
  destruct (Z.leb_spec amount (balance wl)); simpl; split;
    try split; intros; (lia || done).
Qed.

Lemma send_cost_of_cases ty :
  (ty = Safe ∧ send_cost_of ty = 0) ∨ (ty ≠ Safe ∧ send_cost_of ty = 2).
Proof. unfold send_cost_of. destruct (decide (ty = Safe)); auto. Qed.

(** X16. How a valid request is settled on a well-formed world of ten
    nodes.  A Logistics or Help request of a publisher who holds less
    than the send cost is refused with 402.  Every other valid request
    is accepted, no lookup failing: the publisher pays the send cost
    (nothing for Safe) and nobody else pays or earns, the fee revenue
    grows by the cost, the one new packet goes to the end of the
    publisher's inventory with the history [publisher], every other
    inventory and the links stay, and the world stays well formed. *)
Theorem publish_message_settles penv request w :
  well_formed w → length (NODES w) = 10%nat →
  validate_request request = true →
  let k := publisher_node_id request in
  let cost := send_cost_of (request_type request) in
  (request_type request ≠ Safe → balance_of k w < cost →
   publish_message penv request w = Some (rejected 402)) ∧
  (request_type request = Safe ∨ cost <= balance_of k w →
   ∃ w', publish_message penv request w = Some (published w') ∧
         balance_of k w' = balance_of k w - cost ∧
         total_balance w' = total_balance w - cost ∧
         total_fee_revenue (global_economy w')
         = total_fee_revenue (global_economy w) + cost ∧
         node_inventories w'
         = <[k := inventory_of k w ++ [initial_packet penv request]]>
             (node_inventories w) ∧
         CONNECTIONS w' = CONNECTIONS w ∧
         well_formed w').
Proof.
  intros Hwf Hlen Hvalid k cost.
  destruct (validate_request_ids _ Hvalid) as [Hpub Htargets].
  assert (1 <= k <= Z.of_nat (length (NODES w))) as Hk.
  { unfold valid_node_id, NUM_NODES in Hpub. subst k. lia. }
  destruct (py_index_in_range _ _ Hk) as [Hidx Hlt].
  destruct (lookup_lt_is_Some_2 _ _ Hlt) as [publisher_node Hnode].
  pose proof Hwf as (_ & _ & Hinv & _).
  destruct (Hinv k Hk) as [inventory Hinventory].
  assert (balance_of k w = balance (wallet publisher_node)) as Hbal.
  { unfold balance_of. by rewrite Hnode. }
  assert (inventory_of k w = inventory) as Hinvof.
  { unfold inventory_of. by rewrite Hinventory. }
  assert (0 <= cost) as Hcost.
  { subst cost. destruct (send_cost_of_cases (request_type request))
      as [[_ ->] | [_ ->]]; lia. }
  destruct (spend_credits_paid cost (wallet publisher_node) Hcost)
    as [Hiff Hpaid].
  rewrite Hbal, Hinvof.
  assert (publish_message penv request w
          = let paid := spend_credits cost (wallet publisher_node) in
            if negb paid.1 then Some (rejected 402)
            else
              let w1 := set_nodes (alter (with_wallet (λ _, paid.2))
                                         (Z.to_nat (k - 1)) (NODES w)) w in
              let w2 := if decide (request_type request = Safe) then w1
                        else set_economy
                               (record_transaction logistics_send cost
                                  (global_economy w1)) w1 in
              let packet := initial_packet penv request in
              let w3 := set_nodes
                          (alter (with_known_message
                                    (original_message_id packet))
                                 (Z.to_nat (k - 1)) (NODES w2)) w2 in
              Some (published
                      (set_inventories
                         (<[k := inventory ++ [packet]]>
                            (node_inventories w3)) w3))) as Hunfold.
  { unfold publish_message.
    rewrite Hvalid, Hpub, Htargets. simpl.
    fold k. rewrite Hidx. simpl. rewrite Hnode. simpl.
    fold (send_cost_of (request_type request)). fold cost.
    destruct (negb _); [done|].
    destruct (decide (request_type request = Safe)); simpl;
      by rewrite Hinventory. }
  cbv zeta in Hunfold.
  destruct ((spend_credits cost (wallet publisher_node)).1) eqn:Epaid;
    simpl in Hunfold.
  - split.
    { intros Hother Hless. exfalso.
      destruct (proj1 Hiff eq_refl) as [Hzero|Hle]; [|lia].
      subst cost. destruct (send_cost_of_cases (request_type request))
        as [[? _] | [_ Heq]]; [done | lia]. }
    intros _. specialize (Hpaid eq_refl).
    eexists. split; [exact Hunfold|].
    split; [|split; [|split; [|split; [|split]]]].
    + unfold balance_of.
      destruct (decide (request_type request = Safe)); simpl;
        rewrite !list_lookup_alter_eq, Hnode; simpl; exact Hpaid.
    + unfold total_balance.
      destruct (decide (request_type request = Safe)); simpl.
      all: rewrite sum_balances_alter_same by done.
      all: rewrite (sum_balances_alter_at _ _ _ _ Hnode); simpl; lia.
    + destruct (decide (request_type request = Safe)) as [Hsafe|Hother];
        simpl; [|done].
      subst cost. unfold send_cost_of.
      rewrite decide_True by done. unfold SAFETY_SEND_COST. lia.
    + by destruct (decide (request_type request = Safe)).
    + by destruct (decide (request_type request = Safe)).
    + by eapply publish_message_well_formed.
  - split; [done|]. intros Hok. exfalso.
    assert (cost = 0 ∨ cost <= balance (wallet publisher_node)) as Hcan.
    { destruct Hok as [Hsafe|Hle]; [left|by right].
      subst cost. unfold send_cost_of. by rewrite decide_True. }
    apply Hiff in Hcan. congruence.
Qed.

(** ** Links *)

Lemma remove_connection_links a b w :
  CONNECTIONS (remove_connection a b w)
  = CONNECTIONS w ∖ {[ (Z.min a b, Z.max a b) ]}.
Proof.
  unfold remove_connection. cbv zeta.
  destruct (bool_decide_reflect ((Z.min a b, Z.max a b) ∈ CONNECTIONS w));
    [done|].
  symmetry. apply difference_disjoint_L. by apply disjoint_singleton_r.
Qed.

Lemma in_contact_link calculate_distance w node_a node_b :
  in_contact calculate_distance w node_a node_b
  = in_range calculate_distance node_a node_b
    || bool_decide ((Z.min (id node_a) (id node_b),
                     Z.max (id node_a) (id node_b)) ∈ CONNECTIONS w).
Proof. done. Qed.

(** X17. Links are undirected.  Adding or removing a link gives the same
    world whichever end is named first, and touches neither nodes nor
    inventories; adding twice is adding once.  Once a link between two
    distinct valid ids is added, nodes with these ids are in contact in
    both directions whatever their distance; once it is removed, they
    are in contact exactly when in range. *)
Theorem links_are_undirected calculate_distance (a b : Z) (w : World)
    (node_a node_b : NodeRuntime) :
  id node_a = a → id node_b = b →
  add_connection a b w = add_connection b a w ∧
  remove_connection a b w = remove_connection b a w ∧
  add_connection a b (add_connection a b w) = add_connection a b w ∧
  NODES (remove_connection a b w) = NODES w ∧
  node_inventories (remove_connection a b w) = node_inventories w ∧
  (valid_node_id a = true → valid_node_id b = true → a ≠ b →
   in_contact calculate_distance (add_connection a b w) node_a node_b = true ∧
   in_contact calculate_distance (add_connection a b w) node_b node_a = true) ∧
  in_contact calculate_distance (remove_connection a b w) node_a node_b
  = in_range calculate_distance node_a node_b ∧
  in_contact calculate_distance (remove_connection a b w) node_b node_a
  = in_range calculate_distance node_b node_a.
Proof.
  intros Ha Hb.
  split; [|split; [|split; [|split; [|split; [|split; [|split]]]]]].
  - unfold add_connection.
    rewrite (Z.min_comm b a), (Z.max_comm b a), (andb_comm (valid_node_id b)).
    destruct (valid_node_id a && valid_node_id b); simpl; [|done].
    destruct (bool_decide_reflect (a = b)), (bool_decide_reflect (b = a));
      done.
  - unfold remove_connection. by rewrite (Z.min_comm b a), (Z.max_comm b a).
  - unfold add_connection.
    destruct (valid_node_id a && valid_node_id b && negb (bool_decide (a = b)))
      eqn:E; rewrite ?E; [|done].
    simpl. f_equal. by rewrite (assoc_L (∪)), (idemp_L (∪)).
  - unfold remove_connection. cbv zeta. by destruct (bool_decide _).
  - unfold remove_connection. cbv zeta. by destruct (bool_decide _).
  - intros Hva Hvb Hne. rewrite !in_contact_link, Ha, Hb.
    rewrite (Z.min_comm b a), (Z.max_comm b a).
    assert (bool_decide ((Z.min a b, Z.max a b)
                         ∈ CONNECTIONS (add_connection a b w)) = true) as ->.
    { apply bool_decide_eq_true. unfold add_connection.
      rewrite Hva, Hvb, bool_decide_false by done. simpl.
      apply elem_of_union_l. by apply elem_of_singleton. }
    by rewrite !orb_true_r.
  - rewrite in_contact_link, Ha, Hb, remove_connection_links.
    rewrite bool_decide_false; [apply orb_false_r|].
    rewrite not_elem_of_difference. right. by apply elem_of_singleton.
  - rewrite in_contact_link, Ha, Hb, remove_connection_links.
    rewrite (Z.min_comm b a), (Z.max_comm b a).
    rewrite bool_decide_false; [apply orb_false_r|].
    rewrite not_elem_of_difference. right. by apply elem_of_singleton.
Qed.

(** ** The packets of reachable worlds *)

Lemma publish_message_validated penv request w w' :
  publish_message penv request w = Some (published w') →
  validate_request request = true.
Proof.
  unfold publish_message.
  by destruct (validate_request request).
Qed.

Lemma simulation_tick_all_packets calculate_distance Φ env w w' :
  (∀ u b p, Φ p → Φ (copy_for u b p)) →
  simulation_tick calculate_distance env w = Some w' →
  all_packets Φ w → all_packets Φ w'.
Proof.
  unfold simulation_tick. intros Hcopy Hrun Hall.
  destruct (flood _ _ _) as [st|] eqn:E; simplify_eq/=.
  eapply (flood_all_packets _ Φ) in E as [H _]; [done|done|].
  by apply locked_phase_all_packets.
Qed.

Lemma reachable_all_packets calculate_distance (Φ : MessagePacket → Prop) w :
  (∀ u b p, Φ p → Φ (copy_for u b p)) →
  (∀ penv request,
     validate_request request = true → Φ (initial_packet penv request)) →
  reachable calculate_distance w → all_packets Φ w.
Proof.
  intros Hcopy Hnew.
  induction 1 as [positions Hlen | env w w' _ IH Hrun
                 | penv request w w' _ IH Hfresh Hrun
                 | node_a node_b w _ IH].
  - intros k inventory Hlook. simpl in Hlook.
    apply empty_inventories_lookup in Hlook as ->. apply Forall_nil_2.
  - by eapply simulation_tick_all_packets.
  - destruct (publish_message_inventories _ _ _ _ Hrun)
      as (inventory & Hlook & Hinv' & _).
    unfold all_packets. rewrite Hinv'. apply map_Forall_insert_2; [|done].
    apply Forall_app. split.
    + by apply (map_Forall_lookup_1 _ _ _ _ IH Hlook).
    + apply Forall_singleton. apply Hnew.
      by eapply publish_message_validated.
  - destruct (add_connection_inventories node_a node_b w) as [Hinv _].
    unfold all_packets. by rewrite Hinv.
Qed.

Lemma packet_sound_copy u b p : packet_sound p → packet_sound (copy_for u b p).
Proof. done. Qed.

Lemma packet_sound_initial penv request :
  validate_request request = true →
  packet_sound (initial_packet penv request).
Proof.
  unfold validate_request. rewrite !andb_true_iff, !negb_true_iff.
  intros (((((Hne & Hlen) & Hsome) & Hcount) & Htargets) & Hpub).
  apply Nat.eqb_neq in Hne, Hsome. apply Nat.leb_le in Hlen.
  apply Z.leb_le in Hcount. unfold NUM_NODES in Hcount.
  unfold packet_sound, zkp_verdict, verify_zkp_proof. simpl.
  assert (∀ i, valid_node_id i = true → 1 <= i <= NUM_NODES) as Hid.
  { intros i. unfold valid_node_id. rewrite andb_true_iff. lia. }
  repeat split; try lia; try (by apply Hid).
  all: try (destruct (request_type request); simpl;
            repeat case_decide; by (done || eexists || intros [])).
  - apply Forall_forall. intros t Ht. apply Hid.
    by apply (proj1 (forallb_forall _ _) Htargets), list_elem_of_In.
Qed.

(** X18. Every packet stored in a reachable world is as
    [publish_message] types it: LoRa exactly for Safe, a proof exactly
    for Safe, a signature exactly for Help, the encryption flag exactly
    for Logistics, no ciphertext; a text of 1 to 1000 characters, 1 to
    10 targets, targets and publisher between 1 and [NUM_NODES]; and
    [verify_zkp_message] finds the proof of every Safe packet valid. *)
Theorem reachable_packets_sound calculate_distance w :
  reachable calculate_distance w → all_packets packet_sound w.
Proof.
  apply reachable_all_packets.
  - apply packet_sound_copy.
  - apply packet_sound_initial.
Qed.

(** ** The Nakamoto coefficient *)

Lemma total_of_app l1 l2 : total_of (l1 ++ l2) = total_of l1 + total_of l2.
Proof. unfold total_of. induction l1; simpl; lia. Qed.

Lemma total_of_Permutation l1 l2 : l1 ≡ₚ l2 → total_of l1 = total_of l2.
Proof. unfold total_of. induction 1; simpl; lia. Qed.

Lemma sorted_balances_spec (balances : list Z) :
  merge_sort (flip Z.le) balances ≡ₚ balances ∧
  StronglySorted (flip Z.le) (merge_sort (flip Z.le) balances).
Proof.
  split; [apply merge_sort_Permutation|].
  apply StronglySorted_merge_sort; apply _.
Qed.

(** The first balances of a descending list weigh at least as much as
    the same number of balances taken from its tail. *)
Lemma take_cons_heavier (l : list Z) : ∀ x k,
  (k ≤ length l)%nat → StronglySorted (flip Z.le) (x :: l) →
  total_of (take k l) <= total_of (take k (x :: l)).
Proof.
  induction l as [|y l IH]; intros x k Hk Hsorted.
  - simpl in Hk. replace k with 0%nat by lia. done.
  - destruct k as [|k]; [done|].
    apply StronglySorted_cons in Hsorted as [Hx Hsorted].
    pose proof (Forall_inv Hx) as Hyx. unfold flip in Hyx.
    simpl in Hk. specialize (IH y k ltac:(lia) Hsorted).
    change (total_of (take (S k) (y :: l))) with (y + total_of (take k l)).
    change (total_of (take (S k) (x :: y :: l)))
      with (x + total_of (take k (y :: l))).
    lia.
Qed.

(** No selection from a descending list outweighs its first balances. *)
Lemma sublist_lighter (s l : list Z) :
  s `sublist_of` l → StronglySorted (flip Z.le) l →
  total_of s <= total_of (take (length s) l).
Proof.
  induction 1 as [|x s l Hsub IH|x s l Hsub IH]; intros Hsorted.
  - done.
  - pose proof Hsorted as Hl. apply StronglySorted_cons in Hl as [_ Hl].
    specialize (IH Hl). simpl. unfold total_of in *. simpl. lia.
  - pose proof Hsorted as Hl. apply StronglySorted_cons in Hl as [_ Hl].
    specialize (IH Hl).
    pose proof (take_cons_heavier l x (length s)
                  (sublist_length _ _ Hsub) Hsorted).
    lia.
Qed.

Lemma nakamoto_scan_spec total (l : list Z) : ∀ c i,
  match nakamoto_scan total c i l with
  | Some r =>
      ∃ k, r = (i + k + 1)%nat ∧ (k < length l)%nat ∧
           total < 2 * (c + total_of (take (S k) l)) ∧
           ∀ j, (1 ≤ j ≤ k)%nat → 2 * (c + total_of (take j l)) <= total
  | None =>
      ∀ j, (1 ≤ j ≤ length l)%nat → 2 * (c + total_of (take j l)) <= total
  end.
Proof.
  induction l as [|b l IH]; intros c i; simpl.
  - intros j Hj. lia.
  - destruct (Z.ltb_spec total (2 * (c + b))) as [Hlt|Hge].
    + exists 0%nat. split; [lia|]. split; [lia|]. split.
      * unfold total_of. simpl. lia.
      * intros j Hj. lia.
    + specialize (IH (c + b) (S i)).
      destruct (nakamoto_scan total (c + b) (S i) l) as [r|].
      * destruct IH as (k & -> & Hk & Hover & Hunder).
        exists (S k). split; [lia|]. split; [lia|]. split.
        -- change (total_of (take (S (S k)) (b :: l)))
             with (b + total_of (take (S k) l)). lia.
        -- intros j Hj. destruct j as [|j]; [lia|].
           change (total_of (take (S j) (b :: l)))
             with (b + total_of (take j l)).
           destruct j as [|j].
           ++ rewrite take_0. unfold total_of. simpl. lia.
           ++ specialize (Hunder (S j) ltac:(lia)). lia.
      * intros j Hj. destruct j as [|j]; [lia|].
        change (total_of (take (S j) (b :: l)))
          with (b + total_of (take j l)).
        destruct j as [|j].
        -- rewrite take_0. unfold total_of. simpl. lia.
        -- specialize (IH (S j) ltac:(lia)). lia.
Qed.

Lemma sublist_fmap_inv {A B} (f : A → B) (l : list A) : ∀ s,
  s `sublist_of` f <$> l → ∃ g, g `sublist_of` l ∧ f <$> g = s.
Proof.
  induction l as [|x l IH]; intros s Hs; simpl in Hs.
  - apply sublist_nil_r in Hs as ->. by exists [].
  - apply sublist_cons_r in Hs as [Hs | (s' & -> & Hs)].
    + destruct (IH s Hs) as (g & Hg & Heq).
      exists g. split; [by apply sublist_cons | done].
    + destruct (IH s' Hs) as (g & Hg & Heq).
      exists (x :: g). split; [by apply sublist_skip | by rewrite fmap_cons, Heq].
Qed.

Lemma nakamoto_least_majority (wallets : list Wallet) :
  0 < holdings wallets →
  let r := calculate_nakamoto_coefficient wallets in
  (1 ≤ r ≤ length wallets)%nat ∧
  (∃ group, group ⊆+ wallets ∧ length group = r ∧
            holdings wallets < 2 * holdings group) ∧
  (∀ group, group ⊆+ wallets → (length group < r)%nat →
            2 * holdings group <= holdings wallets).
Proof.
  intros Hpos r.
  destruct (sorted_balances_spec (balance <$> wallets)) as [Hperm Hsorted].
  set (sb := merge_sort (flip Z.le) (balance <$> wallets)) in *.
  assert (total_of sb = holdings wallets) as Htotal.
  { by apply total_of_Permutation. }
  assert (length sb = length wallets) as Hlen.
  { by rewrite Hperm, length_fmap. }
  pose proof (nakamoto_scan_spec (total_of sb) sb 0 0) as Hscan.
  assert (r = default (length wallets) (nakamoto_scan (total_of sb) 0 0 sb))
    as Hr.
  { subst r. unfold calculate_nakamoto_coefficient.
    destruct wallets as [|w0 ws]; [unfold holdings in Hpos; simpl in Hpos; lia|].
    fold sb. cbv zeta.
    destruct (Z.eqb_spec (total_of sb) 0) as [Hz|_]; [lia | done]. }
  destruct (nakamoto_scan (total_of sb) 0 0 sb) as [r'|].
  2:{ exfalso. destruct sb as [|b sb'] eqn:Esb.
      - unfold total_of in Htotal. simpl in Htotal. lia.
      - specialize (Hscan (length (b :: sb')) ltac:(simpl; lia)).
        rewrite firstn_all in Hscan. lia. }
  simpl in Hr. subst r'.
  destruct Hscan as (k & Hrk & Hk & Hover & Hunder).
  rewrite Htotal in Hover, Hunder.
  split; [lia|]. split.
  - assert (take (S k) sb ⊆+ balance <$> wallets) as Htop.
    { rewrite <- Hperm. apply submseteq_take. }
    apply submseteq_sublist_r in Htop as (s2 & Hperm2 & Hsub2).
    destruct (sublist_fmap_inv balance wallets s2 Hsub2) as (g & Hg & Heq).
    exists g. split; [by apply sublist_submseteq|]. split.
    + rewrite <- (length_fmap balance g), Heq, <- Hperm2, length_take. lia.
    + unfold holdings at 2. rewrite Heq, <- (total_of_Permutation _ _ Hperm2).
      lia.
  - intros group Hgroup Hsmall.
    assert (balance <$> group ⊆+ sb) as Hg.
    { rewrite Hperm. by apply fmap_submseteq. }
    apply submseteq_sublist_r in Hg as (s2 & Hperm2 & Hsub2).
    pose proof (sublist_lighter s2 sb Hsub2 Hsorted) as Hlight.
    assert (length s2 = length group) as Hlen2.
    { by rewrite <- Hperm2, length_fmap. }
    unfold holdings at 1. rewrite (total_of_Permutation _ _ Hperm2).
    destruct (length s2) as [|j] eqn:Ej.
    + destruct s2; [|done]. unfold total_of. simpl. lia.
    + specialize (Hunder (S j) ltac:(lia)). lia.
Qed.

(** X19. The Nakamoto coefficient is what its name says.  When the
    wallets hold a positive total, the coefficient [r] is between 1 and
    the number of wallets, some [r] of the wallets hold together more
    than half of the total, and no group of fewer than [r] wallets
    does. *)
Theorem nakamoto_is_least_majority (wallets : list Wallet) :
  0 < holdings wallets →
  let r := calculate_nakamoto_coefficient wallets in
  (1 ≤ r ≤ length wallets)%nat ∧
  (∃ group, group ⊆+ wallets ∧ length group = r ∧
            holdings wallets < 2 * holdings group) ∧
  (∀ group, group ⊆+ wallets → (length group < r)%nat →
            2 * holdings group <= holdings wallets).
Proof. apply nakamoto_least_majority. Qed.

(** ** The health status *)

Lemma nakamoto_below (wallets : list Wallet) (m : nat) :
  0 < holdings wallets →
  (calculate_nakamoto_coefficient wallets < m)%nat ↔
  ∃ group, (length group < m)%nat ∧ majority_of wallets group.
Proof.
  intros Hpos.
  destruct (nakamoto_least_majority wallets Hpos) as (Hr & Htop & Hleast).
  cbv zeta in *. split.
  - intros Hlt. destruct Htop as (group & Hsub & Hlen & Hmaj).
    exists group. split; [lia|]. by split.
  - intros (group & Hlen & Hsub & Hmaj).
    destruct (Nat.lt_ge_cases (calculate_nakamoto_coefficient wallets) m)
      as [|Hge]; [done|].
    specialize (Hleast group Hsub ltac:(lia)). lia.
Qed.

(** X23. What the health status says about the wallets, when they hold
    a positive total.  The status is critical exactly when the Gini
    figure is above 0.8 or some group of fewer than three wallets holds
    more than half of the credits; it is healthy exactly when the Gini
    figure is at most 0.6 and no group of fewer than five wallets holds
    more than half of the credits. *)
Theorem health_status_meaning (wallets : list Wallet) (gini : Q) :
  0 < holdings wallets →
  let status := _assess_health gini (calculate_nakamoto_coefficient wallets) in
  (status = CRITICAL ↔
   (8 # 10 < gini)%Q ∨
   ∃ group, (length group < 3)%nat ∧ majority_of wallets group) ∧
  (status = HEALTHY ↔
   (gini <= 6 # 10)%Q ∧
   ¬ ∃ group, (length group < 5)%nat ∧ majority_of wallets group).
Proof.
  intros Hpos status.
  rewrite <- (nakamoto_below wallets 3 Hpos), <- (nakamoto_below wallets 5 Hpos).
  subst status. unfold _assess_health.
  set (r := calculate_nakamoto_coefficient wallets).
  destruct (Qle_bool gini (8 # 10)) eqn:E8; simpl.
  - apply Qle_bool_iff in E8.
    destruct (Nat.ltb_spec r 3) as [H3|H3]; simpl.
    + split; split; try done; try (intros [_ ?]; lia). by right.
    + destruct (Qle_bool gini (6 # 10)) eqn:E6; simpl.
      * apply Qle_bool_iff in E6.
        destruct (Nat.ltb_spec r 5) as [H5|H5]; simpl.
        -- split; split; try done.
           ++ intros [Hg|?]; [|lia]. apply Qlt_not_le in Hg. done.
           ++ intros [_ ?]. lia.
        -- split; split; try done.
           ++ intros [Hg|?]; [|lia]. apply Qlt_not_le in Hg. done.
           ++ intros _. split; [done | lia].
      * assert (¬ (gini <= 6 # 10)%Q) as Hn6.
        { intros Hle. apply Qle_bool_iff in Hle. congruence. }
        split; split; try done.
        -- intros [Hg|?]; [|lia]. apply Qlt_not_le in Hg. done.
        -- intros [? _]. done.
  - assert (8 # 10 < gini)%Q as Hg.
    { apply Qnot_le_lt. intros Hle. apply Qle_bool_iff in Hle. congruence. }
    split; split; try done.
    + intros _. by left.
    + intros [Hle _]. exfalso. apply (Qlt_not_le _ _ Hg).
      eapply Qle_trans; [exact Hle|]. by vm_compute.
Qed.

(** ** The capacity of the contention resolver *)

Lemma foldl_alter_lookup {A} (f : A → A) (idxs : list nat) :
  (∀ x, f (f x) = f x) →
  ∀ (sl : list A) (s : nat),
    foldl (λ sl idx, alter f idx sl) sl idxs !! s
    = (if decide (s ∈ idxs) then f else λ x, x) <$> sl !! s.
Proof.
  intros Hf. induction idxs as [|i idxs IH]; intros sl s; cbn [foldl].
  - destruct (decide (s ∈ [])) as [Hin|_]; [by apply elem_of_nil in Hin|].
    by destruct (sl !! s).
  - rewrite IH.
    destruct (decide (s ∈ i :: idxs)) as [Hin|Hout],
             (decide (s ∈ idxs)) as [Hin'|Hout'].
    + destruct (decide (i = s)) as [->|Hne].
      * rewrite list_lookup_alter_eq. destruct (sl !! s); simpl; [|done].
        by rewrite Hf.
      * by rewrite list_lookup_alter_ne.
    + apply elem_of_cons in Hin as [->|?]; [|done].
      rewrite list_lookup_alter_eq. by destruct (sl !! i).
    + exfalso. apply Hout. by apply list_elem_of_further.
    + rewrite list_lookup_alter_ne; [done|].
      intros ->. apply Hout. apply list_elem_of_here.
Qed.

Lemma filter_idemp {A} (P : A → Prop) `{∀ x, Decision (P x)} (l : list A) :
  filter P (filter P l) = filter P l.
Proof.
  induction l as [|x l IH]; [done|].
  rewrite filter_cons. destruct (decide (P x)); [|done].
  by rewrite filter_cons_True, IH.
Qed.

Lemma occupied_le slots slots' :
  Forall2 (λ l l' : list MessagePacket, l' ≠ [] → l ≠ []) slots slots' →
  (occupied slots' ≤ occupied slots)%nat.
Proof.
  unfold occupied. induction 1 as [|l l' slots slots' Hl _ IH]; [done|].
  rewrite !filter_cons.
  destruct (decide (l' ≠ [])) as [Hne|_].
  - rewrite decide_True by auto. simpl. lia.
  - destruct (decide (l ≠ [])); simpl; lia.
Qed.

Lemma occupied_lt slots slots' :
  Forall2 (λ l l' : list MessagePacket, l' ≠ [] → l ≠ []) slots slots' →
  ∀ s l, slots !! s = Some l → l ≠ [] → slots' !! s = Some [] →
         (occupied slots' < occupied slots)%nat.
Proof.
  induction 1 as [|l l' slots slots' Hl Hrest IH]; intros s l0 Hs Hne Hs';
    [done|].
  pose proof (occupied_le _ _ Hrest) as Hle.
  unfold occupied in *. rewrite !filter_cons.
  destruct s as [|s]; simpl in Hs, Hs'.
  - simplify_eq.
    destruct (decide (([] : list MessagePacket) ≠ [])) as [Hn|_]; [done|].
    destruct (decide (l0 ≠ [])); [simpl; lia | done].
  - specialize (IH s l0 Hs Hne Hs').
    destruct (decide (l' ≠ [])) as [Hn|_].
    + rewrite decide_True by auto. simpl. lia.
    + destruct (decide (l ≠ [])); simpl; lia.
Qed.

Lemma occupied_length slots : (occupied slots ≤ length slots)%nat.
Proof. unfold occupied. apply length_filter. Qed.

(** *** Assignment of replicas *)

Lemma add_to_slots_length packet idxs : ∀ slots,
  length (add_to_slots packet idxs slots) = length slots.
Proof.
  unfold add_to_slots.
  induction idxs as [|i idxs IH]; intros slots; simpl; [done|].
  by rewrite IH, length_alter.
Qed.

Lemma add_to_slots_elem packet idxs : ∀ slots s l q,
  add_to_slots packet idxs slots !! s = Some l → q ∈ l →
  (∃ l0, slots !! s = Some l0 ∧ q ∈ l0) ∨ (q = packet ∧ s ∈ idxs).
Proof.
  unfold add_to_slots.
  induction idxs as [|i idxs IH]; intros slots s l q Hl Hq; simpl in Hl.
  - left. eauto.
  - destruct (IH _ _ _ _ Hl Hq) as [(l0 & Hl0 & Hq0) | [-> Hin]].
    + destruct (decide (i = s)) as [->|Hne].
      * rewrite list_lookup_alter_eq in Hl0.
        destruct (slots !! s) as [l1|] eqn:E; simplify_eq/=.
        apply elem_of_app in Hq0 as [Hq0 | ->%list_elem_of_singleton].
        -- left. eauto.
        -- right. split; [done | apply list_elem_of_here].
      * rewrite list_lookup_alter_ne in Hl0 by done. left. eauto.
    + right. split; [done | by apply list_elem_of_further].
Qed.

Lemma assign_replicas_length draw packets : ∀ i st,
  length (assign_replicas draw i packets st).1 = length st.1.
Proof.
  induction packets as [|p packets IH]; intros i st; simpl; [done|].
  rewrite IH. simpl. apply add_to_slots_length.
Qed.

Lemma assign_replicas_consistent draw packets : ∀ i st,
  NoDup (packet_id <$> packets) →
  (∀ p, p ∈ packets → st.2 !! packet_id p = None) →
  slots_consistent st.1 st.2 →
  slots_consistent (assign_replicas draw i packets st).1
                   (assign_replicas draw i packets st).2.
Proof.
  induction packets as [|p packets IH]; intros i st Hnd Hfresh Hok;
    simpl; [done|].
  rewrite fmap_cons in Hnd. apply NoDup_cons in Hnd as [Hp Hnd].
  apply IH; simpl; [done| |].
  - intros q Hq. rewrite lookup_insert_ne.
    + apply Hfresh. by apply list_elem_of_further.
    + intros Heq. apply Hp. rewrite Heq. apply list_elem_of_fmap. eauto.
  - intros s l q Hl Hq.
    destruct (add_to_slots_elem _ _ _ _ _ _ Hl Hq)
      as [(l0 & Hl0 & Hq0) | [-> Hin]].
    + pose proof (Hok s l0 q Hl0 Hq0) as Hs.
      rewrite lookup_insert_ne; [done|].
      intros Heq. rewrite <- Heq, Hfresh in Hs by apply list_elem_of_here.
      simpl in Hs. by apply elem_of_nil in Hs.
    + by rewrite lookup_insert_eq.
Qed.

(** *** Cancellation *)

Lemma cancel_packet_slots pts st pid s :
  sic_slots (cancel_packet pts st pid) !! s
  = (if decide (s ∈ default [] (pts !! pid))
     then filter (λ p, packet_id p ≠ pid) else λ l, l) <$> sic_slots st !! s.
Proof.
  unfold cancel_packet. simpl.
  apply (foldl_alter_lookup (filter (λ p, packet_id p ≠ pid))).
  intros l. apply filter_idemp.
Qed.

Lemma cancel_packet_shrinks pts st pid :
  Forall2 (λ l l' : list MessagePacket, l' ≠ [] → l ≠ [])
          (sic_slots st) (sic_slots (cancel_packet pts st pid)).
Proof.
  apply Forall2_lookup. intros s. rewrite cancel_packet_slots.
  destruct (sic_slots st !! s) as [l|]; simpl; constructor.
  destruct (decide _); [|done].
  intros Hne ->. by rewrite filter_nil in Hne.
Qed.

Lemma cancel_packet_consistent pts st pid :
  slots_consistent (sic_slots st) pts →
  slots_consistent (sic_slots (cancel_packet pts st pid)) pts.
Proof.
  intros Hok s l' p Hl' Hp. rewrite cancel_packet_slots in Hl'.
  destruct (sic_slots st !! s) as [l|] eqn:E; simplify_eq/=.
  apply (Hok s l p E).
  destruct (decide _); [|done].
  by apply list_elem_of_filter in Hp as [_ Hp].
Qed.

Lemma cancel_packet_ok pts st pid :
  sic_ok pts st → resolvable st pid → sic_ok pts (cancel_packet pts st pid).
Proof.
  intros [Hcons Hcount] Hres.
  split; [by apply cancel_packet_consistent|].
  pose proof (cancel_packet_shrinks pts st pid) as Hshrink.
  destruct (decide (pid ∈ resolved_packets st)) as [Hin|Hout].
  - pose proof (occupied_le _ _ Hshrink) as Hle.
    assert (resolved_packets (cancel_packet pts st pid) = resolved_packets st)
      as ->.
    { simpl. apply subseteq_union_1_L. by apply singleton_subseteq_l. }
    lia.
  - destruct Hres as [Hin | (s & p & Hs & Hid)]; [done|].
    assert (size (resolved_packets (cancel_packet pts st pid))
            = S (size (resolved_packets st))) as ->.
    { simpl. rewrite size_union by (by apply disjoint_singleton_l).
      by rewrite size_singleton. }
    assert (occupied (sic_slots (cancel_packet pts st pid))
            < occupied (sic_slots st))%nat as Hlt.
    { apply (occupied_lt _ _ Hshrink s [p] Hs); [done|].
      rewrite cancel_packet_slots, Hs. simpl.
      rewrite decide_True.
      - rewrite filter_cons_False, filter_nil; [done|].
        intros Hne. by apply Hne.
      - rewrite <- Hid. apply (Hcons s [p] p Hs). apply list_elem_of_here. }
    lia.
Qed.

Lemma cancel_packet_resolvable pts st pid pid' :
  resolvable st pid' → resolvable (cancel_packet pts st pid) pid'.
Proof.
  intros [Hin | (s & p & Hs & Hid)].
  - left. simpl. by apply elem_of_union_r.
  - destruct (decide (pid' = pid)) as [->|Hne].
    + left. simpl. apply elem_of_union_l. by apply elem_of_singleton.
    + right. exists s, p. split; [|done].
      rewrite cancel_packet_slots, Hs. simpl.
      destruct (decide _); [|done].
      rewrite filter_cons_True, filter_nil; [done|]. congruence.
Qed.

Lemma cancel_all_ok pts newly : ∀ st,
  sic_ok pts st → Forall (resolvable st) newly →
  sic_ok pts (foldl (cancel_packet pts) st newly).
Proof.
  induction newly as [|pid newly IH]; intros st Hok Hall; simpl; [done|].
  apply Forall_cons in Hall as [Hpid Hall].
  apply IH; [by apply cancel_packet_ok|].
  eapply Forall_impl; [done|]. intros pid'. apply cancel_packet_resolvable.
Qed.

Lemma find_singletons_alone slots unresolved pid :
  pid ∈ find_singletons slots unresolved →
  ∃ s p, slots !! s = Some [p] ∧ packet_id p = pid.
Proof.
  unfold find_singletons. intros Hin.
  apply list_elem_of_In, in_flat_map in Hin as (l & Hl & Hpid).
  apply list_elem_of_In, list_elem_of_lookup_1 in Hl as [s Hs].
  destruct l as [|p [|? ?]]; simpl in Hpid; [done| |done].
  destruct (bool_decide _); [|done].
  destruct Hpid as [<-|[]]. eauto.
Qed.

Lemma sic_iterations_ok n pts : ∀ st,
  sic_ok pts st → sic_ok pts (sic_iterations n pts st).
Proof.
  induction n as [|n IH]; intros st Hok; simpl; [done|].
  destruct (decide (unresolved_packets st = ∅)); [done|].
  destruct (find_singletons (sic_slots st) (unresolved_packets st))
    as [|x newly] eqn:E; [done|].
  apply IH. apply (cancel_all_ok pts (x :: newly) st Hok).
  apply Forall_forall. intros pid Hpid. right.
  apply (find_singletons_alone _ (unresolved_packets st)). by rewrite E.
Qed.

Lemma filter_by_id_length (packets : list MessagePacket) (X : gset string) :
  NoDup (packet_id <$> packets) →
  (length (filter (λ p, packet_id p ∈ X) packets) ≤ size X)%nat.
Proof.
  intros Hnd.
  set (kept := filter (λ p, packet_id p ∈ X) packets).
  assert (NoDup (packet_id <$> kept)) as Hnd'.
  { eapply sublist_NoDup; [done|]. apply fmap_sublist, sublist_filter. }
  rewrite <- (length_fmap packet_id kept).
  rewrite <- (size_list_to_set (C := gset string) _ Hnd').
  apply subseteq_size. intros pid Hpid.
  apply elem_of_list_to_set, list_elem_of_fmap in Hpid as (p & -> & Hp).
  by apply list_elem_of_filter in Hp as [Hp _].
Qed.

(** X20. The contention resolver lets through at most as many packets as
    there are slots: when the packets of a node have distinct packet
    ids, at most [CRDSA_SLOTS_PER_TICK] of them survive, whatever slots
    are drawn and however many packets contend. *)
Theorem crdsa_capacity (draw : nat → list nat) (packets : list MessagePacket) :
  NoDup (packet_id <$> packets) →
  (length (crdsa_resolve draw packets) ≤ CRDSA_SLOTS_PER_TICK)%nat.
Proof.
  intros Hnd. unfold crdsa_resolve.
  destruct packets as [|p0 packets0] eqn:Epackets; [simpl; lia|].
  rewrite <- Epackets in *. clear Epackets p0 packets0.
  pose proof (assign_replicas_consistent draw packets 0
                (replicate CRDSA_SLOTS_PER_TICK [], ∅) Hnd) as Hcons.
  pose proof (assign_replicas_length draw packets 0
                (replicate CRDSA_SLOTS_PER_TICK [], ∅)) as Hlen.
  destruct (assign_replicas draw 0 packets
              (replicate CRDSA_SLOTS_PER_TICK [], ∅)) as [slots pts].
  cbn [fst snd] in Hcons, Hlen. rewrite length_replicate in Hlen.
  assert (sic_ok pts (mkSic slots ∅ (dom pts))) as Hok.
  { split; cbn [sic_slots resolved_packets].
    - apply Hcons; [done|].
      intros s l p Hl Hp. apply lookup_replicate in Hl as [-> _].
      by apply elem_of_nil in Hp.
    - rewrite size_empty. pose proof (occupied_length slots). lia. }
  apply (sic_iterations_ok CRDSA_MAX_SIC_ITERATIONS) in Hok as [_ Hcount].
  etrans; [by apply filter_by_id_length|]. lia.
Qed.

(** ** Stored messages are known messages *)

Lemma knows_grows w w' :
  (∀ i n n', NODES w !! i = Some n → NODES w' !! i = Some n' →
             known_messages n ⊆ known_messages n') →
  length (NODES w') = length (NODES w) →
  (∀ k inventory' p, node_inventories w' !! k = Some inventory' →
                     p ∈ inventory' →
                     ∃ inventory, node_inventories w !! k = Some inventory
                                  ∧ p ∈ inventory) →
  knows w → knows w'.
Proof.
  intros Hnodes Hlen Hinv Hk k inventory' n' p Hlook Hn' Hp.
  destruct (Hinv _ _ _ Hlook Hp) as (inventory & Hlook0 & Hp0).
  destruct (lookup_lt_is_Some_2 (NODES w) (Z.to_nat (k - 1))) as [n Hn].
  { rewrite <- Hlen. by eapply lookup_lt_Some. }
  apply (Hnodes _ _ _ Hn Hn'). by eapply Hk.
Qed.

Lemma node_grows_known (ns ns' : list NodeRuntime) :
  (∀ i, option_Forall2 node_grows (ns !! i) (ns' !! i)) →
  ∀ i n n', ns !! i = Some n → ns' !! i = Some n' →
            known_messages n ⊆ known_messages n'.
Proof.
  intros Hpt i n n' Hn Hn'. specialize (Hpt i). rewrite Hn, Hn' in Hpt.
  inversion Hpt as [? ? Hg|]; subst. by destruct Hg as (_ & _ & _ & _ & _ & ?).
Qed.

Lemma relay_packet_grows env ia a b st p st' i :
  relay_packet env ia a b st p = Some st' →
  option_Forall2 node_grows (NODES st.1 !! i) (NODES st'.1 !! i).
Proof.
  destruct node_grows_steps as (H1 & H2 & H3 & H4).
  by apply (relay_packet_pointwise node_grows).
Qed.

Lemma commit_packet_grows w e w' i :
  commit_packet w e = Some w' →
  option_Forall2 node_grows (NODES w !! i) (NODES w' !! i).
Proof.
  destruct node_grows_steps as (H1 & H2 & H3 & H4).
  by apply (commit_packet_pointwise node_grows).
Qed.

Lemma commit_packet_knows w e w' :
  commit_packet w e = Some w' → 1 <= e.1 → knows w → knows w'.
Proof.
  intros Hrun He Hk k inventory' n' p Hlook Hn' Hp.
  pose proof (commit_packet_books _ _ _ Hrun) as (_ & Hlen & _).
  destruct (lookup_lt_is_Some_2 (NODES w) (Z.to_nat (k - 1))) as [n Hn].
  { rewrite <- Hlen. by eapply lookup_lt_Some. }
  pose proof (node_grows_known _ _ (λ i, commit_packet_grows _ _ _ i Hrun)
                _ _ _ Hn Hn') as Hsub.
  destruct (commit_packet_elem _ _ _ _ _ _ Hrun Hlook Hp)
    as [(inventory & Hlook0 & Hp0) | [-> ->]].
  { apply Hsub. by eapply Hk. }
  unfold commit_packet in Hrun.
  destruct (node_inventories w !! e.1) as [inventory|] eqn:E;
    simpl in Hrun; [|done].
  destruct (existsb (same_identity e.2) inventory) eqn:Eex.
  { simplify_eq. apply existsb_exists in Eex as (q & Hq & Hsame).
    unfold same_identity in Hsame.
    apply andb_true_iff in Hsame as [Hm%bool_decide_eq_true _].
    rewrite <- Hm. eapply Hk; [done..|]. by apply list_elem_of_In. }
  destruct (py_index _ _) as [idx|] eqn:Eidx; simplify_eq/=.
  assert (idx = Z.to_nat (e.1 - 1)) as ->.
  { unfold py_index in Eidx.
    destruct ((0 <=? e.1 - 1) && _); [by simplify_eq|].
    destruct (Z.ltb_spec (e.1 - 1) 0); [lia|].
    rewrite andb_false_r in Eidx. done. }
  rewrite list_lookup_alter_eq, Hn in Hn'. simplify_eq/=.
  apply elem_of_union_l. by apply elem_of_singleton.
Qed.

Lemma simulation_tick_knows calculate_distance env w w' :
  simulation_tick calculate_distance env w = Some w' →
  well_formed w → knows w → knows w'.
Proof.
  unfold simulation_tick. intros Hrun Hwf Hk.
  destruct (flood _ _ _) as [st|] eqn:E; simplify_eq/=.
  set (wl := locked_phase env w) in *.
  pose proof (locked_phase_well_formed env w Hwf) as (Hlenl & Hids & _).
  assert (knows wl) as Hkl.
  { apply (knows_grows w); [| done | | done].
    - apply node_grows_known. apply locked_phase_static.
    - intros k inventory' p Hlook Hp. subst wl.
      rewrite locked_phase_lookup in Hlook.
      destruct (node_inventories w !! k) as [inventory|] eqn:Einv;
        simplify_eq/=.
      exists inventory. split; [done|].
      eapply elem_of_sublist; [done | apply locked_inventory_sublist]. }
  cut (Forall (λ e, 1 <= e.1) st.2 ∧ knows st.1); [by intros [_ ?]|].
  apply (flood_contact_rule calculate_distance env wl
           (λ s, Forall (λ e, 1 <= e.1) s.2 ∧ knows s.1) st); [| |done|].
  - cbv beta.
    intros ia node_a node_b s p s' packets _ Hb _ _ _ _ _ _ Hnew Hstep
      [Hbuf Hks].
    pose proof (relay_packet_frame _ _ _ _ _ _ _ Hstep) as (Heq & _ & Hlen).
    destruct (relay_packet_new_copy _ _ _ _ _ _ _ Hstep Hnew) as [u ->].
    split.
    + apply Forall_app. split; [done|]. apply Forall_singleton. simpl.
      apply list_elem_of_lookup_1 in Hb as [ib Hib].
      rewrite (Hids _ _ Hib). lia.
    + apply (knows_grows s.1); [|done| |done].
      * apply node_grows_known. intros i. by eapply relay_packet_grows.
      * intros k inventory' q Hlook Hq. rewrite Heq in Hlook. eauto.
  - cbv beta. intros w1 buf e w2 He Hstep [Hbuf Hk1]. simpl in *.
    split; [done|]. eapply commit_packet_knows; [done| |done].
    by apply (proj1 (Forall_forall _ _) Hbuf e He).
  - split; [apply Forall_nil_2 | done].
Qed.

Lemma publish_message_nodes penv request w w' :
  publish_message penv request w = Some (published w') →
  1 <= publisher_node_id request ∧
  ∃ wl, NODES w'
        = alter (λ n, with_known_message (publish_message_id penv)
                        (with_wallet (λ _, wl) n))
                (Z.to_nat (publisher_node_id request - 1)) (NODES w).
Proof.
  unfold publish_message. intros Hrun.
  destruct (negb (validate_request request)); [done|].
  destruct (valid_node_id (publisher_node_id request)) eqn:Hvalid; [|done].
  simpl in Hrun.
  destruct (negb (forallb _ _)); [done|].
  destruct (py_index _ _) as [idx|] eqn:Eidx; simpl in Hrun; [|done].
  destruct (NODES w !! idx) as [publisher_node|]; simpl in Hrun; [|done].
  destruct (negb _); [done|].
  unfold valid_node_id in Hvalid. apply andb_true_iff in Hvalid as [Hlo _].
  apply Z.leb_le in Hlo. split; [done|].
  assert (idx = Z.to_nat (publisher_node_id request - 1)) as ->.
  { unfold py_index in Eidx.
    destruct ((0 <=? publisher_node_id request - 1) && _); [by simplify_eq|].
    destruct (Z.ltb_spec (publisher_node_id request - 1) 0); [lia|].
    rewrite andb_false_r in Eidx. done. }
  destruct (decide (request_type request = Safe));
    (destruct (node_inventories _ !! publisher_node_id request)
       as [inventory|] eqn:Einv; simplify_eq/=);
    eexists; by rewrite list_alter_alter_eq.
Qed.

Lemma publish_message_knows penv request w w' :
  publish_message penv request w = Some (published w') → knows w → knows w'.
Proof.
  intros Hrun Hk.
  destruct (publish_message_inventories _ _ _ _ Hrun)
    as (inventory & Hlook0 & Hinv' & _).
  destruct (publish_message_nodes _ _ _ _ Hrun) as (Hlo & wl & Hnodes).
  intros k inventory' n' p Hlook Hn' Hp.
  rewrite Hinv' in Hlook. rewrite Hnodes, list_lookup_alter in Hn'.
  destruct (decide (publisher_node_id request = k)) as [<-|Hne].
  - rewrite decide_True in Hn' by done.
    destruct (NODES w !! Z.to_nat (publisher_node_id request - 1))
      as [n|] eqn:En; simplify_eq/=.
    rewrite lookup_insert_eq in Hlook. simplify_eq.
    apply elem_of_app in Hp as [Hp | ->%list_elem_of_singleton].
    + apply elem_of_union_r. by eapply Hk.
    + apply elem_of_union_l. by apply elem_of_singleton.
  - rewrite lookup_insert_ne in Hlook by done.
    destruct (decide (Z.to_nat (publisher_node_id request - 1)
                      = Z.to_nat (k - 1))) as [Heq|_].
    + rewrite Heq in Hn'.
      destruct (NODES w !! Z.to_nat (k - 1)) as [n|] eqn:En; simplify_eq/=.
      apply elem_of_union_r. by eapply Hk.
    + by eapply Hk.
Qed.

Lemma reachable_knows calculate_distance w :
  reachable calculate_distance w → knows w.
Proof.
  induction 1 as [positions Hlen | env w w' Hreach IH Hrun
                 | penv request w w' _ IH Hfresh Hrun
                 | node_a node_b w _ IH].
  - intros k inventory n p Hlook _ Hp. simpl in Hlook.
    apply empty_inventories_lookup in Hlook as ->. by apply elem_of_nil in Hp.
  - eapply simulation_tick_knows; [done| |done].
    by apply (reachable_invariants _ _ Hreach).
  - by eapply publish_message_knows.
  - destruct (add_connection_inventories node_a node_b w) as [Hinv Hnodes].
    unfold knows. by rewrite Hinv, Hnodes.
Qed.

(** X21. In every reachable world a node knows what it stores: the
    gossip check [check_message_in_bloom] of node [k], asked about the
    messages of the packets in the inventory of [k], reports none of
    them missing. *)
Theorem stored_messages_are_known calculate_distance w k inventory missing :
  reachable calculate_distance w →
  node_inventories w !! k = Some inventory →
  check_message_in_bloom k (original_message_id <$> inventory) w
  = Some missing →
  missing = [].
Proof.
  intros Hreach Hlook Hcheck.
  pose proof (reachable_knows _ _ Hreach) as Hk.
  destruct (reachable_invariants _ _ Hreach) as [(_ & Hids & _) _].
  unfold check_message_in_bloom in Hcheck.
  destruct (list_find _ _) as [[i n]|] eqn:Efind; simplify_eq/=.
  apply list_find_Some in Efind as (Hn & Hid & _).
  rewrite (Hids _ _ Hn) in Hid.
  assert (i = Z.to_nat (k - 1)) as -> by lia.
  assert (Forall (λ msg_id, msg_id ∈ known_messages n)
                 (original_message_id <$> inventory)) as Hall.
  { apply Forall_fmap, Forall_forall. intros p Hp. simpl. by eapply Hk. }
  induction Hall as [|msg_id ids Hm _ IH]; [done|].
  rewrite filter_cons_False; [done|]. by intros Hmiss.
Qed.

(** ** The first version of the tick: one hop per tick *)

Lemma mock_relay_one_hop uuid4 w holder inventory b :
  Mock.node_inventories w !! holder = Some inventory →
  ∀ packets buf,
    (∀ p, p ∈ packets → p ∈ inventory) →
    Forall (Mock.one_hop_from w) buf →
    Forall (Mock.one_hop_from w) (foldl (Mock.relay_packet uuid4 b) buf packets).
Proof.
  intros Hinv. induction packets as [|p packets IH]; intros buf Hsub Hbuf;
    simpl; [done|].
  apply IH; [intros q Hq; apply Hsub; by right|].
  unfold Mock.relay_packet.
  destruct (bool_decide_reflect (b ∈ Mock.history p)) as [|Hnew]; [done|].
  apply Forall_app. split; [done|]. apply Forall_singleton.
  exists holder, inventory, p, (uuid4 (length buf)).
  split; [done|]. split; [apply Hsub; by left | done].
Qed.

Lemma mock_share_one_hop calculate_distance uuid4 w buf :
  for_each (Mock.share_from calculate_distance uuid4 w) [] (Mock.NODES w)
  = Some buf →
  Forall (Mock.one_hop_from w) buf.
Proof.
  intros Hrun.
  apply (for_each_ind (Forall (Mock.one_hop_from w)) _ _ _ _ Hrun);
    [apply Forall_nil_2|].
  intros buf1 node_a buf2 _ Hbuf1 Hshare. unfold Mock.share_from in Hshare.
  apply (for_each_ind (Forall (Mock.one_hop_from w)) _ _ _ _ Hshare); [done|].
  intros buf3 node_b buf4 _ Hbuf3 Hvisit. unfold Mock.visit_neighbour in Hvisit.
  destruct (decide _); [by simplify_eq|].
  destruct (Mock.in_contact _ _ _ _); [|by simplify_eq].
  destruct (Mock.node_inventories w !! Mock.id node_a) as [packets|] eqn:E;
    simplify_eq/=.
  by apply (mock_relay_one_hop uuid4 w (Mock.id node_a) packets
              (Mock.id node_b) E).
Qed.

Lemma mock_commit_elem inventories e inventories' k inventory' p :
  Mock.commit_packet inventories e = Some inventories' →
  inventories' !! k = Some inventory' → p ∈ inventory' →
  (∃ inventory, inventories !! k = Some inventory ∧ p ∈ inventory)
  ∨ (k, p) = e.
Proof.
  unfold Mock.commit_packet. intros Hrun Hlook Hp.
  destruct (inventories !! e.1) as [inventory|] eqn:E; simpl in Hrun; [|done].
  destruct (existsb _ _); simplify_eq; [left; eauto|].
  destruct (decide (e.1 = k)) as [<-|Hne].
  - rewrite lookup_insert_eq in Hlook. simplify_eq.
    apply elem_of_app in Hp as [Hp | ->%list_elem_of_singleton].
    + left. eauto.
    + right. by destruct e.
  - rewrite lookup_insert_ne in Hlook by done. left. eauto.
Qed.

(** X22. The first version of the tick moves a message one hop per
    tick: every packet an inventory holds after the tick was in that
    inventory before it, or is a copy, made for this node, of a packet
    that some inventory held before the tick: the copies are stored
    only after all nodes have shared. *)
Theorem mock_tick_one_hop calculate_distance uuid4 w w' k inventory' p' :
  Mock.simulation_tick calculate_distance uuid4 w = Some w' →
  Mock.node_inventories w' !! k = Some inventory' → p' ∈ inventory' →
  (∃ inventory, Mock.node_inventories w !! k = Some inventory ∧ p' ∈ inventory)
  ∨ Mock.one_hop_from w (k, p').
Proof.
  unfold Mock.simulation_tick. intros Hrun Hlook Hp.
  destruct (for_each (Mock.share_from _ _ _) _ _) as [buf|] eqn:Eshare;
    simpl in Hrun; [|done].
  destruct (for_each Mock.commit_packet _ _) as [inventories|] eqn:Ecommit;
    simplify_eq/=.
  pose proof (mock_share_one_hop _ _ _ _ Eshare) as Hbuf.
  revert k inventory' p' Hlook Hp.
  apply (for_each_ind
           (λ inv, ∀ k inventory' p',
              inv !! k = Some inventory' → p' ∈ inventory' →
              (∃ inventory, Mock.node_inventories w !! k = Some inventory
                            ∧ p' ∈ inventory)
              ∨ Mock.one_hop_from w (k, p')) _ _ _ _ Ecommit).
  - intros k inventory' p' Hlook Hp. left. eauto.
  - intros inv1 e inv2 He Hinv1 Hstep k inventory' p' Hlook Hp.
    destruct (mock_commit_elem _ _ _ _ _ _ Hstep Hlook Hp)
      as [(inventory & Hl & Hq) | <-].
    + by apply (Hinv1 k inventory p').
    + right. by apply (proj1 (Forall_forall _ _) Hbuf).
Qed.

Lemma mock_not_existing_fresh packet inventory :
  existsb (Mock.same_identity packet) inventory = false →
  Mock.identity packet ∉ Mock.identity <$> inventory.
Proof.
  intros Hex Hin. apply list_elem_of_fmap in Hin as (q & Heq & Hq).
  assert (existsb (Mock.same_identity packet) inventory = true) as Htrue;
    [|congruence].
  apply existsb_exists. exists q. split; [by apply list_elem_of_In|].
  unfold Mock.identity in Heq. injection Heq as Hm Hh.
  unfold Mock.same_identity.
  by rewrite !bool_decide_true.
Qed.

Lemma mock_commit_clean inventories e inventories' :
  Mock.commit_packet inventories e = Some inventories' →
  NoDup (Mock.history e.2) →
  Mock.clean inventories → Mock.clean inventories'.
Proof.
  unfold Mock.commit_packet. intros Hrun Hroute Hclean.
  destruct (inventories !! e.1) as [inventory|] eqn:E; simpl in Hrun; [|done].
  destruct (existsb _ _) eqn:Eex; simplify_eq; [done|].
  destruct (map_Forall_lookup_1 _ _ _ _ Hclean E) as [Hnd Hall].
  apply map_Forall_insert_2; [|done]. split.
  - rewrite fmap_app. apply NoDup_app. split; [done|]. split.
    + intros x Hx ->%list_elem_of_singleton.
      by apply (mock_not_existing_fresh e.2 inventory).
    + apply NoDup_singleton.
  - apply Forall_app. split; [done | by apply Forall_singleton].
Qed.

(** X24. The first version of the tick keeps the inventories clean: if
    no inventory holds two packets with the same original message id
    and history, and no stored history names a node twice, then the
    same is true after the tick. *)
Theorem mock_tick_keeps_clean calculate_distance uuid4 w w' :
  Mock.simulation_tick calculate_distance uuid4 w = Some w' →
  Mock.clean (Mock.node_inventories w) →
  Mock.clean (Mock.node_inventories w').
Proof.
  unfold Mock.simulation_tick. intros Hrun Hclean.
  destruct (for_each (Mock.share_from _ _ _) _ _) as [buf|] eqn:Eshare;
    simpl in Hrun; [|done].
  destruct (for_each Mock.commit_packet _ _) as [inventories|] eqn:Ecommit;
    simplify_eq/=.
  pose proof (mock_share_one_hop _ _ _ _ Eshare) as Hbuf.
  apply (for_each_ind Mock.clean _ _ _ _ Ecommit); [done|].
  intros inv1 e inv2 He Hinv1 Hstep.
  apply (mock_commit_clean _ _ _ Hstep); [|done].
  destruct (proj1 (Forall_forall _ _) Hbuf e He)
    as (holder & inventory & p & u & Hlook & Hp & Hnew & ->).
  simpl. apply NoDup_app. split; [|split].
  - destruct (map_Forall_lookup_1 _ _ _ _ Hclean Hlook) as [_ Hall].
    by apply (proj1 (Forall_forall _ _) Hall p).
  - intros x Hx ->%list_elem_of_singleton. done.
  - apply NoDup_singleton.
Qed.

(** * The further properties at work on the scenarios *)

Ltac line_world_safe_reachable :=
  apply (reach_publish meridian_distance (publish_env 1000 "m1")
           (mkRequest 1 "all clear" all_targets Safe) line_world);
  [ unfold line_world; do 3 apply reach_connect; apply reach_start;
    reflexivity
  | apply (bool_decide_unpack (fresh_message (publish_env 1000 "m1")
                                             line_world));
    vm_compute; exact I
  | vm_compute; reflexivity ].

Lemma ticks_keep_routes_witness :
  ∃ w', run_ticks meridian_distance [env_at 1003; env_at 1006] line_world_safe
        = Some w' ∧ routes_ok w'.
Proof.
  destruct (run_ticks meridian_distance [env_at 1003; env_at 1006]
              line_world_safe) as [w'|] eqn:E.
  - exists w'. split; [reflexivity|].
    apply (ticks_keep_routes meridian_distance _ line_world_safe w' E).
    apply (bool_decide_unpack (routes_ok line_world_safe)). vm_compute. exact I.
  - vm_compute in E. discriminate E.
Defined.

Lemma reachable_worlds_sound_witness :
  well_formed line_world_safe ∧ dedup_ok line_world_safe
  ∧ routes_ok line_world_safe.
Proof.
  apply (reachable_worlds_sound meridian_distance line_world_safe).
  line_world_safe_reachable.
Defined.

Lemma ticks_only_grow_nodes_witness :
  ∃ w', run_ticks meridian_distance [env_at 1003; env_at 1006] line_world_safe
        = Some w' ∧
        CONNECTIONS w' = CONNECTIONS line_world_safe ∧
        ∀ i, option_Forall2 node_grows (NODES line_world_safe !! i)
                            (NODES w' !! i).
Proof.
  destruct (run_ticks meridian_distance [env_at 1003; env_at 1006]
              line_world_safe) as [w'|] eqn:E.
  - exists w'. split; [reflexivity|].
    pose proof (ticks_only_grow_nodes meridian_distance _ line_world_safe w' E)
      as (Hc & _ & _ & Hg).
    split; [exact Hc | exact Hg].
  - vm_compute in E. discriminate E.
Defined.

Lemma ticks_invent_nothing_witness :
  ∃ w', run_ticks meridian_distance [env_at 1003; env_at 1006] line_world_safe
        = Some w' ∧ all_packets (descends_from line_world_safe) w'.
Proof.
  destruct (run_ticks meridian_distance [env_at 1003; env_at 1006]
              line_world_safe) as [w'|] eqn:E.
  - exists w'. split; [reflexivity|].
    apply (ticks_invent_nothing meridian_distance _ line_world_safe w' E).
  - vm_compute in E. discriminate E.
Defined.

Lemma ticks_never_raise_witness :
  ∃ w', run_ticks meridian_distance [env_at 1003; env_at 1006]
          (initial_world spread_positions) = Some w' ∧
        well_formed w' ∧
        length (NODES w') = length (NODES (initial_world spread_positions)).
Proof.
  apply (ticks_never_raise meridian_distance [env_at 1003; env_at 1006]
           (initial_world spread_positions)).
  apply initial_world_well_formed. reflexivity.
Defined.

Lemma free_rider_draws_only_ubi_witness :
  ∃ w' n n',
    run_ticks meridian_distance [env_at 1003; env_at 1006] line_world_selfish
    = Some w' ∧
    NODES line_world_selfish !! 1%nat = Some n ∧
    NODES w' !! 1%nat = Some n' ∧
    balance (wallet n')
    = balance (wallet n)
      + UBI_AMOUNT
        * ubi_rounds (tick_count (global_economy line_world_selfish)) 2 ∧
    total_sent (reputation n') = total_sent (reputation n).
Proof.
  destruct (run_ticks meridian_distance [env_at 1003; env_at 1006]
              line_world_selfish) as [w'|] eqn:E;
    [|vm_compute in E; discriminate E].
  destruct (NODES line_world_selfish !! 1%nat) as [n|] eqn:En;
    [|vm_compute in En; discriminate En].
  destruct (free_rider_draws_only_ubi meridian_distance _ line_world_selfish
              w' 1%nat n E En) as (n' & Hn' & _ & Hbal & Hsent).
  - clear E. revert En. vm_compute. intros [= <-]. reflexivity.
  - exists w', n, n'. split; [reflexivity|]. split; [reflexivity|].
    split; [exact Hn'|]. split; [exact Hbal | exact Hsent].
Defined.

Lemma free_rider_delivers_nothing_witness :
  ∃ w', run_ticks meridian_distance [env_at 1003; env_at 1006]
          line_world_selfish = Some w' ∧
        kept_from line_world_selfish 2 w'.
Proof.
  destruct (run_ticks meridian_distance [env_at 1003; env_at 1006]
              line_world_selfish) as [w'|] eqn:E.
  - exists w'. split; [reflexivity|].
    apply (free_rider_delivers_nothing meridian_distance _
             line_world_selfish w' 2 E).
    + apply (bool_decide_unpack (routes_ok line_world_selfish)).
      vm_compute. exact I.
    + apply (bool_decide_unpack (selfish line_world_selfish 2)).
      vm_compute. exact I.
  - vm_compute in E. discriminate E.
Defined.

Lemma unreached_node_receives_nothing_witness :
  ∃ w', run_ticks meridian_distance [env_at 1003; env_at 1006] line_world_safe
        = Some w' ∧
        option_Forall2 sublist (node_inventories w' !! 5)
                               (node_inventories line_world_safe !! 5).
Proof.
  destruct (run_ticks meridian_distance [env_at 1003; env_at 1006]
              line_world_safe) as [w'|] eqn:E.
  - exists w'. split; [reflexivity|].
    apply (unreached_node_receives_nothing meridian_distance _
             line_world_safe w' 5 E).
    apply (bool_decide_unpack (isolated meridian_distance line_world_safe 5)).
    vm_compute. exact I.
  - vm_compute in E. discriminate E.
Defined.

Lemma publish_message_rejections_witness :
  (422 = 422 ∧
   validate_request (mkRequest 1 "" all_targets Safe) = false) ∨
  (422 = 402 ∧
   validate_request (mkRequest 1 "" all_targets Safe) = true ∧
   request_type (mkRequest 1 "" all_targets Safe) ≠ Safe).
Proof.
  apply (publish_message_rejections (publish_env 1000 "m2")
           (mkRequest 1 "" all_targets Safe) line_world 422).
  vm_compute. reflexivity.
Defined.

Lemma publish_message_settles_witness :
  ∃ w', publish_message (publish_env 1000 "m1")
          (mkRequest 1 "water at gate 3" all_targets Logistics)
          (initial_world spread_positions) = Some (published w') ∧
        balance_of 1 w' = balance_of 1 (initial_world spread_positions) - 2 ∧
        total_fee_revenue (global_economy w') = 2.
Proof.
  destruct (publish_message_settles (publish_env 1000 "m1")
              (mkRequest 1 "water at gate 3" all_targets Logistics)
              (initial_world spread_positions)) as [_ Haccept].
  - apply initial_world_well_formed. reflexivity.
  - reflexivity.
  - vm_compute. reflexivity.
  - destruct Haccept as (w' & Hrun & Hbal & _ & Hfee & _).
    + right. vm_compute. discriminate.
    + exists w'. split; [exact Hrun|]. split; [exact Hbal | exact Hfee].
Defined.

Lemma links_are_undirected_witness :
  add_connection 1 2 line_world = add_connection 2 1 line_world ∧
  remove_connection 1 2 line_world = remove_connection 2 1 line_world.
Proof.
  destruct (links_are_undirected meridian_distance 1 2 line_world
              (new_node 1 0 0) (new_node 2 0 0)) as (Hadd & Hremove & _).
  - reflexivity.
  - reflexivity.
  - split; [exact Hadd | exact Hremove].
Defined.

Lemma reachable_packets_sound_witness :
  all_packets packet_sound line_world_safe.
Proof.
  apply (reachable_packets_sound meridian_distance line_world_safe).
  line_world_safe_reachable.
Defined.

Lemma nakamoto_is_least_majority_witness :
  let r := calculate_nakamoto_coefficient sample_wallets in
  (1 ≤ r ≤ length sample_wallets)%nat ∧
  ∀ group, group ⊆+ sample_wallets → (length group < r)%nat →
           2 * holdings group <= holdings sample_wallets.
Proof.
  destruct (nakamoto_is_least_majority sample_wallets) as (Hr & _ & Hleast).
  - vm_compute. reflexivity.
  - split; [exact Hr | exact Hleast].
Defined.

Lemma crdsa_capacity_witness :
  (length (crdsa_resolve (λ i, [i mod 5; (i + 1) mod 5]%nat)
                         contending_packets)
   ≤ CRDSA_SLOTS_PER_TICK)%nat.
Proof.
  apply (crdsa_capacity (λ i, [i mod 5; (i + 1) mod 5]%nat)
           contending_packets).
  apply (bool_decide_unpack (NoDup (packet_id <$> contending_packets))).
  vm_compute. exact I.
Defined.

Lemma stored_messages_are_known_witness :
  ∃ inventory,
    node_inventories line_world_safe !! 1 = Some inventory ∧
    check_message_in_bloom 1 (original_message_id <$> inventory)
      line_world_safe = Some [].
Proof.
  destruct (node_inventories line_world_safe !! 1) as [inventory|] eqn:Einv;
    [|vm_compute in Einv; discriminate Einv].
  exists inventory. split; [reflexivity|].
  destruct (check_message_in_bloom 1 (original_message_id <$> inventory)
              line_world_safe) as [missing|] eqn:Echeck.
  - f_equal.
    apply (stored_messages_are_known meridian_distance line_world_safe 1
             inventory missing); [|exact Einv | exact Echeck].
    clear Einv Echeck. line_world_safe_reachable.
  - clear Einv. vm_compute in Echeck. discriminate Echeck.
Defined.

Lemma mock_tick_one_hop_witness :
  ∃ w', Mock.simulation_tick meridian_distance (λ k, pretty (Z.of_nat k))
          mock_pair = Some w' ∧
        ∀ k inventory' p',
          Mock.node_inventories w' !! k = Some inventory' → p' ∈ inventory' →
          (∃ inventory, Mock.node_inventories mock_pair !! k = Some inventory
                        ∧ p' ∈ inventory)
          ∨ Mock.one_hop_from mock_pair (k, p').
Proof.
  destruct (Mock.simulation_tick meridian_distance (λ k, pretty (Z.of_nat k))
              mock_pair) as [w'|] eqn:E.
  - exists w'. split; [reflexivity|].
    intros k inventory' p'.
    apply (mock_tick_one_hop meridian_distance _ mock_pair w' k inventory' p' E).
  - vm_compute in E. discriminate E.
Defined.

Lemma health_status_meaning_witness :
  _assess_health (1 # 4) (calculate_nakamoto_coefficient sample_wallets)
  = CRITICAL.
Proof.
  destruct (health_status_meaning sample_wallets (1 # 4)) as [Hcritical _].
  - vm_compute. reflexivity.
  - apply Hcritical. right. exists [new_wallet 2 40; new_wallet 4 30].
    split; [simpl; lia|]. split; [|vm_compute; reflexivity].
    apply sublist_submseteq.
    apply sublist_cons, sublist_skip, sublist_cons, sublist_skip, sublist_nil.
Defined.

Lemma mock_tick_keeps_clean_witness :
  ∃ w', Mock.simulation_tick meridian_distance (λ k, pretty (Z.of_nat k))
          mock_pair = Some w' ∧
        Mock.clean (Mock.node_inventories w').
Proof.
  destruct (Mock.simulation_tick meridian_distance (λ k, pretty (Z.of_nat k))
              mock_pair) as [w'|] eqn:E.
  - exists w'. split; [reflexivity|].
    apply (mock_tick_keeps_clean meridian_distance _ mock_pair w' E).
    apply (bool_decide_unpack (Mock.clean (Mock.node_inventories mock_pair))).
    vm_compute. exact I.
  - vm_compute in E. discriminate E.
Defined.
